(** * mydns: blocklist matching, round-robin selection and query dispatch

    A shallow embedding of the Go packages [stringset], [globtrie],
    [blocklist], [roundrobin] and [dnsqueryhandler], with the properties
    their specification states about them.

    Go strings are byte strings: they are modelled by [string], whose
    characters are the 256 values of [ascii].  Go's [int] is modelled by
    [Z]; every integer the code computes is bounded by the length of a
    string or of a slice, so no wrap-around can occur.  Maps are [gmap],
    the set of strings is a [gset]. *)

From stdpp Require Import base strings gmap list.
From Stdlib Require Import ZArith Lia Ascii String.

Open Scope string_scope.
Open Scope Z_scope.

(** ** Package [strings] of the Go library (the functions the code calls) *)

Module Strings.

(** [strings.ToLower] on the ASCII range: the letters [A]..[Z] are mapped
    to [a]..[z] and every other byte below 128 is kept.  Bytes from 128
    on, which Go decodes as UTF-8 and maps with its Unicode tables, are
    left as they are here.  The statements below that speak of the
    labels of a name take ASCII names; the others hold whatever
    [ToLower] does to the bytes. *)
Definition lower_byte (c : ascii) : ascii :=
  let n := nat_of_ascii c in
  if ((65 <=? n) && (n <=? 90))%nat then ascii_of_nat (n + 32) else c.

Fixpoint ToLower (s : string) : string :=
  match s with
  | EmptyString => EmptyString
  | String c rest => String (lower_byte c) (ToLower rest)
  end.

(** [strings.Contains(s, "c")] for a one-byte pattern. *)
Fixpoint ContainsByte (s : string) (c : ascii) : bool :=
  match s with
  | EmptyString => false
  | String d rest => if Ascii.eqb d c then true else ContainsByte rest c
  end.

(** [strings.ContainsAny(s, chars)] for ASCII [chars]. *)
Fixpoint ContainsAny (s chars : string) : bool :=
  match s with
  | EmptyString => false
  | String d rest => if ContainsByte chars d then true else ContainsAny rest chars
  end.

(** Not in Go's package: the predicates used to speak of the bytes of
    a string. *)
Definition is_ascii (c : ascii) : bool := (nat_of_ascii c <? 128)%nat.

Fixpoint all_bytes (p : ascii -> bool) (s : string) : bool :=
  match s with
  | EmptyString => true
  | String c rest => p c && all_bytes p rest
  end.

End Strings.

(** ** Package [github.com/miekg/dns]: names, constants and messages

    The package is an external dependency of the repository; what follows
    models the functions the repository calls, after the library's code
    ([IsDomainName_library_table] below runs the model on the names the
    library tests [IsDomainName] with). *)

Module Dns.

Definition dot : ascii := "."%char.
Definition backslash : ascii := "\"%char.

Definition isDigit (c : ascii) : bool :=
  let n := nat_of_ascii c in ((48 <=? n) && (n <=? 57))%nat.

(** [IsFqdn]: the name ends in a dot that is not escaped, that is, a dot
    preceded by an even number of backslashes; [odd] is the parity of
    the backslashes just before the current byte. *)
Fixpoint IsFqdn_from (s : string) (odd : bool) : bool :=
  match s with
  | EmptyString => false
  | String c EmptyString => Ascii.eqb c dot && negb odd
  | String c rest =>
      IsFqdn_from rest (if Ascii.eqb c backslash then negb odd else false)
  end.

Definition IsFqdn (s : string) : bool := IsFqdn_from s false.

Definition Fqdn (s : string) : string :=
  if IsFqdn s then s else s ++ ".".

(** [CanonicalName]: lowercase and fully qualified. *)
Definition CanonicalName (s : string) : string :=
  Strings.ToLower (Fqdn s).

Definition lenmsg : Z := 256.

(** The loop of [IsDomainName] over the bytes of [Fqdn s] that are left,
    [i] being the index of the first of them and [len] the length of the
    whole name.  A backslash skips the byte it escapes, or the three
    digits of a [\DDD] escape. *)
Fixpoint IsDomainName_loop (s : string) (len i off begin : Z)
         (wasDot : bool) (labels : Z) : Z * bool :=
  match s with
  | EmptyString => (labels, true)
  | String c rest =>
      if Ascii.eqb c backslash then
        if off + 1 >? lenmsg then (labels, false)
        else
          match rest with
          | String d1 rest1 =>
              match rest1 with
              | String d2 (String d3 rest3) =>
                  if isDigit d1 && isDigit d2 && isDigit d3
                  then IsDomainName_loop rest3 len (i + 4) off (begin + 3)
                         false labels
                  else IsDomainName_loop rest1 len (i + 2) off (begin + 1)
                         false labels
              | _ =>
                  IsDomainName_loop rest1 len (i + 2) off (begin + 1)
                    false labels
              end
          | EmptyString => (labels, true)
          end
      else if Ascii.eqb c dot then
        if (i =? 0) && (len >? 1) then (labels, false)
        else if wasDot then (labels, false)
        else
          let labelLen := i - begin in
          if labelLen >=? 64 then (labels, false)
          else
            let off' := off + (1 + labelLen) in
            if off' >? lenmsg then (labels, false)
            else IsDomainName_loop rest len (i + 1) off' (i + 1) true (labels + 1)
      else IsDomainName_loop rest len (i + 1) off begin false labels
  end.

Definition IsDomainName (s : string) : Z * bool :=
  match s with
  | EmptyString => (0, false)
  | _ =>
      let s := Fqdn s in
      IsDomainName_loop s (Z.of_nat (String.length s)) 0 0 0 false 0
  end.

(** The labels of a name that is neither empty nor the root: the name
    is cut at every dot that stands before the last byte and is preceded
    by an even number of backslashes ([NextLabel]); a final unescaped
    dot is dropped ([IsFqdn]).  [odd] is the parity of the backslashes
    just before the current byte. *)
Fixpoint split_from (s : string) (odd : bool) : list string :=
  match s with
  | EmptyString => [EmptyString]
  | String c rest =>
      if Ascii.eqb c dot && negb odd then
        match rest with
        | EmptyString => [EmptyString]
        | _ => EmptyString :: split_from rest false
        end
      else
        match split_from rest
                (if Ascii.eqb c backslash then negb odd else false) with
        | l :: ls => String c l :: ls
        | [] => [String c EmptyString]
        end
  end.

Definition SplitDomainName (s : string) : list string :=
  if String.eqb s "" then []
  else if String.eqb s "." then []
  else split_from s false.

(** Constants of the wire protocol. *)
Definition TypeA : Z := 1.
Definition TypeAAAA : Z := 28.
Definition ClassINET : Z := 1.
Definition OpcodeQuery : Z := 0.
Definition RcodeSuccess : Z := 0.
Definition RcodeServerFailure : Z := 2.
Definition RcodeNameError : Z := 3.
Definition RcodeRefused : Z := 5.

(** Messages: the fields of [dns.Msg] that the handler or [SetReply]
    reads or writes; the other header bits and sections keep their zero
    value throughout.  [Id], [Qtype], [Qclass], [Rrtype] and [Class] are
    [uint16] in Go, and are only copied and compared. *)
Record Question : Type := {
  Name : string;
  Qtype : Z;
  Qclass : Z
}.

Record RR_Header : Type := {
  HdrName : string;
  Rrtype : Z;
  Class : Z;
  Ttl : Z
}.

(** [net.IP] is a slice of bytes. *)
Definition IP : Type := list Z.
Definition IPv4zero : IP := [0; 0; 0; 0; 0; 0; 0; 0; 0; 0; 255; 255; 0; 0; 0; 0].
Definition IPv6zero : IP := [0; 0; 0; 0; 0; 0; 0; 0; 0; 0; 0; 0; 0; 0; 0; 0].

(** The resource records: [*dns.A], [*dns.AAAA], and any other type as
    its header and its data. *)
Inductive RR : Type :=
| A (Hdr : RR_Header) (a : IP)
| AAAA (Hdr : RR_Header) (aaaa : IP)
| OtherRR (Hdr : RR_Header) (rdata : string).

Record Msg : Type := {
  Id : Z;
  Response : bool;
  Opcode : Z;
  RecursionDesired : bool;
  CheckingDisabled : bool;
  Rcode : Z;
  Questions : list Question;
  Answer : list RR
}.

(** [&dns.Msg{Answer: ans}] *)
Definition Msg_with_answer (ans : list RR) : Msg :=
  {| Id := 0; Response := false; Opcode := 0; RecursionDesired := false;
     CheckingDisabled := false; Rcode := 0; Questions := []; Answer := ans |}.

(** [SetReply] turns [m] into a reply to [request]. *)
Definition SetReply (m request : Msg) : Msg :=
  {| Id := Id request;
     Response := true;
     Opcode := Opcode request;
     RecursionDesired :=
       if Opcode request =? OpcodeQuery then RecursionDesired request
       else RecursionDesired m;
     CheckingDisabled :=
       if Opcode request =? OpcodeQuery then CheckingDisabled request
       else CheckingDisabled m;
     Rcode := RcodeSuccess;
     Questions :=
       match Questions request with
       | q :: _ => [q]
       | [] => Questions m
       end;
     Answer := Answer m |}.

(** [SetRcode] is [SetReply] followed by the assignment of [Rcode]. *)
Definition SetRcode (m request : Msg) (rcode : Z) : Msg :=
  let m := SetReply m request in
  {| Id := Id m; Response := Response m; Opcode := Opcode m;
     RecursionDesired := RecursionDesired m;
     CheckingDisabled := CheckingDisabled m;
     Rcode := rcode; Questions := Questions m; Answer := Answer m |}.

End Dns.

(** Go's [error] values are built with [fmt.Errorf]; an error is modelled
    by its message and [nil] by [None]. *)
Definition error : Type := string.

(** ** Package [stringset] *)

Module stringset.

(** [type StringSet map[string]struct{}] *)
Definition StringSet : Type := gset string.

Definition New : StringSet := ∅.

(** [Insert] stores [s] as it is given and never fails. *)
Definition Insert (set : StringSet) (s : string) : StringSet * option error :=
  ({[ s ]} ∪ set, None).

(** [Contains] looks the string up as it is given. *)
Definition Contains (set : StringSet) (s : string) : bool :=
  bool_decide (s ∈ set).

End stringset.

(** ** Package [globtrie] *)

Module globtrie.

(** [type node map[string]node] *)
#[warnings="-register-all"]
Inductive node : Type := Node { children : gmap string node }.

Record GlobTrie : Type := { root : node }.

Definition New : GlobTrie := {| root := Node ∅ |}.

Definition has_key (n : node) (k : string) : bool :=
  match children n !! k with Some _ => true | None => false end.

(** The loop of [Insert]: [path] holds the labels in the order the loop
    visits them (last label first, the marker [!] at the end).  A missing
    child is created empty, then the walk goes on inside it. *)
Fixpoint insert_path (path : list string) (n : node) : node :=
  match path with
  | [] => n
  | label :: rest =>
      let child :=
        match children n !! label with
        | Some c => c
        | None => Node ∅
        end in
      Node (<[label := insert_path rest child]> (children n))
  end.

Definition Insert (lm : GlobTrie) (s : string) : GlobTrie * option error :=
  let s := Strings.ToLower s in
  if negb (snd (Dns.IsDomainName s)) then
    (lm, Some "invalid domain")
  else if Strings.ContainsByte s "!" then
    (lm, Some "invalid domain: cannot contain exclamation point (`!`)")
  else
    let labels := Dns.SplitDomainName s in
    if Z.of_nat (List.length labels) <? 2 then
      (lm, Some "invalid domain: must have at least two levels")
    else
      let labels := "!" :: labels in
      ({| root := insert_path (rev labels) (root lm) |}, None).

(** One turn of the loop of [Contains] at [label], the labels still to
    visit after it being [rest]. *)
Inductive turn : Type :=
| Continue (labels : list string) (currNode : node) (prevNode : option node)
| Return (b : bool).

Definition Contains_turn (label : string) (rest : list string)
           (currNode : node) (prevNode : option node) : turn :=
  match children currNode !! label with
  | Some nextNode => Continue rest nextNode (Some currNode)
  | None =>
      match children currNode !! "*" with
      | Some glob => Continue rest glob None
      | None =>
          match prevNode with
          | None => Return false
          | Some prev =>
              match children prev !! "*" with
              | None => Return false
              | Some glob => Continue (label :: rest) glob None
              end
          end
      end
  end.

(** The loop itself.  [labels] are the labels from the current position
    of [i] down to 0; a turn that keeps the position ([i++]) passes the
    same list on, so the loop is driven by [fuel]. *)
Fixpoint Contains_loop (fuel : nat) (labels : list string)
         (currNode : node) (prevNode : option node) : option bool :=
  match labels with
  | [] => Some (has_key currNode "!")
  | label :: rest =>
      match fuel with
      | O => None
      | S fuel' =>
          match Contains_turn label rest currNode prevNode with
          | Return b => Some b
          | Continue labels' currNode' prevNode' =>
              Contains_loop fuel' labels' currNode' prevNode'
          end
      end
  end.

(** Two turns per label are enough ([Contains_loop_fuel] below). *)
Definition Contains_walk (labels : list string) (n : node) : option bool :=
  Contains_loop (2 * List.length labels) (rev labels) n None.

Definition Contains (lm : GlobTrie) (s : string) : bool :=
  let s := Strings.ToLower s in
  if negb (snd (Dns.IsDomainName s)) then false
  else if Strings.ContainsAny s "!*" then false
  else
    let labels := Dns.SplitDomainName s in
    if Z.of_nat (List.length labels) <? 2 then false
    else
      match Contains_walk labels (root lm) with
      | Some b => b
      | None => false
      end.

End globtrie.

(** ** Package [blocklist] *)

Module blocklist.

(** Both fields have the interface type [set]; [Empty] puts a
    [StringSet] in [exact] and a [GlobTrie] in [glob], and nothing else
    ever builds a [Blocklist]. *)
Record Blocklist : Type := {
  exact : stringset.StringSet;
  glob : globtrie.GlobTrie
}.

Definition Empty : Blocklist :=
  {| exact := stringset.New; glob := globtrie.New |}.

(** What a [bufio.Scanner] over the reader delivers: the lines for which
    [Scan] returns true, then the value of [Err] once [Scan] has
    returned false ([None] at the end of the input).  When the reader
    fails, the last line delivered may be the unfinished line that was
    in the buffer. *)
Record Scanner : Type := {
  lines : list string;
  Err : option error
}.

(** The state of the loop of [Load]: the blocklist, the counter and the
    errors handed to [log.Println]. *)
Record loading : Type := {
  bl : Blocklist;
  cnt : Z;
  logged : list error
}.

(** The body of the loop for the line [l]. *)
Definition Load_line (st : loading) (l : string) : loading :=
  if negb (snd (Dns.IsDomainName l)) then st
  else
    let l := Dns.CanonicalName l in
    let '(bl', err) :=
      if Strings.ContainsByte l "*" then
        let '(g, err) := globtrie.Insert (glob (bl st)) l in
        ({| exact := exact (bl st); glob := g |}, err)
      else
        let '(e, err) := stringset.Insert (exact (bl st)) l in
        ({| exact := e; glob := glob (bl st) |}, err)
    in
    match err with
    | Some err => {| bl := bl'; cnt := cnt st; logged := logged st ++ [err] |}
    | None => {| bl := bl'; cnt := cnt st + 1; logged := logged st |}
    end.

Definition Load_loop (ls : list string) : loading :=
  fold_left Load_line ls {| bl := Empty; cnt := 0; logged := [] |}.

(** [Load] returns the blocklist, the counter and the error. *)
Definition Load (r : Scanner) : Blocklist * Z * option error :=
  let st := Load_loop (lines r) in
  match Err r with
  | Some err => (bl st, cnt st, Some ("loading blocklist: " ++ err))
  | None => (bl st, cnt st, None)
  end.

Definition Contains (b : Blocklist) (fqdn : string) : bool :=
  stringset.Contains (exact b) fqdn || globtrie.Contains (glob b) fqdn.

End blocklist.

(** ** Package [roundrobin] *)

(** What a call that can panic gives. *)
Inductive outcome (A : Type) : Type :=
| Returned (a : A)
| Panicked (msg : string).
Arguments Returned {A} a.
Arguments Panicked {A} msg.

Module roundrobin.

(** The mutex only serialises the calls of [Next]; calls are modelled
    one after the other, each taking the selector the previous one
    left. *)
Record RoundRobin : Type := {
  list : Datatypes.list string;
  idx : Z
}.

(** [New] copies [ss] and returns the selector; it has no error
    result. *)
Definition New (ss : Datatypes.list string) : RoundRobin :=
  {| list := ss; idx := 0 |}.

(** [Next]: indexing outside the slice panics, and so does a remainder
    by zero. *)
Definition Next (r : RoundRobin) : outcome (string * RoundRobin) :=
  if (idx r <? 0) || (Z.of_nat (List.length (list r)) <=? idx r) then
    Panicked "index out of range"
  else
    match list r !! Z.to_nat (idx r) with
    | None => Panicked "index out of range"
    | Some s =>
        if Z.of_nat (List.length (list r)) =? 0 then
          Panicked "integer divide by zero"
        else
          Returned
            (s, {| list := list r;
                   idx := Z.rem (idx r + 1) (Z.of_nat (List.length (list r))) |})
    end.

(** [n] calls of [Next] in a row: the strings returned, in order, and
    the selector left. *)
Fixpoint Next_n (n : nat) (r : RoundRobin) :
  outcome (Datatypes.list string * RoundRobin) :=
  match n with
  | O => Returned ([], r)
  | S n' =>
      match Next r with
      | Panicked m => Panicked m
      | Returned (s, r') =>
          match Next_n n' r' with
          | Panicked m => Panicked m
          | Returned (ss, r'') => Returned (s :: ss, r'')
          end
      end
  end.

End roundrobin.

(** The start-up code of [main] that builds the selector: an empty list
    of nameservers is fatal before [roundrobin.New] is reached; otherwise
    the port is appended to every address. *)
Module main.

(** [logger.Fatal] writes the message and ends the process. *)
Inductive startup (A : Type) : Type :=
| Started (a : A)
| Fatal (msg : string).
Arguments Started {A} a.
Arguments Fatal {A} msg.

Definition upstreamPort (flagTLSServerName : string) : string :=
  if (0 <? Z.of_nat (String.length flagTLSServerName)) then ":853" else ":53".

(** The part of [main] that starts with the check of the list of
    nameservers and ends with [roundrobin.New]; the check of the ports
    that precedes it is in [cmd_mydns.main] below. *)
Definition nameservers (uniqListOfNameservers : list string)
           (flagTLSServerName : string) : startup roundrobin.RoundRobin :=
  if Z.of_nat (List.length uniqListOfNameservers) <? 1 then
    Fatal "at least one nameserver required!"
  else
    Started
      (roundrobin.New
         (map (fun val => val ++ upstreamPort flagTLSServerName)
              uniqListOfNameservers)).

End main.

(** ** Package [dnsqueryhandler] *)

Module dnsqueryhandler.

Import Dns.
Local Open Scope list_scope.

(** The handler: [exchanger.Exchange] gives the response or an error
    (the round-trip time is ignored by the caller); the chooser is the
    round-robin selector and the set is the blocklist, as [main] wires
    them.  The logger is the destination of the [Log] events. *)
Record DNSQueryHandler : Type := {
  exchanger : Msg -> string -> Msg + error;
  nameservers : roundrobin.RoundRobin;
  blocklist : blocklist.Blocklist
}.

(** What the handler gets from outside for one request: the outcome of
    reading the random source (the hex form of the bytes, or the error),
    the identifier [dns.Id()] draws, and whether [w.RemoteAddr()] is a
    UDP or TCP address. *)
Record request_env : Type := {
  rand : string + error;
  fresh_id : Z;
  remote_is_ip : bool
}.

(** What the handler does to the outside, in order. *)
Inductive event : Type :=
| Log (level msg : string)
| Exchange (m : Msg) (address : string)
| WriteMsg (m : Msg).

Definition generateRequestID (r : string + error) : string * option error :=
  match r with
  | inr err =>
      ("00000000000000000000000000000000", Some ("reading random: " ++ err)%string)
  | inl hex => (hex, None)
  end.

Definition isValidQtype (qtype : Z) : bool :=
  if qtype =? TypeA then true
  else if qtype =? TypeAAAA then true
  else false.

Definition writeAnswer (r : Msg) (ans : list RR) : event :=
  WriteMsg (SetReply (Msg_with_answer ans) r).

(** [writeErr] passes [dns.RcodeNameError] to [SetRcode], whatever
    [code] is. *)
Definition writeErr (r : Msg) (code : Z) : event :=
  WriteMsg (SetRcode (Msg_with_answer []) r RcodeNameError).

(** The parameters are declared in the order [fqdn, qclass, qtype]. *)
Definition generateBlockedAnswer (fqdn : string) (qclass qtype : Z) : RR :=
  let hdr := {| HdrName := fqdn; Rrtype := qtype; Class := qclass; Ttl := 0 |} in
  if qtype =? TypeA then A hdr IPv4zero
  else if qtype =? TypeAAAA then AAAA hdr IPv6zero
  else A hdr IPv4zero.

(** [HandleAandAAAA]: the events of one request and the selector it
    leaves, or the panic of [Next]. *)
Definition HandleAandAAAA (s : DNSQueryHandler) (env : request_env) (r : Msg)
  : outcome (list event * roundrobin.RoundRobin) :=
  let '(reqID, err) := generateRequestID (rand env) in
  match err with
  | Some _ =>
      Returned ([Log "error" "failed to generate request ID";
                 writeErr r RcodeServerFailure], nameservers s)
  | None =>
      match Questions r with
      | [] =>
          Returned ([Log "info" "refusing to answer because there are no questions";
                     writeErr r RcodeRefused], nameservers s)
      | q :: _ =>
          let fqdn := Fqdn (Name q) in
          let addr_events :=
            if remote_is_ip env then []
            else [Log "error" "failed to convert remote addr to IP"] in
          if negb (Qclass q =? ClassINET) then
            Returned (addr_events ++
                      [Log "info" "refusing to answer non-INET class question";
                       writeErr r RcodeRefused], nameservers s)
          else if negb (isValidQtype (Qtype q)) then
            Returned (addr_events ++
                      [Log "info" "refusing to answer non-A/AAAA type question";
                       writeErr r RcodeRefused], nameservers s)
          else if blocklist.Contains (blocklist s) fqdn then
            let ans := generateBlockedAnswer fqdn (Qtype q) (Qclass q) in
            Returned (addr_events ++ [Log "info" "block"; writeAnswer r [ans]],
                      nameservers s)
          else
            match roundrobin.Next (nameservers s) with
            | Panicked m => Panicked m
            | Returned (nameserver, nameservers') =>
                let uquery :=
                  {| Id := fresh_id env; Response := false;
                     Opcode := OpcodeQuery;
                     RecursionDesired := RecursionDesired r;
                     CheckingDisabled := false; Rcode := 0;
                     Questions :=
                       [{| Name := fqdn; Qtype := Qtype q; Qclass := Qclass q |}];
                     Answer := [] |} in
                match exchanger s uquery nameserver with
                | inr _ =>
                    Returned (addr_events ++
                              [Exchange uquery nameserver;
                               Log "error" "upstream DNS query failed";
                               writeErr r RcodeServerFailure], nameservers')
                | inl ures =>
                    if negb (Id uquery =? Id ures) then
                      Returned (addr_events ++
                                [Exchange uquery nameserver;
                                 Log "info" "query response ID mismatch";
                                 writeErr r RcodeServerFailure], nameservers')
                    else if Z.of_nat (List.length (Answer ures)) <? 1 then
                      Returned (addr_events ++
                                [Exchange uquery nameserver;
                                 Log "info" "no answer in query response";
                                 writeErr r RcodeNameError], nameservers')
                    else
                      let answers := Answer ures in
                      Returned (addr_events ++
                                [Exchange uquery nameserver] ++
                                map (fun _ => Log "info" "answer") answers ++
                                [writeAnswer r answers], nameservers')
                end
            end
      end
  end.

(** The messages written to the client, and the upstream exchanges. *)
Definition written (evs : list event) : list Msg :=
  flat_map (fun e => match e with WriteMsg m => [m] | _ => [] end) evs.

Definition exchanges (evs : list event) : list (Msg * string) :=
  flat_map (fun e => match e with Exchange m a => [(m, a)] | _ => [] end) evs.

End dnsqueryhandler.

(** * Auxiliary definitions for the statements *)

(** Shapes of tries the statements speak about. *)
Module shape.

Import globtrie.

(** The node a path of labels leads to, if every label has a child. *)
Fixpoint find (path : list string) (n : node) : option node :=
  match path with
  | [] => Some n
  | label :: rest =>
      match children n !! label with
      | Some c => find rest c
      | None => None
      end
  end.

(** The pattern whose labels are [path] (last label first) is stored:
    its path exists and ends in the marker. *)
Definition stored (path : list string) (lm : GlobTrie) : bool :=
  match find (path ++ ["!"]) (root lm) with
  | Some _ => true
  | None => false
  end.

(** A trie filled by a sequence of [Insert] calls, errors dropped as the
    callers do. *)
Definition populate (lm : GlobTrie) (patterns : list string) : GlobTrie :=
  fold_left (fun t p => fst (Insert t p)) patterns lm.

(** The node at [path], if there is one, has none of the children
    [keys]: no stored pattern goes on from [path] with one of these
    labels. *)
Definition free_below (path keys : list string) (lm : GlobTrie) : bool :=
  match find path (root lm) with
  | None => true
  | Some n => forallb (fun k => negb (has_key n k)) keys
  end.

(** The node at [path], if there is one, carries the terminal marker:
    no stored pattern goes through [path] unless the pattern of [path]
    is stored itself. *)
Definition unshadowed (path : list string) (lm : GlobTrie) : bool :=
  match find path (root lm) with
  | None => true
  | Some n => has_key n "!"
  end.

(** What bounds the turns left in the loop of [Contains]: two per
    label, and one more while a previous node is remembered. *)
Definition walk_measure (labels : list string) (prevNode : option node) : nat :=
  (2 * List.length labels + match prevNode with Some _ => 1 | None => 0 end)%nat.

(** The trie of [TestContains] in the repository. *)
Definition test_trie : GlobTrie :=
  populate New
    ["sub1.example.com."; "*.example.com."; "sub2.*.example.com.";
     "sub3.sub1.example.com."].

End shape.

Module dispatch.

Import Dns dnsqueryhandler.

(** The queries the dispatcher turns down: no question, or a first
    question that is not of class INET and of type A or AAAA. *)
Definition turned_down (r : Msg) : bool :=
  match Questions r with
  | [] => true
  | q :: _ => negb (Qclass q =? ClassINET) || negb (isValidQtype (Qtype q))
  end.

(** The first question is one the dispatcher serves, for a name that is
    not blocked. *)
Definition forwarded (s : DNSQueryHandler) (r : Msg) : bool :=
  match Questions r with
  | [] => false
  | q :: _ =>
      (Qclass q =? ClassINET) && isValidQtype (Qtype q)
      && negb (blocklist.Contains (blocklist s) (Fqdn (Name q)))
  end.

(** The outbound query built for [r]. *)
Definition upstream_query (env : request_env) (r : Msg) : Msg :=
  match Questions r with
  | [] => Msg_with_answer []
  | q :: _ =>
      {| Id := fresh_id env; Response := false; Opcode := OpcodeQuery;
         RecursionDesired := RecursionDesired r;
         CheckingDisabled := false; Rcode := 0;
         Questions :=
           [{| Name := Fqdn (Name q); Qtype := Qtype q; Qclass := Qclass q |}];
         Answer := [] |}
  end.

(** The error reply [writeErr] sends for [r]. *)
Definition error_reply (r : Msg) : Msg :=
  SetRcode (Msg_with_answer []) r RcodeNameError.

End dispatch.

(** Concrete handlers and queries the statements are tried on. *)
Module sample.

Import Dns dnsqueryhandler.

(** The blocklist of the end-to-end example of the specification. *)
Definition block_list : blocklist.Blocklist :=
  fst (fst (blocklist.Load
              {| blocklist.lines := ["sub1.example.com."; "*.example.com."];
                 blocklist.Err := None |})).

Definition failing_exchanger : Msg -> string -> Msg + error :=
  fun _ _ => inr "i/o timeout".

Definition handler : DNSQueryHandler :=
  {| exchanger := failing_exchanger;
     nameservers := roundrobin.New ["192.0.2.1:53"; "192.0.2.2:53"];
     blocklist := block_list |}.

Definition env : request_env :=
  {| rand := inl "00112233445566778899aabbccddeeff";
     fresh_id := 4242;
     remote_is_ip := true |}.

Definition query (name : string) (qtype qclass : Z) : Msg :=
  {| Id := 99; Response := false; Opcode := OpcodeQuery;
     RecursionDesired := true; CheckingDisabled := false; Rcode := 0;
     Questions := [{| Name := name; Qtype := qtype; Qclass := qclass |}];
     Answer := [] |}.

Definition no_question : Msg :=
  {| Id := 99; Response := false; Opcode := OpcodeQuery;
     RecursionDesired := true; CheckingDisabled := false; Rcode := 0;
     Questions := []; Answer := [] |}.

End sample.

(** What a line of the blocklist source contributes, in the words of the
    specification: a line that is not a legal domain name is skipped; a
    legal one is normalised and goes to the exact-name set, or to the trie
    when it holds a wildcard character and the trie accepts it. *)
Module loader.

Inductive entry : Type :=
| ExactName (name : string)
| GlobPattern (pattern : string).

Definition trie_accepts (pattern : string) : bool :=
  match snd (globtrie.Insert globtrie.New pattern) with
  | None => true
  | Some _ => false
  end.

Definition classify (line : string) : option entry :=
  if snd (Dns.IsDomainName line) then
    let name := Dns.CanonicalName line in
    if Strings.ContainsByte name "*" then
      if trie_accepts name then Some (GlobPattern name) else None
    else Some (ExactName name)
  else None.

Definition exact_names (es : list entry) : list string :=
  flat_map (fun e => match e with ExactName n => [n] | GlobPattern _ => [] end) es.

Definition glob_patterns (es : list entry) : list string :=
  flat_map (fun e => match e with GlobPattern p => [p] | ExactName _ => [] end) es.

(** The blocklist that holds exactly the entries [es]. *)
Definition holding (es : list entry) : blocklist.Blocklist :=
  {| blocklist.exact := list_to_set (exact_names es);
     blocklist.glob := shape.populate globtrie.New (glob_patterns es) |}.

End loader.

(** Names as the specification sees them: labels separated by dots. *)
Module names.

(** A byte that stands for itself in a name: ASCII, no backslash. *)
Definition plain_byte (c : ascii) : bool :=
  Strings.is_ascii c && negb (Ascii.eqb c Dns.backslash).

(** A name without escape sequences. *)
Definition plain (s : string) : bool := Strings.all_bytes plain_byte s.

(** A byte of a label of a concrete name: plain, and neither a dot nor
    one of the two reserved characters. *)
Definition label_byte (c : ascii) : bool :=
  plain_byte c && negb (Ascii.eqb c Dns.dot)
  && negb (Ascii.eqb c "!") && negb (Ascii.eqb c "*").

Definition length_ok (l : string) : bool :=
  (1 <=? Z.of_nat (String.length l)) && (Z.of_nat (String.length l) <=? 63).

(** A byte inside a label: neither a dot nor a backslash. *)
Definition inner_byte (c : ascii) : bool :=
  negb (Ascii.eqb c Dns.dot) && negb (Ascii.eqb c Dns.backslash).

(** [p] put in front of the first of the labels [ls]. *)
Definition prepend (p : string) (ls : list string) : list string :=
  match ls with
  | l :: ls => (p ++ l) :: ls
  | [] => [p]
  end.

(** A legal single label: 1 to 63 label bytes. *)
Definition legal_label (l : string) : bool :=
  Strings.all_bytes label_byte l && length_ok l.

(** The pieces of [s] between its dots. *)
Fixpoint dot_split (s : string) : list string :=
  match s with
  | EmptyString => [EmptyString]
  | String c rest =>
      if Ascii.eqb c Dns.dot then EmptyString :: dot_split rest
      else
        match dot_split rest with
        | l :: ls => String c l :: ls
        | [] => [String c EmptyString]
        end
  end.

Fixpoint ends_with_dot (s : string) : bool :=
  match s with
  | EmptyString => false
  | String c EmptyString => Ascii.eqb c Dns.dot
  | String _ rest => ends_with_dot rest
  end.

(** The labels of a plain name, the final dot being optional. *)
Definition labels (s : string) : list string :=
  if ends_with_dot s then removelast (dot_split s) else dot_split s.

(** The name in which every label is followed by a dot. *)
Fixpoint dotted (ls : list string) : string :=
  match ls with
  | [] => EmptyString
  | l :: ls => l ++ String Dns.dot (dotted ls)
  end.

(** The bytes the labels take with one length byte each. *)
Fixpoint wire_length (ls : list string) : Z :=
  match ls with
  | [] => 0
  | l :: ls => 1 + Z.of_nat (String.length l) + wire_length ls
  end.

(** The labels make a legal name: each has 1 to 63 bytes and together
    they fit the limit of [IsDomainName]. *)
Definition well_formed (ls : list string) : bool :=
  forallb length_ok ls && (wire_length ls <=? Dns.lenmsg).

(** Malformed as the specification lists it: a label longer than 63
    bytes, fewer than two labels, or the reserved character [!]. *)
Definition listed_malformed (s : string) : bool :=
  existsb (fun l => 63 <? Z.of_nat (String.length l)) (labels s)
  || (Z.of_nat (List.length (labels s)) <? 2)
  || Strings.ContainsByte s "!".

End names.

(** ** Package [iplist] *)

Module iplist.

(** [strings.Split(s, sep)] for a one-byte separator: the pieces of [s]
    between the separators, one more than there are separators. *)
Fixpoint Split (s : string) (sep : ascii) : list string :=
  match s with
  | EmptyString => [EmptyString]
  | String c rest =>
      if Ascii.eqb c sep then EmptyString :: Split rest sep
      else
        match Split rest sep with
        | piece :: pieces => String c piece :: pieces
        | [] => [String c EmptyString]
        end
  end.

Record IPList : Type := { values : list string }.

Definition New : IPList := {| values := [] |}.

(** [String], named [IPList_String] here: the loop writes a comma
    before every address but the first; the state is the text written
    and the index. *)
Definition String_turn (st : string * Z) (addr : string) : string * Z :=
  let '(s, idx) := st in
  ((if 0 <? idx then s ++ "," else s) ++ addr, idx + 1).

Definition IPList_String (l : IPList) : string :=
  fst (fold_left String_turn (values l) ("", 0)).

(** [Uniq]: [seen] is the map of the values met, [uniq] the slice
    built. *)
Fixpoint Uniq_loop (vs : list string) (seen : gset string)
         (uniq : list string) : list string :=
  match vs with
  | [] => uniq
  | v :: rest =>
      if bool_decide (v ∈ seen) then Uniq_loop rest seen uniq
      else Uniq_loop rest ({[ v ]} ∪ seen) (uniq ++ [v])
  end.

Definition Uniq (l : IPList) : list string :=
  Uniq_loop (values l) ∅ [].

Section WithNet.

(** From outside the repository: [net.ParseIP] followed by
    [IP.String] ([None] when [ParseIP] returns nil), and the quoting
    of [fmt]'s verb [%q]. *)
Variable ParseIP_String : string -> option string.
Variable Quote : string -> string.

(** The loop of [Set] over the pieces; [seen] starts empty at every
    call.  The addresses appended before an invalid piece stay. *)
Fixpoint Set_loop (ss : list string) (seen : gset string)
         (vs : list string) : IPList * option error :=
  match ss with
  | [] => ({| values := vs |}, None)
  | ipStr :: rest =>
      match ParseIP_String ipStr with
      | None =>
          ({| values := vs |},
           Some ("invalid nameserver IP: " ++ Quote ipStr))
      | Some addr =>
          if bool_decide (addr ∈ seen) then Set_loop rest seen vs
          else Set_loop rest ({[ addr ]} ∪ seen) (vs ++ [addr])
      end
  end.

(** [Set], named [IPList_Set] here. *)
Definition IPList_Set (l : IPList) (s : string) : IPList * option error :=
  Set_loop (Split s ",") ∅ (values l).

End WithNet.

End iplist.

(** Patterns against names, label by label. *)
(** ** Command [mydns] *)

Module cmd_mydns.

(** [main] from the check of the ports to the call of
    [roundrobin.New]: the arguments are the values of the flags after
    [flag.Parse], the result is the selector handed on, or the message
    of the [logger.Fatal] that ends the process.  The first check
    comes first: without a port, the nameservers are not looked
    at. *)
Definition main (flagTCP flagUDP : Z) (flagNameservers : iplist.IPList)
           (flagTLSServerName : string) : main.startup roundrobin.RoundRobin :=
  if (flagTCP <=? 0) && (flagUDP <=? 0) then
    main.Fatal "at least one port for TCP or UDP must be specified"
  else
    main.nameservers (iplist.Uniq flagNameservers) flagTLSServerName.

End cmd_mydns.

(** Not in the repository: what is used to state what [Set] and
    [String] compute. *)
Module flags.

(** The addresses of the pieces before the first one [ParseIP]
    refuses, and that piece if there is one. *)
Fixpoint parsed_prefix (ParseIP_String : string -> option string)
         (ss : list string) : list string * option string :=
  match ss with
  | [] => ([], None)
  | ipStr :: rest =>
      match ParseIP_String ipStr with
      | None => ([], Some ipStr)
      | Some addr =>
          (addr :: fst (parsed_prefix ParseIP_String rest),
           snd (parsed_prefix ParseIP_String rest))
      end
  end.

(** Every string of [vs] after a comma. *)
Fixpoint after_commas (vs : list string) : string :=
  match vs with
  | [] => ""
  | v :: rest => "," ++ v ++ after_commas rest
  end.

End flags.

(** Not in the repository: the lines [Load] keeps, told by the checks
    the code makes on them ([Load]: [IsDomainName] of the line, then a
    wildcard or not in the canonical name; [GlobTrie.Insert]:
    [IsDomainName] of the lowered name, no marker character, two labels
    at least). *)
Module kept.

Definition exact_line (l : string) : bool :=
  snd (Dns.IsDomainName l)
  && negb (Strings.ContainsByte (Dns.CanonicalName l) "*").

Definition pattern_line (l : string) : bool :=
  snd (Dns.IsDomainName l)
  && Strings.ContainsByte (Dns.CanonicalName l) "*"
  && (let s := Strings.ToLower (Dns.CanonicalName l) in
      snd (Dns.IsDomainName s)
      && negb (Strings.ContainsByte s "!")
      && (2 <=? Z.of_nat (List.length (Dns.SplitDomainName s)))).

(** The path of the pattern of a line in the trie: its labels, last
    label first. *)
Definition path_of (l : string) : list string :=
  rev (Dns.SplitDomainName (Strings.ToLower (Dns.CanonicalName l))).

End kept.

Module matching.

(** A label of a pattern matches a label of a name: it is that label,
    or it is the wildcard. *)
Definition label_matches (p l : string) : Prop := p = l \/ p = "*".

Definition pattern_matches (pattern name : list string) : Prop :=
  Forall2 label_matches pattern name.

(** The labels [Insert] and [Contains] work on. *)
Definition labels_of (s : string) : list string :=
  Dns.SplitDomainName (Strings.ToLower s).

(** [Insert] accepts the pattern. *)
Definition accepted (p : string) : bool :=
  match snd (globtrie.Insert globtrie.New p) with
  | None => true
  | Some _ => false
  end.

(** What the loop of [Contains] keeps true from turn to turn: the
    current node is reached from the root by a path that matches the
    labels consumed so far; the previous node, when there is one, by a
    path that matches all of them but the last. *)
Definition walk_invariant (rootNode : globtrie.node) (consumed : list string)
           (currNode : globtrie.node) (prevNode : option globtrie.node) : Prop :=
  (exists pat, pattern_matches pat consumed /\ shape.find pat rootNode = Some currNode)
  /\ match prevNode with
     | None => True
     | Some prev =>
         exists pat before l,
           consumed = (before ++ [l])%list
           /\ pattern_matches pat before
           /\ shape.find pat rootNode = Some prev
     end.

End matching.

(** More handlers and queries to try the statements on. *)
Module sample2.

Import Dns dnsqueryhandler.

(** [m] is a reply to [r]: it carries the identifier and the opcode of
    [r], the response bit, and the first question of [r] if there is
    one. *)
Definition is_reply_to (r m : Msg) : Prop :=
  Id m = Id r /\ Response m = true /\ Opcode m = Opcode r
  /\ Questions m = firstn 1 (Questions r).

(** [r] with other questions. *)
Definition with_questions (r : Msg) (qs : list Question) : Msg :=
  {| Id := Id r; Response := Response r; Opcode := Opcode r;
     RecursionDesired := RecursionDesired r;
     CheckingDisabled := CheckingDisabled r; Rcode := Rcode r;
     Questions := qs; Answer := Answer r |}.

Definition example_com_address : RR :=
  A {| HdrName := "example.com."; Rrtype := TypeA; Class := ClassINET;
       Ttl := 300 |}
    [0; 0; 0; 0; 0; 0; 0; 0; 0; 0; 255; 255; 93; 184; 216; 34].

(** An upstream that answers every query with one record, under the
    identifier of the query. *)
Definition answering_exchanger : Msg -> string -> Msg + error :=
  fun m _ =>
    inl {| Id := Id m; Response := true; Opcode := Opcode m;
           RecursionDesired := RecursionDesired m;
           CheckingDisabled := false; Rcode := RcodeSuccess;
           Questions := Questions m; Answer := [example_com_address] |}.

Definition answering_handler : DNSQueryHandler :=
  {| exchanger := answering_exchanger;
     nameservers := roundrobin.New ["192.0.2.1:53"; "192.0.2.2:53"];
     blocklist := sample.block_list |}.

(** The events of a request that returned. *)
Definition events_of (o : outcome (list event * roundrobin.RoundRobin))
  : list event :=
  match o with
  | Returned (evs, _) => evs
  | Panicked _ => []
  end.

End sample2.

(** * Properties *)

(** ** The query dispatcher *)

Section Dispatcher.

Import Dns dnsqueryhandler dispatch.

Lemma writeErr_ignores_code r code :
  writeErr r code = WriteMsg (error_reply r).
Proof. reflexivity. Qed.

Lemma error_reply_rcode r : Rcode (error_reply r) = RcodeNameError.
Proof. reflexivity. Qed.

Lemma written_app evs1 evs2 :
  written (evs1 ++ evs2) = (written evs1 ++ written evs2)%list.
Proof. unfold written. apply flat_map_app. Qed.

Lemma exchanges_app evs1 evs2 :
  exchanges (evs1 ++ evs2) = (exchanges evs1 ++ exchanges evs2)%list.
Proof. unfold exchanges. apply flat_map_app. Qed.

Lemma addr_events_silent (b : bool) :
  let evs := if b then [] else [Log "error" "failed to convert remote addr to IP"] in
  written evs = [] /\ exchanges evs = [].
Proof. destruct b; split; reflexivity. Qed.

(** C1, on the code as it is: a query that is turned down gets exactly
    one reply, and its response code is NameError (3), not Refused (5),
    because [writeErr] does not use its [code] argument. *)
Theorem turned_down_reply_is_name_error s env r hex :
  rand env = inl hex ->
  turned_down r = true ->
  exists evs,
    HandleAandAAAA s env r = Returned (evs, nameservers s)
    /\ written evs = [error_reply r]
    /\ exchanges evs = []
    /\ Rcode (error_reply r) = RcodeNameError
    /\ Rcode (error_reply r) <> RcodeRefused.
Proof.
  intros Hrand Hdown. unfold HandleAandAAAA, turned_down in *.
  rewrite Hrand. cbn [generateRequestID].
  destruct (Questions r) as [|q qs] eqn:Hq.
  - eexists. split; [reflexivity|]. repeat split; try reflexivity.
    discriminate.
  - destruct (addr_events_silent (remote_is_ip env)) as [Hw He].
    destruct (negb (Qclass q =? ClassINET)) eqn:Hc.
    + eexists. split; [reflexivity|].
      rewrite written_app, exchanges_app, Hw, He.
      repeat split; try reflexivity. discriminate.
    + cbn in Hdown. rewrite Hdown.
      eexists. split; [reflexivity|].
      rewrite written_app, exchanges_app, Hw, He.
      repeat split; try reflexivity. discriminate.
Qed.

Lemma turned_down_reply_is_name_error_witness :
  exists evs,
    HandleAandAAAA sample.handler sample.env sample.no_question
    = Returned (evs, nameservers sample.handler)
    /\ written evs = [error_reply sample.no_question]
    /\ exchanges evs = []
    /\ Rcode (error_reply sample.no_question) = RcodeNameError
    /\ Rcode (error_reply sample.no_question) <> RcodeRefused.
Proof.
  apply (turned_down_reply_is_name_error sample.handler sample.env
           sample.no_question "00112233445566778899aabbccddeeff");
    reflexivity.
Defined.

(** A query that is forwarded has a first question of class INET and
    of type A or AAAA, for a name the blocklist does not contain. *)
Lemma forwarded_question s r :
  forwarded s r = true ->
  exists q qs,
    Questions r = q :: qs
    /\ (Qclass q =? ClassINET) = true
    /\ isValidQtype (Qtype q) = true
    /\ blocklist.Contains (blocklist s) (Fqdn (Name q)) = false.
Proof.
  unfold forwarded. destruct (Questions r) as [|q qs]; [discriminate|].
  intros H. apply andb_prop in H as [H Hb]. apply andb_prop in H as [Hc Ht].
  exists q, qs. repeat split; try assumption.
  now apply negb_true_iff in Hb.
Qed.

(** C4, on the code as it is: when the upstream exchange fails, or
    answers with another identifier, the client gets exactly one reply
    and its response code is NameError (3), not ServerFailure (2),
    because [writeErr] does not use its [code] argument. *)
Theorem upstream_failure_reply_is_name_error s env r hex nameserver ns' :
  rand env = inl hex ->
  forwarded s r = true ->
  roundrobin.Next (nameservers s) = Returned (nameserver, ns') ->
  match exchanger s (upstream_query env r) nameserver with
  | inr _ => True
  | inl ures => Id ures <> fresh_id env
  end ->
  exists evs,
    HandleAandAAAA s env r = Returned (evs, ns')
    /\ written evs = [error_reply r]
    /\ exchanges evs = [(upstream_query env r, nameserver)]
    /\ Rcode (error_reply r) = RcodeNameError
    /\ Rcode (error_reply r) <> RcodeServerFailure.
Proof.
  intros Hrand Hfwd Hnext Hex.
  destruct (forwarded_question s r Hfwd) as (q & qs & Hq & Hc & Ht & Hb).
  unfold HandleAandAAAA, upstream_query in *.
  rewrite Hrand. cbn [generateRequestID]. rewrite Hq in *.
  rewrite Hc, Ht, Hb, Hnext. cbn [negb].
  destruct (addr_events_silent (remote_is_ip env)) as [Hw He].
  match goal with
  | |- context [exchanger s ?u nameserver] =>
      destruct (exchanger s u nameserver) as [ures|err]
  end.
  - cbn [Id]. destruct (fresh_id env =? Id ures) eqn:Hid.
    + apply Z.eqb_eq in Hid. congruence.
    + cbn [negb]. eexists. split; [reflexivity|].
      rewrite written_app, exchanges_app, Hw, He.
      repeat split; try reflexivity. discriminate.
  - eexists. split; [reflexivity|].
    rewrite written_app, exchanges_app, Hw, He.
    repeat split; try reflexivity. discriminate.
Qed.

Lemma upstream_failure_reply_is_name_error_witness :
  exists evs,
    HandleAandAAAA sample.handler sample.env
      (sample.query "example.com" TypeA ClassINET)
    = Returned (evs, {| roundrobin.list := ["192.0.2.1:53"; "192.0.2.2:53"];
                        roundrobin.idx := 1 |})
    /\ written evs = [error_reply (sample.query "example.com" TypeA ClassINET)]
    /\ exchanges evs =
         [(upstream_query sample.env (sample.query "example.com" TypeA ClassINET),
           "192.0.2.1:53")]
    /\ Rcode (error_reply (sample.query "example.com" TypeA ClassINET))
       = RcodeNameError
    /\ Rcode (error_reply (sample.query "example.com" TypeA ClassINET))
       <> RcodeServerFailure.
Proof.
  apply (upstream_failure_reply_is_name_error sample.handler sample.env
           (sample.query "example.com" TypeA ClassINET)
           "00112233445566778899aabbccddeeff" "192.0.2.1:53").
  - reflexivity.
  - vm_compute. reflexivity.
  - reflexivity.
  - exact I.
Defined.

(** The third case of C4 holds: an upstream answer with the right
    identifier and no record gives the NameError reply. *)
Lemma empty_answer_reply_is_name_error s env r hex nameserver ns' ures :
  rand env = inl hex ->
  forwarded s r = true ->
  roundrobin.Next (nameservers s) = Returned (nameserver, ns') ->
  exchanger s (upstream_query env r) nameserver = inl ures ->
  Id ures = fresh_id env ->
  Answer ures = [] ->
  exists evs,
    HandleAandAAAA s env r = Returned (evs, ns')
    /\ written evs = [SetRcode (Msg_with_answer []) r RcodeNameError].
Proof.
  intros Hrand Hfwd Hnext Hex Hid Hans.
  destruct (forwarded_question s r Hfwd) as (q & qs & Hq & Hc & Ht & Hb).
  unfold HandleAandAAAA, upstream_query in *.
  rewrite Hrand. cbn [generateRequestID]. rewrite Hq in *.
  rewrite Hc, Ht, Hb, Hnext, Hex. cbn [negb Id].
  rewrite Hid, Z.eqb_refl, Hans. cbn [negb List.length Z.of_nat Z.ltb Z.compare].
  destruct (addr_events_silent (remote_is_ip env)) as [Hw He].
  eexists. split; [reflexivity|].
  rewrite written_app, Hw. reflexivity.
Qed.

(** C2, on the code as it is: for a blocked name asked with type AAAA
    no exchange happens, but the record sent is an A record holding the
    IPv4 zero address, its header type being A and its header class 28:
    [HandleAandAAAA] passes [q.Qtype, q.Qclass] where
    [generateBlockedAnswer] expects [qclass, qtype]. *)
Theorem blocked_AAAA_gets_A_record s env r hex q qs :
  rand env = inl hex ->
  Questions r = q :: qs ->
  Qclass q = ClassINET ->
  Qtype q = TypeAAAA ->
  blocklist.Contains (blocklist s) (Fqdn (Name q)) = true ->
  exists evs,
    HandleAandAAAA s env r = Returned (evs, nameservers s)
    /\ exchanges evs = []
    /\ written evs =
         [SetReply
            (Msg_with_answer
               [A {| HdrName := Fqdn (Name q); Rrtype := TypeA;
                     Class := TypeAAAA; Ttl := 0 |} IPv4zero]) r].
Proof.
  intros Hrand Hq Hc Ht Hb. unfold HandleAandAAAA.
  rewrite Hrand. cbn [generateRequestID]. rewrite Hq, Hc, Ht, Hb.
  cbn [negb Z.eqb ClassINET TypeAAAA isValidQtype TypeA].
  destruct (addr_events_silent (remote_is_ip env)) as [Hw He].
  eexists. split; [reflexivity|].
  rewrite written_app, exchanges_app, Hw, He. split; reflexivity.
Qed.

Lemma blocked_AAAA_gets_A_record_witness :
  exists evs,
    HandleAandAAAA sample.handler sample.env
      (sample.query "sub1.example.com" TypeAAAA ClassINET)
    = Returned (evs, nameservers sample.handler)
    /\ exchanges evs = []
    /\ written evs =
         [SetReply
            (Msg_with_answer
               [A {| HdrName := "sub1.example.com."; Rrtype := TypeA;
                     Class := TypeAAAA; Ttl := 0 |} IPv4zero])
            (sample.query "sub1.example.com" TypeAAAA ClassINET)].
Proof.
  apply (blocked_AAAA_gets_A_record sample.handler sample.env
           (sample.query "sub1.example.com" TypeAAAA ClassINET)
           "00112233445566778899aabbccddeeff"
           {| Name := "sub1.example.com"; Qtype := TypeAAAA; Qclass := ClassINET |}
           []).
  - reflexivity.
  - reflexivity.
  - reflexivity.
  - reflexivity.
  - vm_compute. reflexivity.
Defined.

(** Called with its arguments in the declared order,
    [generateBlockedAnswer] gives the record of the family asked for. *)
Lemma generateBlockedAnswer_declared_order fqdn :
  generateBlockedAnswer fqdn ClassINET TypeA
  = A {| HdrName := fqdn; Rrtype := TypeA; Class := ClassINET; Ttl := 0 |}
      IPv4zero
  /\ generateBlockedAnswer fqdn ClassINET TypeAAAA
     = AAAA {| HdrName := fqdn; Rrtype := TypeAAAA; Class := ClassINET;
               Ttl := 0 |} IPv6zero.
Proof. split; reflexivity. Qed.

(** The A case comes out right, the class and the type of an A question
    of class INET being the same number. *)
Lemma blocked_A_gets_A_record s env r hex q qs :
  rand env = inl hex ->
  Questions r = q :: qs ->
  Qclass q = ClassINET ->
  Qtype q = TypeA ->
  blocklist.Contains (blocklist s) (Fqdn (Name q)) = true ->
  exists evs,
    HandleAandAAAA s env r = Returned (evs, nameservers s)
    /\ exchanges evs = []
    /\ written evs =
         [SetReply
            (Msg_with_answer
               [A {| HdrName := Fqdn (Name q); Rrtype := TypeA;
                     Class := ClassINET; Ttl := 0 |} IPv4zero]) r].
Proof.
  intros Hrand Hq Hc Ht Hb. unfold HandleAandAAAA.
  rewrite Hrand. cbn [generateRequestID]. rewrite Hq, Hc, Ht, Hb.
  cbn [negb Z.eqb ClassINET isValidQtype TypeA].
  destruct (addr_events_silent (remote_is_ip env)) as [Hw He].
  eexists. split; [reflexivity|].
  rewrite written_app, exchanges_app, Hw, He. split; reflexivity.
Qed.

(** The end-to-end example of the specification: with
    [sub1.example.com.] and [*.example.com.] blocked, a query of type A
    for [sub1.example.com] is answered with the IPv4 zero address and
    nothing is sent upstream; a query for [example.com] goes
    upstream. *)
Example end_to_end :
  (exists evs,
      HandleAandAAAA sample.handler sample.env
        (sample.query "sub1.example.com" TypeA ClassINET)
      = Returned (evs, nameservers sample.handler)
      /\ exchanges evs = []
      /\ map Answer (written evs)
         = [[A {| HdrName := "sub1.example.com."; Rrtype := TypeA;
                  Class := ClassINET; Ttl := 0 |} IPv4zero]])
  /\ (exists evs ns,
         HandleAandAAAA sample.handler sample.env
           (sample.query "example.com" TypeA ClassINET)
         = Returned (evs, ns)
         /\ map snd (exchanges evs) = ["192.0.2.1:53"]).
Proof.
  split.
  - eexists. split; [vm_compute; reflexivity|]. split; reflexivity.
  - eexists _, _. split; [vm_compute; reflexivity|]. reflexivity.
Qed.

End Dispatcher.

(** ** The blocklist *)

Section Blocklist.

Import blocklist loader.

Lemma lower_byte_idempotent c :
  Strings.lower_byte (Strings.lower_byte c) = Strings.lower_byte c.
Proof. destruct c as [[] [] [] [] [] [] [] []]; reflexivity. Qed.

Lemma ToLower_idempotent s :
  Strings.ToLower (Strings.ToLower s) = Strings.ToLower s.
Proof.
  induction s as [|c s IH]; [reflexivity|].
  cbn [Strings.ToLower]. now rewrite lower_byte_idempotent, IH.
Qed.

(** The trie path folds the case of the name it is asked about. *)
Lemma globtrie_Contains_ToLower lm s :
  globtrie.Contains lm (Strings.ToLower s) = globtrie.Contains lm s.
Proof. unfold globtrie.Contains. now rewrite ToLower_idempotent. Qed.

(** C3, on the code as it is: after loading the single line
    [example.com], the blocklist contains the lowercase name but not the
    same name in capitals; the exact-name path looks the string up as
    given, only the trie path lowers it. *)
Theorem exact_path_is_case_sensitive :
  let b := fst (fst (Load {| lines := ["example.com"]; Err := None |})) in
  Contains b "EXAMPLE.COM." = false
  /\ Contains b (Strings.ToLower "EXAMPLE.COM.") = true
  /\ exact b = {[ "example.com." ]}
  /\ stringset.Contains (exact b) "EXAMPLE.COM." = false
  /\ globtrie.Contains (glob b) "EXAMPLE.COM."
     = globtrie.Contains (glob b) (Strings.ToLower "EXAMPLE.COM.").
Proof.
  cbv zeta. repeat split; vm_compute; reflexivity.
Qed.

(** Whether [Insert] fails depends on the pattern only. *)
Lemma Insert_error_any_trie lm lm' s :
  snd (globtrie.Insert lm s) = snd (globtrie.Insert lm' s).
Proof.
  unfold globtrie.Insert.
  repeat match goal with
         | |- context [if ?b then _ else _] => destruct b
         end; reflexivity.
Qed.

Lemma Insert_rejected lm s :
  trie_accepts s = false -> fst (globtrie.Insert lm s) = lm.
Proof.
  unfold trie_accepts, globtrie.Insert.
  destruct (negb (snd (Dns.IsDomainName (Strings.ToLower s)))); [reflexivity|].
  destruct (Strings.ContainsByte (Strings.ToLower s) "!"); [reflexivity|].
  destruct (Z.of_nat (List.length (Dns.SplitDomainName (Strings.ToLower s))) <? 2);
    [reflexivity|].
  cbn. discriminate.
Qed.

Lemma Insert_accepted lm s :
  trie_accepts s = true -> snd (globtrie.Insert lm s) = None.
Proof.
  unfold trie_accepts. rewrite (Insert_error_any_trie globtrie.New lm).
  destruct (snd (globtrie.Insert lm s)); congruence.
Qed.

(** One line: the entry it contributes is added, the counter follows. *)
Lemma Load_line_classify st l :
  let st' := Load_line st l in
  match classify l with
  | None => bl st' = bl st /\ cnt st' = cnt st
  | Some (ExactName n) =>
      exact (bl st') = {[ n ]} ∪ exact (bl st)
      /\ glob (bl st') = glob (bl st)
      /\ cnt st' = cnt st + 1
  | Some (GlobPattern p) =>
      exact (bl st') = exact (bl st)
      /\ glob (bl st') = fst (globtrie.Insert (glob (bl st)) p)
      /\ cnt st' = cnt st + 1
  end.
Proof.
  cbv zeta. unfold Load_line, classify.
  destruct (snd (Dns.IsDomainName l)); cbn [negb]; [|now split].
  destruct (Strings.ContainsByte (Dns.CanonicalName l) "*").
  - destruct (trie_accepts (Dns.CanonicalName l)) eqn:Hacc.
    + pose proof (Insert_accepted (glob (bl st)) _ Hacc) as Herr.
      destruct (globtrie.Insert (glob (bl st)) (Dns.CanonicalName l))
        as [g err]. cbn in Herr. subst err. now cbn.
    + pose proof (Insert_rejected (glob (bl st)) _ Hacc) as Hsame.
      assert (Herr : snd (globtrie.Insert (glob (bl st)) (Dns.CanonicalName l))
                     <> None).
      { unfold trie_accepts in Hacc.
        rewrite (Insert_error_any_trie globtrie.New (glob (bl st))) in Hacc.
        destruct (snd (globtrie.Insert (glob (bl st)) (Dns.CanonicalName l)));
          congruence. }
      destruct (globtrie.Insert (glob (bl st)) (Dns.CanonicalName l))
        as [g [err|]]; cbn in *; [|congruence].
      subst g. destruct st as [[e g] c lg]. now cbn.
  - now cbn.
Qed.

Lemma Load_loop_from ls : forall st,
  let st' := fold_left Load_line ls st in
  let es := omap classify ls in
  exact (bl st') = list_to_set (exact_names es) ∪ exact (bl st)
  /\ glob (bl st') = shape.populate (glob (bl st)) (glob_patterns es)
  /\ cnt st' = cnt st + Z.of_nat (List.length es).
Proof.
  induction ls as [|l ls IH]; intros st; cbv zeta.
  - cbn. repeat split; try reflexivity; try lia; set_solver.
  - cbn [fold_left].
    change (omap classify (l :: ls))
      with (match classify l with
            | Some e => e :: omap classify ls
            | None => omap classify ls
            end).
    specialize (IH (Load_line st l)). cbv zeta in IH.
    destruct IH as (He & Hg & Hc).
    pose proof (Load_line_classify st l) as Hl. cbv zeta in Hl.
    destruct (classify l) as [[n|p]|];
      cbn [exact_names glob_patterns flat_map List.length app].
    + destruct Hl as (He1 & Hg1 & Hc1). rewrite He, Hg, Hc, He1, Hg1, Hc1.
      cbn [list_to_set]. repeat split; try reflexivity; try lia; set_solver.
    + destruct Hl as (He1 & Hg1 & Hc1). rewrite He, Hg, Hc, He1, Hg1, Hc1.
      repeat split; try reflexivity; lia.
    + destruct Hl as (Hb1 & Hc1). rewrite He, Hg, Hc, Hb1, Hc1.
      repeat split.
Qed.

End Blocklist.

(** ** The round-robin selector *)

Section RoundRobin.

Import roundrobin.

(** C7 as stated fails: [New] returns a selector for the empty list
    too, and the failure comes with the first [Next]. *)
Lemma New_accepts_empty_list :
  New [] = {| list := []; idx := 0 |}
  /\ Next (New []) = Panicked "index out of range".
Proof. split; reflexivity. Qed.

(** [Next] on a selector whose cursor is in range. *)
Lemma Next_in_range (ss : Datatypes.list string) (i : nat) (s : string) :
  ss !! i = Some s ->
  Next {| list := ss; idx := Z.of_nat i |}
  = Returned (s, {| list := ss;
                    idx := Z.of_nat ((i + 1) mod List.length ss) |}).
Proof.
  intros Hs. pose proof (lookup_lt_Some _ _ _ Hs) as Hlt.
  unfold Next. cbn [list idx].
  replace (Z.of_nat i <? 0) with false by (symmetry; apply Z.ltb_ge; lia).
  replace (Z.of_nat (List.length ss) <=? Z.of_nat i) with false
    by (symmetry; apply Z.leb_gt; lia).
  cbn [orb]. rewrite Nat2Z.id, Hs.
  replace (Z.of_nat (List.length ss) =? 0) with false
    by (symmetry; apply Z.eqb_neq; lia).
  do 3 f_equal.
  rewrite Z.rem_mod_nonneg by lia.
  rewrite Nat2Z.inj_mod. f_equal. lia.
Qed.

Lemma Next_New_cons (s : string) (ss : Datatypes.list string) :
  Next (New (s :: ss))
  = Returned (s, {| list := s :: ss;
                    idx := Z.of_nat (1 mod List.length (s :: ss)) |}).
Proof. exact (Next_in_range (s :: ss) 0 s eq_refl). Qed.

(** C7, amended: [New] never fails, it returns the selector that holds
    the list with the cursor at 0; the first [Next] on it panics
    exactly when the list is empty; the empty list is turned down by
    [main] before [New] is called, so a selector built by [main]
    always answers [Next]. *)
Theorem New_total_and_main_rejects_empty (ss : Datatypes.list string) (tls : string) :
  New ss = {| list := ss; idx := 0 |}
  /\ ((exists m, Next (New ss) = Panicked m) <-> ss = [])
  /\ ((exists m, main.nameservers ss tls = main.Fatal m) <-> ss = [])
  /\ (forall r, main.nameservers ss tls = main.Started r ->
                exists s r', Next r = Returned (s, r')).
Proof.
  split; [reflexivity|]. split; [|split].
  - split.
    + intros [m Hm]. destruct ss as [|s ss]; [reflexivity|].
      rewrite Next_New_cons in Hm. discriminate.
    + intros ->. eexists. reflexivity.
  - unfold main.nameservers. destruct ss as [|s ss].
    + split; [reflexivity|]. intros _. eexists. reflexivity.
    + replace (Z.of_nat (List.length (s :: ss)) <? 1) with false
        by (symmetry; apply Z.ltb_ge; cbn [List.length]; lia).
      split; [intros [m Hm]; discriminate | discriminate].
  - intros r. unfold main.nameservers. destruct ss as [|s ss].
    + cbn. discriminate.
    + replace (Z.of_nat (List.length (s :: ss)) <? 1) with false
        by (symmetry; apply Z.ltb_ge; cbn [List.length]; lia).
      intros [= <-]. cbn [map].
      eexists _, _. apply Next_New_cons.
Qed.

(** [n] calls from the cursor [i]: the elements at [i], [i+1], ...
    modulo the length, and the cursor [i + n] modulo the length. *)
Lemma Next_n_from (ss : Datatypes.list string) (n : nat) : forall i : nat,
  ss <> [] ->
  (i < List.length ss)%nat ->
  Next_n n {| list := ss; idx := Z.of_nat i |}
  = Returned (map (fun k => nth ((i + k) mod List.length ss) ss "") (seq 0 n),
              {| list := ss; idx := Z.of_nat ((i + n) mod List.length ss) |}).
Proof.
  induction n as [|n IH]; intros i Hne Hi.
  - cbn. rewrite Nat.add_0_r, Nat.mod_small by assumption. reflexivity.
  - cbn [Next_n].
    destruct (lookup_lt_is_Some_2 ss i Hi) as [s Hs].
    rewrite (Next_in_range ss i s Hs).
    assert (Hlen : List.length ss <> 0%nat) by (destruct ss; cbn; congruence).
    rewrite IH; [|assumption|now apply Nat.mod_upper_bound].
    cbn [seq map]. rewrite <- seq_shift, map_map. f_equal. f_equal.
    + f_equal.
      * rewrite Nat.add_0_r, Nat.mod_small by assumption.
        symmetry. now apply nth_lookup_Some with (d := "").
      * apply map_ext. intros k. f_equal.
        rewrite Nat.Div0.add_mod_idemp_l. f_equal. lia.
    + f_equal. f_equal. rewrite Nat.Div0.add_mod_idemp_l. f_equal. lia.
Qed.

(** C8: on the selector built from a non-empty list, the call number
    [n] (from 0) returns the element at index [n] modulo the length,
    after the [n] calls before it have returned the elements at
    [0 .. n-1] modulo the length. *)
Theorem Next_is_cyclic (ss : Datatypes.list string) (n : nat) :
  ss <> [] ->
  exists r r',
    Next_n n (New ss)
    = Returned (map (fun k => nth (k mod List.length ss) ss "") (seq 0 n), r)
    /\ Next r = Returned (nth (n mod List.length ss) ss "", r')
    /\ ss !! (n mod List.length ss)%nat = Some (nth (n mod List.length ss) ss "").
Proof.
  intros Hne.
  assert (Hlen : (0 < List.length ss)%nat) by (destruct ss; cbn; [congruence|lia]).
  pose proof (Next_n_from ss n 0 Hne Hlen) as Hn. cbn [Nat.add] in Hn.
  change {| list := ss; idx := Z.of_nat 0 |} with (New ss) in Hn.
  assert (Hlt : (n mod List.length ss < List.length ss)%nat)
    by (apply Nat.mod_upper_bound; lia).
  destruct (lookup_lt_is_Some_2 ss _ Hlt) as [s Hs].
  eexists _, _. split; [exact Hn|]. split.
  - rewrite (Next_in_range ss _ s Hs).
    now rewrite (nth_lookup_Some _ _ "" _ Hs).
  - now rewrite (nth_lookup_Some _ _ "" _ Hs).
Qed.

Lemma Next_is_cyclic_witness :
  exists r r',
    Next_n 4 (New ["A"; "B"; "C"])
    = Returned (map (fun k => nth (k mod 3) ["A"; "B"; "C"] "") (seq 0 4), r)
    /\ Next r = Returned (nth (4 mod 3) ["A"; "B"; "C"] "", r')
    /\ ["A"; "B"; "C"] !! (4 mod 3)%nat = Some (nth (4 mod 3) ["A"; "B"; "C"] "").
Proof.
  apply (Next_is_cyclic ["A"; "B"; "C"] 4). discriminate.
Defined.

(** The example of the specification: two full cycles. *)
Example Next_ABC :
  exists r, Next_n 6 (New ["A"; "B"; "C"])
            = Returned (["A"; "B"; "C"; "A"; "B"; "C"], r).
Proof. eexists. reflexivity. Qed.

End RoundRobin.

(** ** Names without escapes, seen as lists of labels *)

Section Names.

Import Strings Dns names.

Lemma append_cons (c : ascii) (s t : string) :
  String c s ++ t = String c (s ++ t).
Proof. reflexivity. Qed.

Lemma append_nil_l (s : string) : "" ++ s = s.
Proof. reflexivity. Qed.

Lemma append_nil_r (s : string) : s ++ "" = s.
Proof.
  induction s as [|c s IH]; [reflexivity|]. now rewrite append_cons, IH.
Qed.

Lemma append_assoc (a b c : string) : (a ++ b) ++ c = a ++ (b ++ c).
Proof.
  induction a as [|x a IH]; [reflexivity|]. now rewrite !append_cons, IH.
Qed.

Lemma length_append (a b : string) :
  String.length (a ++ b) = (String.length a + String.length b)%nat.
Proof.
  induction a as [|x a IH]; [reflexivity|].
  rewrite append_cons. cbn. now rewrite IH.
Qed.

Lemma append_byte_inj (a b : string) (c : ascii) :
  a ++ String c "" = b ++ String c "" -> a = b.
Proof.
  revert b. induction a as [|x a IH]; intros [|y b];
    rewrite ?append_cons, ?append_nil_l; intros H.
  - reflexivity.
  - injection H as _ H. destruct b; discriminate.
  - injection H as _ H. destruct a; discriminate.
  - injection H as -> H. f_equal. now apply IH.
Qed.

Lemma all_bytes_append p a b :
  all_bytes p (a ++ b) = all_bytes p a && all_bytes p b.
Proof.
  induction a as [|x a IH]; [reflexivity|].
  rewrite append_cons. cbn. now rewrite IH, andb_assoc.
Qed.

Lemma all_bytes_weaken (p q : ascii -> bool) s :
  (forall c, p c = true -> q c = true) ->
  all_bytes p s = true -> all_bytes q s = true.
Proof.
  intros Hpq. induction s as [|c s IH]; cbn; [reflexivity|].
  intros H. apply andb_prop in H as [Hc Hs]. now rewrite (Hpq c Hc), IH.
Qed.

(** *** Lowering the case *)

Lemma lower_byte_eqb_dot c : Ascii.eqb (lower_byte c) dot = Ascii.eqb c dot.
Proof. destruct c as [[] [] [] [] [] [] [] []]; reflexivity. Qed.

Lemma lower_byte_eqb_backslash c :
  Ascii.eqb (lower_byte c) backslash = Ascii.eqb c backslash.
Proof. destruct c as [[] [] [] [] [] [] [] []]; reflexivity. Qed.

Lemma lower_byte_eqb_bang c : Ascii.eqb (lower_byte c) "!" = Ascii.eqb c "!".
Proof. destruct c as [[] [] [] [] [] [] [] []]; reflexivity. Qed.

Lemma lower_byte_eqb_star c : Ascii.eqb (lower_byte c) "*" = Ascii.eqb c "*".
Proof. destruct c as [[] [] [] [] [] [] [] []]; reflexivity. Qed.

Lemma lower_byte_is_ascii c : is_ascii (lower_byte c) = is_ascii c.
Proof. destruct c as [[] [] [] [] [] [] [] []]; reflexivity. Qed.

Lemma ToLower_append a b : ToLower (a ++ b) = ToLower a ++ ToLower b.
Proof.
  induction a as [|x a IH]; [reflexivity|].
  rewrite append_cons. cbn [ToLower]. now rewrite append_cons, IH.
Qed.

Lemma ToLower_length s : String.length (ToLower s) = String.length s.
Proof. induction s as [|c s IH]; cbn; [reflexivity | now rewrite IH]. Qed.

Lemma ToLower_empty s : ToLower s = "" <-> s = "".
Proof. destruct s; cbn; split; congruence. Qed.

Lemma plain_ToLower s : plain (ToLower s) = plain s.
Proof.
  unfold plain. induction s as [|c s IH]; cbn; [reflexivity|].
  rewrite IH. unfold plain_byte.
  now rewrite lower_byte_is_ascii, lower_byte_eqb_backslash.
Qed.

Lemma ContainsByte_bang_ToLower s :
  ContainsByte (ToLower s) "!" = ContainsByte s "!".
Proof.
  induction s as [|c s IH]; cbn; [reflexivity|].
  now rewrite lower_byte_eqb_bang, IH.
Qed.

Lemma reserved_byte c :
  ContainsByte "!*" c = Ascii.eqb c "!" || Ascii.eqb c "*".
Proof. destruct c as [[] [] [] [] [] [] [] []]; reflexivity. Qed.

Lemma ContainsAny_reserved s :
  ContainsAny s "!*" = ContainsByte s "!" || ContainsByte s "*".
Proof.
  induction s as [|c s IH]; [reflexivity|].
  cbn [ContainsAny]. rewrite reserved_byte, IH. cbn [ContainsByte].
  destruct (Ascii.eqb c "!"), (Ascii.eqb c "*"); cbn;
    try reflexivity; now rewrite ?orb_true_r.
Qed.

Lemma ContainsByte_star_ToLower s :
  ContainsByte (ToLower s) "*" = ContainsByte s "*".
Proof.
  induction s as [|c s IH]; cbn; [reflexivity|].
  now rewrite lower_byte_eqb_star, IH.
Qed.

Lemma ContainsByte_append s t c :
  ContainsByte (s ++ t) c = ContainsByte s c || ContainsByte t c.
Proof.
  induction s as [|x s IH]; [reflexivity|].
  rewrite append_cons. cbn.
  destruct (Ascii.eqb x c); [reflexivity | exact IH].
Qed.

Lemma ContainsByte_none (p : ascii -> bool) s c :
  p c = false -> all_bytes p s = true -> ContainsByte s c = false.
Proof.
  intros Hc. induction s as [|x s IH]; cbn; [reflexivity|].
  intros H. apply andb_prop in H as [Hx Hs].
  destruct (Ascii.eqb_spec x c) as [->|]; [congruence | now apply IH].
Qed.

(** *** Splitting at the dots *)

Lemma ends_with_dot_cons c d s :
  ends_with_dot (String c (String d s)) = ends_with_dot (String d s).
Proof. reflexivity. Qed.

Lemma dot_split_cons c s :
  dot_split (String c s)
  = if Ascii.eqb c dot then "" :: dot_split s
    else prepend (String c "") (dot_split s).
Proof.
  cbn [dot_split]. destruct (Ascii.eqb c dot); [reflexivity|].
  destruct (dot_split s); reflexivity.
Qed.

Lemma dot_split_nonempty s : dot_split s <> [].
Proof.
  destruct s as [|c s]; [discriminate|]. rewrite dot_split_cons.
  destruct (Ascii.eqb c dot); [discriminate|].
  destruct (dot_split s); discriminate.
Qed.

Lemma dotted_app xs ys : dotted (xs ++ ys)%list = dotted xs ++ dotted ys.
Proof.
  induction xs as [|x xs IH]; [reflexivity|].
  cbn [dotted app]. now rewrite IH, append_assoc, append_cons.
Qed.

Lemma dotted_prepend c ls :
  ls <> [] -> dotted (prepend (String c "") ls) = String c (dotted ls).
Proof. destruct ls as [|l ls]; [congruence|]. reflexivity. Qed.

(** Putting the dots back. *)
Lemma dotted_dot_split s : dotted (dot_split s) = s ++ ".".
Proof.
  induction s as [|c s IH]; [reflexivity|].
  rewrite dot_split_cons, append_cons.
  destruct (Ascii.eqb_spec c dot) as [->|Hc].
  - cbn [dotted]. now rewrite IH.
  - rewrite dotted_prepend by apply dot_split_nonempty. now rewrite IH.
Qed.

(** A name that ends with a dot has an empty last piece. *)
Lemma dot_split_ends_with_dot s :
  ends_with_dot s = true ->
  exists xs, xs <> [] /\ dot_split s = (xs ++ [""])%list.
Proof.
  induction s as [|c s IH]; [discriminate|].
  destruct s as [|d s].
  - cbn. intros Hc. rewrite Hc. exists [""]. split; [discriminate|reflexivity].
  - rewrite ends_with_dot_cons. intros H.
    destruct (IH H) as (xs & Hne & Hxs).
    rewrite dot_split_cons, Hxs.
    destruct (Ascii.eqb c dot).
    + exists ("" :: xs). split; [discriminate|reflexivity].
    + destruct xs as [|x xs]; [congruence|].
      exists (String c x :: xs). split; [discriminate|reflexivity].
Qed.

Lemma labels_nonempty s : labels s <> [].
Proof.
  unfold labels. destruct (ends_with_dot s) eqn:He.
  - destruct (dot_split_ends_with_dot s He) as (xs & Hne & ->).
    now rewrite removelast_last.
  - apply dot_split_nonempty.
Qed.

(** The fully qualified form of a name is its labels with their dots. *)
Lemma dotted_labels s :
  dotted (labels s) = if ends_with_dot s then s else s ++ ".".
Proof.
  unfold labels. destruct (ends_with_dot s) eqn:He.
  - destruct (dot_split_ends_with_dot s He) as (xs & Hne & Hxs).
    rewrite Hxs, removelast_last.
    pose proof (dotted_dot_split s) as Hd. rewrite Hxs, dotted_app in Hd.
    apply (append_byte_inj _ _ dot). exact Hd.
  - apply dotted_dot_split.
Qed.

(** The pieces hold no dot, and no backslash when the name has none. *)
Lemma dot_split_inner s :
  all_bytes (fun c => negb (Ascii.eqb c backslash)) s = true ->
  Forall (fun l => all_bytes inner_byte l = true) (dot_split s).
Proof.
  induction s as [|c s IH]; [repeat constructor|].
  cbn [all_bytes]. intros H. apply andb_prop in H as [Hc Hs].
  specialize (IH Hs). rewrite dot_split_cons.
  destruct (Ascii.eqb c dot) eqn:Hd.
  - constructor; [reflexivity | exact IH].
  - destruct (dot_split s) as [|l ls]; cbn [prepend].
    + repeat constructor. cbn. unfold inner_byte. now rewrite Hd, Hc.
    + inversion IH as [|? ? Hl Hls]; subst. constructor; [|exact Hls].
      rewrite append_cons, append_nil_l. cbn [all_bytes].
      unfold inner_byte at 1. now rewrite Hd, Hc, Hl.
Qed.

Lemma plain_no_backslash s :
  plain s = true ->
  all_bytes (fun c => negb (Ascii.eqb c backslash)) s = true.
Proof.
  apply all_bytes_weaken. intros c H. unfold plain_byte in H.
  now apply andb_prop in H as [_ H].
Qed.

Lemma Forall_removelast {A} (P : A -> Prop) (l : list A) :
  Forall P l -> Forall P (removelast l).
Proof.
  induction 1 as [|x l Hx Hl IH]; [constructor|].
  cbn [removelast]. destruct l; [constructor|]. now constructor.
Qed.

Lemma labels_inner s :
  plain s = true ->
  Forall (fun l => all_bytes inner_byte l = true) (labels s).
Proof.
  intros H. apply plain_no_backslash, dot_split_inner in H.
  unfold labels. destruct (ends_with_dot s); [|exact H].
  now apply Forall_removelast.
Qed.

(** Lowering the case leaves the dots where they are. *)
Lemma dot_split_ToLower s : dot_split (ToLower s) = map ToLower (dot_split s).
Proof.
  induction s as [|c s IH]; [reflexivity|].
  cbn [ToLower]. rewrite !dot_split_cons, lower_byte_eqb_dot, IH.
  destruct (Ascii.eqb c dot); [reflexivity|].
  destruct (dot_split s); reflexivity.
Qed.

Lemma ends_with_dot_ToLower s : ends_with_dot (ToLower s) = ends_with_dot s.
Proof.
  induction s as [|c s IH]; [reflexivity|].
  destruct s as [|d s]; [apply lower_byte_eqb_dot|].
  cbn [ToLower] in *. now rewrite !ends_with_dot_cons.
Qed.

Lemma map_removelast {A B} (f : A -> B) (l : list A) :
  map f (removelast l) = removelast (map f l).
Proof.
  induction l as [|x l IH]; [reflexivity|].
  cbn [removelast map]. destruct l; [reflexivity|]. cbn [map] in *.
  now rewrite IH.
Qed.

Lemma labels_ToLower s : labels (ToLower s) = map ToLower (labels s).
Proof.
  unfold labels. rewrite ends_with_dot_ToLower, dot_split_ToLower.
  destruct (ends_with_dot s); [|reflexivity]. now rewrite map_removelast.
Qed.

Lemma length_ok_ToLower l : length_ok (ToLower l) = length_ok l.
Proof. unfold length_ok. now rewrite ToLower_length. Qed.

Lemma wire_length_ToLower ls : wire_length (map ToLower ls) = wire_length ls.
Proof.
  induction ls as [|l ls IH]; [reflexivity|].
  cbn [map wire_length]. now rewrite ToLower_length, IH.
Qed.

Lemma well_formed_ToLower ls : well_formed (map ToLower ls) = well_formed ls.
Proof.
  unfold well_formed. rewrite wire_length_ToLower. f_equal.
  induction ls as [|l ls IH]; [reflexivity|].
  cbn [map forallb]. now rewrite length_ok_ToLower, IH.
Qed.

End Names.

(** ** [IsDomainName] and [SplitDomainName] on names without escapes *)

Section PlainNames.

Import Strings Dns names.

(** The model on the names of the table that the library tests
    [IsDomainName] with: the number of labels and the verdict. *)
Example IsDomainName_library_table :
  map IsDomainName
    ["."; ".."; "double-dot..test"; ".leading-dot.test"; "@.";
     "www.example.com"; "www.e%ample.com"; "www.example.com."]
  = [(1, true); (0, false); (1, false); (0, false); (1, true);
     (3, true); (3, true); (3, true)].
Proof. vm_compute. reflexivity. Qed.

Example SplitDomainName_samples :
  map SplitDomainName
    [""; "."; "com"; "example.com"; "example.com."; "sub2.*.example.com."]
  = [[]; []; ["com"]; ["example"; "com"]; ["example"; "com"];
     ["sub2"; "*"; "example"; "com"]].
Proof. vm_compute. reflexivity. Qed.

Lemma IsFqdn_from_plain s :
  all_bytes (fun c => negb (Ascii.eqb c backslash)) s = true ->
  IsFqdn_from s false = ends_with_dot s.
Proof.
  induction s as [|c s IH]; [reflexivity|].
  cbn [all_bytes]. intros H. apply andb_prop in H as [Hc Hs].
  destruct s as [|d s].
  - cbn. now rewrite andb_true_r.
  - rewrite ends_with_dot_cons, <- (IH Hs).
    apply negb_true_iff in Hc. cbn [IsFqdn_from]. now rewrite Hc.
Qed.

Lemma Fqdn_plain s : plain s = true -> Fqdn s = dotted (labels s).
Proof.
  intros H. unfold Fqdn, IsFqdn.
  rewrite (IsFqdn_from_plain s (plain_no_backslash s H)).
  symmetry. apply dotted_labels.
Qed.

(** One turn of the loop at a byte inside a label, and at a dot. *)
Lemma loop_inner_byte c rest len i off begin wd n :
  inner_byte c = true ->
  IsDomainName_loop (String c rest) len i off begin wd n
  = IsDomainName_loop rest len (i + 1) off begin false n.
Proof.
  unfold inner_byte. intros H. apply andb_prop in H as [Hd Hb].
  apply negb_true_iff in Hd, Hb. cbn [IsDomainName_loop].
  now rewrite Hb, Hd.
Qed.

Lemma loop_dot rest len i off begin wd n :
  IsDomainName_loop (String dot rest) len i off begin wd n
  = if (i =? 0) && (len >? 1) then (n, false)
    else if wd then (n, false)
    else if i - begin >=? 64 then (n, false)
    else if off + (1 + (i - begin)) >? lenmsg then (n, false)
    else IsDomainName_loop rest len (i + 1) (off + (1 + (i - begin)))
           (i + 1) true (n + 1).
Proof. reflexivity. Qed.

(** The loop runs through a label without looking at the counters. *)
Lemma loop_inner p : forall rest len i off begin wd n,
  all_bytes inner_byte p = true ->
  IsDomainName_loop (p ++ rest) len i off begin wd n
  = IsDomainName_loop rest len (i + Z.of_nat (String.length p)) off begin
      (match p with EmptyString => wd | _ => false end) n.
Proof.
  induction p as [|c p IH]; intros rest len i off begin wd n H.
  - cbn [String.length Z.of_nat]. now rewrite append_nil_l, Z.add_0_r.
  - cbn [all_bytes] in H. apply andb_prop in H as [Hc Hp].
    rewrite append_cons, (loop_inner_byte _ _ _ _ _ _ _ _ Hc), (IH _ _ _ _ _ _ _ Hp).
    replace (i + 1 + Z.of_nat (String.length p))
      with (i + Z.of_nat (String.length (String c p)))
      by (cbn [String.length]; lia).
    now destruct p.
Qed.

Lemma wire_length_nonneg ls : 0 <= wire_length ls.
Proof. induction ls as [|l ls IH]; cbn [wire_length]; lia. Qed.

(** The loop over labels that each end with their dot: it succeeds
    exactly when the labels are well formed.  [i = begin] holds at the
    start of a label; before the first one [i = 0], after a dot
    [wasDot] is set. *)
Lemma loop_dotted ls : forall len i off wd n,
  Forall (fun l => all_bytes inner_byte l = true) ls ->
  1 < len -> 0 <= i -> wd = true \/ i = 0 -> 0 <= off <= lenmsg ->
  snd (IsDomainName_loop (dotted ls) len i off i wd n)
  = forallb length_ok ls && (off + wire_length ls <=? lenmsg).
Proof.
  induction ls as [|l ls IH]; intros len i off wd n Hin Hlen Hi Hwd Hoff.
  - cbn. symmetry. apply Z.leb_le. lia.
  - inversion Hin as [|? ? Hl Hls]; subst.
    cbn [dotted forallb wire_length].
    rewrite (loop_inner l _ _ _ _ _ _ _ Hl), loop_dot.
    replace (i + Z.of_nat (String.length l) - i)
      with (Z.of_nat (String.length l)) by lia.
    unfold length_ok.
    destruct l as [|c l].
    + cbn [String.length Z.of_nat]. rewrite Z.add_0_r.
      destruct Hwd as [-> | ->].
      * now destruct ((i =? 0) && (len >? 1)).
      * replace (len >? 1) with true by (symmetry; apply Z.gtb_lt; lia).
        reflexivity.
    + set (k := Z.of_nat (String.length (String c l))).
      assert (Hk : 1 <= k) by (subst k; cbn [String.length]; lia).
      replace (i + k =? 0) with false by (symmetry; apply Z.eqb_neq; lia).
      cbn [andb].
      replace (1 <=? k) with true by (symmetry; apply Z.leb_le; lia).
      cbn [andb].
      pose proof (wire_length_nonneg ls) as Hw.
      destruct (Z.leb_spec k 63) as [Hk63|Hk63].
      * replace (k >=? 64) with false by (symmetry; rewrite Z.geb_leb; apply Z.leb_gt; lia).
        cbn [andb].
        destruct (Z.gtb_spec (off + (1 + k)) lenmsg) as [Hov|Hov].
        -- cbn [snd]. symmetry. apply andb_false_intro2. apply Z.leb_gt. lia.
        -- rewrite IH; try assumption; try lia.
           replace (off + (1 + k) + wire_length ls)
             with (off + (1 + k + wire_length ls)) by lia.
           reflexivity.
      * replace (k >=? 64) with true by (symmetry; rewrite Z.geb_leb; apply Z.leb_le; lia).
        reflexivity.
Qed.

(** [IsDomainName] accepts a name without escapes, other than the root,
    exactly when its labels are well formed. *)
Lemma IsDomainName_plain s :
  plain s = true -> s <> "." ->
  snd (IsDomainName s) = well_formed (labels s).
Proof.
  intros Hp Hroot. destruct s as [|c s]; [reflexivity|].
  unfold IsDomainName. cbv zeta. rewrite (Fqdn_plain _ Hp).
  unfold well_formed.
  rewrite (loop_dotted (labels (String c s))); try lia.
  - now rewrite Z.add_0_l.
  - now apply labels_inner.
  - rewrite dotted_labels.
    destruct (ends_with_dot (String c s)) eqn:He.
    + destruct s as [|d s]; cbn [String.length]; [|lia].
      cbn in He. apply Ascii.eqb_eq in He. subst c. now contradict Hroot.
    + rewrite length_append. cbn [String.length]. lia.
  - unfold lenmsg. lia.
Qed.

(** One turn of [split_from] at a byte inside a label, and at a dot
    that is not escaped. *)
Lemma split_from_inner_byte c rest odd :
  inner_byte c = true ->
  split_from (String c rest) odd
  = prepend (String c "") (split_from rest false).
Proof.
  unfold inner_byte. intros H. apply andb_prop in H as [Hd Hb].
  apply negb_true_iff in Hd, Hb. cbn [split_from].
  rewrite Hd, Hb. cbn [andb].
  destruct (split_from rest false); reflexivity.
Qed.

Lemma split_from_dot rest :
  split_from (String dot rest) false
  = match rest with
    | EmptyString => [""]
    | _ => "" :: split_from rest false
    end.
Proof. reflexivity. Qed.

Lemma prepend_prepend c p ls :
  prepend (String c "") (prepend p ls) = prepend (String c p) ls.
Proof. destruct ls; reflexivity. Qed.

Lemma split_from_inner c p : forall rest odd,
  all_bytes inner_byte (String c p) = true ->
  split_from (String c p ++ rest) odd
  = prepend (String c p) (split_from rest false).
Proof.
  revert c. induction p as [|d p IH]; intros c rest odd H.
  - cbn [all_bytes] in H. apply andb_prop in H as [Hc _].
    rewrite append_cons, append_nil_l. now apply split_from_inner_byte.
  - cbn [all_bytes] in H. apply andb_prop in H as [Hc Hp].
    rewrite append_cons, (split_from_inner_byte _ _ _ Hc).
    rewrite (IH d rest false) by exact Hp.
    apply prepend_prepend.
Qed.

Lemma dotted_not_empty l ls : dotted (l :: ls) <> "".
Proof. cbn [dotted]. destruct l; discriminate. Qed.

(** Cutting the dotted form of the labels gives the labels back. *)
Lemma split_from_dotted ls :
  ls <> [] ->
  Forall (fun l => all_bytes inner_byte l = true) ls ->
  split_from (dotted ls) false = ls.
Proof.
  induction ls as [|l ls IH]; [congruence|]. intros _ Hin.
  inversion Hin as [|? ? Hl Hls]; subst. cbn [dotted].
  assert (Htail : split_from (String dot (dotted ls)) false = "" :: ls).
  { rewrite split_from_dot. destruct ls as [|l' ls]; [reflexivity|].
    rewrite IH by (congruence || assumption).
    pose proof (dotted_not_empty l' ls) as Hne.
    destruct (dotted (l' :: ls)); [congruence | reflexivity]. }
  destruct l as [|c l].
  - rewrite append_nil_l. exact Htail.
  - rewrite (split_from_inner c l _ _ Hl), Htail. cbn [prepend].
    now rewrite append_nil_r.
Qed.

(** A final dot that is missing makes no difference. *)
Lemma split_from_add_dot s :
  all_bytes (fun c => negb (Ascii.eqb c backslash)) s = true ->
  ends_with_dot s = false ->
  split_from (s ++ ".") false = split_from s false.
Proof.
  induction s as [|c s IH]; [reflexivity|].
  cbn [all_bytes]. intros H He. apply andb_prop in H as [Hc Hs].
  apply negb_true_iff in Hc.
  assert (Hrest : split_from (s ++ ".") false = split_from s false).
  { destruct s as [|d s]; [reflexivity|]. apply IH; [exact Hs|].
    now rewrite ends_with_dot_cons in He. }
  rewrite append_cons.
  destruct (Ascii.eqb_spec c dot) as [->|Hd].
  - rewrite !split_from_dot. destruct s as [|d s]; [discriminate He|].
    rewrite append_cons in *. now rewrite Hrest.
  - apply Ascii.eqb_neq in Hd.
    rewrite !split_from_inner_byte, Hrest; try reflexivity;
      unfold inner_byte; now rewrite Hd, Hc.
Qed.

(** [SplitDomainName] gives the labels of a name without escapes. *)
Lemma SplitDomainName_plain s :
  plain s = true -> s <> "" -> s <> "." ->
  SplitDomainName s = labels s.
Proof.
  intros Hp Hne Hroot. unfold SplitDomainName.
  apply String.eqb_neq in Hne, Hroot. rewrite Hne, Hroot.
  pose proof (dotted_labels s) as Hd.
  pose proof (split_from_dotted (labels s) (labels_nonempty s)
                (labels_inner s Hp)) as Hs.
  rewrite Hd in Hs. destruct (ends_with_dot s) eqn:He; [exact Hs|].
  rewrite <- Hs. symmetry.
  apply split_from_add_dot; [now apply plain_no_backslash | exact He].
Qed.

(** The names without labels of their own. *)
Lemma labels_root s : s = "" \/ s = "." -> labels s = [""].
Proof. intros [-> | ->]; reflexivity. Qed.

End PlainNames.

(** ** The label match trie *)

Section GlobTrie.

Import Strings Dns names globtrie shape.

(** *** The walk of [Contains] ends *)

(** Every turn lowers the measure: a match consumes a label, and the
    turn that keeps the label gives up the previous node. *)
Lemma Contains_loop_fuel fuel : forall labels currNode prevNode,
  (walk_measure labels prevNode <= fuel)%nat ->
  exists b, Contains_loop fuel labels currNode prevNode = Some b.
Proof.
  induction fuel as [|fuel IH]; intros labels currNode prevNode Hm.
  - destruct labels; [eexists; reflexivity|].
    unfold walk_measure in Hm. cbn [List.length] in Hm. lia.
  - destruct labels as [|label rest]; [eexists; reflexivity|].
    cbn [Contains_loop]. unfold Contains_turn.
    unfold walk_measure in Hm. cbn [List.length] in Hm.
    destruct (children currNode !! label) as [nextNode|].
    { apply IH. unfold walk_measure. lia. }
    destruct (children currNode !! "*") as [glob|].
    { apply IH. unfold walk_measure. lia. }
    destruct prevNode as [prev|]; [|eexists; reflexivity].
    destruct (children prev !! "*") as [glob|]; [|eexists; reflexivity].
    apply IH. unfold walk_measure. cbn [List.length]. lia.
Qed.

Lemma Contains_walk_total labels n :
  exists b, Contains_walk labels n = Some b.
Proof.
  unfold Contains_walk. apply Contains_loop_fuel.
  unfold walk_measure. rewrite length_rev. lia.
Qed.

(** *** [Insert] *)

Lemma children_Node m : children (Node m) = m.
Proof. reflexivity. Qed.

Lemma insert_path_idempotent path : forall n,
  insert_path path (insert_path path n) = insert_path path n.
Proof.
  induction path as [|label rest IH]; intros n; [reflexivity|].
  cbn [insert_path]. rewrite children_Node, lookup_insert_eq, IH.
  now rewrite insert_insert_eq.
Qed.

Lemma find_insert_path path : forall n,
  exists m, find path (insert_path path n) = Some m.
Proof.
  induction path as [|label rest IH]; intros n; [eexists; reflexivity|].
  cbn [insert_path find]. rewrite children_Node, lookup_insert_eq. apply IH.
Qed.

(** A path that exists is still there after any insertion. *)
Lemma find_insert_path_mono q : forall path n,
  is_Some (find q n) -> is_Some (find q (insert_path path n)).
Proof.
  induction q as [|l q IH]; intros path n Hq; [eexists; reflexivity|].
  destruct path as [|label rest]; [exact Hq|].
  cbn [find] in Hq. cbn [insert_path find]. rewrite children_Node.
  destruct (children n !! l) as [c|] eqn:Hl; [|now destruct Hq].
  destruct (decide (label = l)) as [->|Hne].
  - rewrite lookup_insert_eq, Hl. now apply IH.
  - rewrite lookup_insert_ne by exact Hne. now rewrite Hl.
Qed.

Lemma stored_is_Some path lm :
  stored path lm = true <-> is_Some (find (path ++ ["!"]) (root lm)).
Proof.
  unfold stored. destruct (find _ _); split; intros H;
    try reflexivity; try discriminate; try (eexists; reflexivity).
  now destruct H.
Qed.

(** What [Insert] checks, and what it does when the checks pass. *)
Lemma Insert_cases lm s :
  let name := ToLower s in
  (snd (IsDomainName name) = false \/ ContainsByte name "!" = true
   \/ Z.of_nat (List.length (SplitDomainName name)) < 2)
  /\ fst (Insert lm s) = lm /\ snd (Insert lm s) <> None
  \/
  (snd (IsDomainName name) = true /\ ContainsByte name "!" = false
   /\ 2 <= Z.of_nat (List.length (SplitDomainName name)))
  /\ Insert lm s
     = ({| root := insert_path (rev ("!" :: SplitDomainName name)) (root lm) |},
        None).
Proof.
  cbv zeta. unfold Insert.
  destruct (snd (IsDomainName (ToLower s))); cbn [negb];
    [|left; repeat split; [now left | discriminate]].
  destruct (ContainsByte (ToLower s) "!");
    [left; repeat split; [right; now left | discriminate]|].
  destruct (Z.ltb_spec (Z.of_nat (List.length (SplitDomainName (ToLower s)))) 2).
  - left. repeat split; [right; now right | discriminate].
  - right. repeat split. exact H.
Qed.

Lemma Insert_error_leaves_trie lm s :
  snd (Insert lm s) <> None -> fst (Insert lm s) = lm.
Proof.
  destruct (Insert_cases lm s) as [(_ & H & _) | (_ & H)]; [now intros _|].
  rewrite H. cbn. congruence.
Qed.

Lemma Insert_idempotent lm s :
  snd (Insert lm s) = None ->
  Insert (fst (Insert lm s)) s = (fst (Insert lm s), None).
Proof.
  intros Hok.
  destruct (Insert_cases lm s) as [(_ & _ & H) | (Hc & H)]; [congruence|].
  destruct (Insert_cases (fst (Insert lm s)) s) as [(Hc' & _) | (_ & H')].
  - cbv zeta in *. destruct Hc as (H1 & H2 & H3).
    destruct Hc' as [?|[?|?]]; [congruence | congruence | lia].
  - rewrite H', H. cbn [fst root]. now rewrite insert_path_idempotent.
Qed.

Lemma stored_Insert lm s :
  snd (Insert lm s) = None ->
  stored (rev (SplitDomainName (ToLower s))) (fst (Insert lm s)) = true.
Proof.
  intros Hok.
  destruct (Insert_cases lm s) as [(_ & _ & H) | (_ & H)]; [congruence|].
  rewrite H. cbn [fst]. apply stored_is_Some. cbn [root rev].
  destruct (find_insert_path (rev (SplitDomainName (ToLower s)) ++ ["!"])%list
              (root lm)) as [m Hm].
  rewrite Hm. now eexists.
Qed.

Lemma stored_Insert_mono path lm s :
  stored path lm = true -> stored path (fst (Insert lm s)) = true.
Proof.
  intros Hst.
  destruct (Insert_cases lm s) as [(_ & H & _) | (_ & H)]; rewrite H;
    [exact Hst|].
  cbn [fst]. apply stored_is_Some. cbn [root].
  apply find_insert_path_mono. now apply stored_is_Some.
Qed.

Lemma stored_populate_mono path patterns : forall lm,
  stored path lm = true -> stored path (populate lm patterns) = true.
Proof.
  induction patterns as [|p ps IH]; intros lm H; [exact H|].
  cbn [populate fold_left]. apply IH. now apply stored_Insert_mono.
Qed.

(** A pattern that [Insert] accepts is stored in every trie it has been
    inserted into, whatever else was inserted before or after. *)
Lemma stored_after_populate p patterns : forall lm,
  In p patterns ->
  snd (Insert New p) = None ->
  stored (rev (SplitDomainName (ToLower p))) (populate lm patterns) = true.
Proof.
  induction patterns as [|q ps IH]; intros lm Hin Hok; [destruct Hin|].
  cbn [populate fold_left]. destruct Hin as [->|Hin].
  - apply stored_populate_mono, stored_Insert.
    now rewrite (Insert_error_any_trie lm New).
  - now apply IH.
Qed.

End GlobTrie.

(** ** What [Insert] accepts *)

Section InsertValidation.

Import Strings Dns names globtrie shape.

Lemma ToLower_root s : ToLower s = "." -> s = ".".
Proof.
  destruct s as [|c [|d s]]; cbn [ToLower]; intros H; try discriminate.
  injection H as H.
  assert (Hc : Ascii.eqb (lower_byte c) dot = true)
    by (rewrite H; reflexivity).
  rewrite lower_byte_eqb_dot in Hc. apply Ascii.eqb_eq in Hc. now subst c.
Qed.

(** The checks of [Insert] on a name without escapes, read on the
    labels of the name. *)
Lemma validation_plain s :
  plain s = true -> s <> "" -> s <> "." ->
  snd (IsDomainName (ToLower s)) = well_formed (labels s)
  /\ SplitDomainName (ToLower s) = map ToLower (labels s).
Proof.
  intros Hp Hne Hroot.
  assert (Hp' : plain (ToLower s) = true) by now rewrite plain_ToLower.
  assert (Hne' : ToLower s <> "")
    by (intros H; apply Hne; now apply ToLower_empty).
  assert (Hroot' : ToLower s <> ".")
    by (intros H; apply Hroot; now apply ToLower_root).
  split.
  - rewrite (IsDomainName_plain _ Hp' Hroot'), labels_ToLower.
    apply well_formed_ToLower.
  - rewrite (SplitDomainName_plain _ Hp' Hne' Hroot'). apply labels_ToLower.
Qed.

Lemma long_label_not_well_formed ls :
  existsb (fun l => 63 <? Z.of_nat (String.length l)) ls = true ->
  well_formed ls = false.
Proof.
  intros H. unfold well_formed. apply andb_false_intro1.
  induction ls as [|l ls IH]; [discriminate|].
  cbn [existsb forallb] in *. apply orb_prop in H as [H|H].
  - apply Z.ltb_lt in H. unfold length_ok.
    replace (Z.of_nat (String.length l) <=? 63) with false
      by (symmetry; apply Z.leb_gt; lia).
    now rewrite andb_false_r.
  - rewrite (IH H). apply andb_false_r.
Qed.

(** [Insert] fails on a name without escapes exactly when its labels
    are not well formed, are fewer than two, or the name holds [!]. *)
Lemma Insert_plain lm s :
  plain s = true ->
  snd (Insert lm s) <> None
  <-> (well_formed (labels s) = false
       \/ Z.of_nat (List.length (labels s)) < 2
       \/ ContainsByte s "!" = true).
Proof.
  intros Hp.
  destruct (String.eqb_spec s "") as [->|Hne].
  { split; [intros _; right; left; cbn; lia | intros _; discriminate]. }
  destruct (String.eqb_spec s ".") as [->|Hroot].
  { split; [intros _; right; left; cbn; lia | intros _; discriminate]. }
  destruct (validation_plain s Hp Hne Hroot) as [Hd Hs].
  destruct (Insert_cases lm s) as [(Hc & _ & Herr) | (Hc & Hok)];
    cbv zeta in Hc; rewrite Hd, Hs, ContainsByte_bang_ToLower, length_map in Hc.
  - split; [intros _|intros _; exact Herr].
    destruct Hc as [?|[?|?]]; [now left | now right; right | now right; left].
  - rewrite Hok. cbn [snd]. split; [congruence|].
    destruct Hc as (H1 & H2 & H3). intros [?|[?|?]]; [congruence | lia | congruence].
Qed.

(** C9 as stated fails: this name has no label longer than 63 bytes,
    has four labels and no [!], and [Insert] turns it down, because of
    its empty label. *)
Lemma Insert_rejects_unlisted_name :
  listed_malformed "a..example.com" = false
  /\ Insert New "a..example.com" = (New, Some "invalid domain").
Proof. split; vm_compute; reflexivity. Qed.

(** C9, amended: [Insert] fails exactly when the lowercased name fails
    [IsDomainName], holds [!] or has fewer than two labels; for an ASCII
    name without escapes this means: some label is empty or longer than 63
    bytes, the labels and their length bytes take more than 256 bytes,
    there are fewer than two labels, or the name holds [!], which
    covers the three cases the specification lists.  A failed [Insert]
    leaves the trie as it was; a successful one, done again, succeeds
    and leaves the trie, hence [Contains], as it was. *)
Theorem Insert_rejects_malformed_and_is_idempotent lm s :
  (snd (Insert lm s) <> None
   <-> (snd (IsDomainName (ToLower s)) = false
        \/ ContainsByte (ToLower s) "!" = true
        \/ Z.of_nat (List.length (SplitDomainName (ToLower s))) < 2))
  /\ (plain s = true ->
      (snd (Insert lm s) <> None
       <-> (well_formed (labels s) = false
            \/ Z.of_nat (List.length (labels s)) < 2
            \/ ContainsByte s "!" = true))
      /\ (listed_malformed s = true -> snd (Insert lm s) <> None))
  /\ (snd (Insert lm s) <> None -> fst (Insert lm s) = lm)
  /\ (snd (Insert lm s) = None ->
      Insert (fst (Insert lm s)) s = (fst (Insert lm s), None)
      /\ forall q,
          Contains (fst (Insert (fst (Insert lm s)) s)) q
          = Contains (fst (Insert lm s)) q).
Proof.
  split; [|split; [|split]].
  - destruct (Insert_cases lm s) as [(Hc & _ & Herr) | (Hc & Hok)];
      cbv zeta in Hc.
    + split; [intros _; exact Hc | intros _; exact Herr].
    + rewrite Hok. cbn [snd]. split; [congruence|].
      destruct Hc as (H1 & H2 & H3). intros [?|[?|?]]; [congruence | congruence | lia].
  - intros Hp. split; [now apply Insert_plain|].
    intros Hl. apply (Insert_plain lm s Hp).
    unfold listed_malformed in Hl.
    apply orb_prop in Hl as [Hl|Hl]; [apply orb_prop in Hl as [Hl|Hl]|].
    + left. now apply long_label_not_well_formed.
    + right. left. now apply Z.ltb_lt.
    + right. now right.
  - apply Insert_error_leaves_trie.
  - intros Hok. pose proof (Insert_idempotent lm s Hok) as Hi.
    split; [exact Hi|]. intros q. now rewrite Hi.
Qed.

(** The three cases the specification lists, on the names of the test
    of the repository. *)
Example Insert_listed_cases :
  let lm := populate New ["example.com."; "sub1.example.com."] in
  snd (Insert lm "1234567890123456789012345678901234567890123456789012345678901234.example.com")
  = Some "invalid domain"
  /\ snd (Insert lm "!example.com")
     = Some "invalid domain: cannot contain exclamation point (`!`)"
  /\ snd (Insert lm "com")
     = Some "invalid domain: must have at least two levels"
  /\ Insert lm "sub1.example.com." = (lm, None).
Proof. cbv zeta. repeat split; vm_compute; reflexivity. Qed.

End InsertValidation.

(** ** Wildcards in [Contains] *)

Section Wildcards.

Import Strings Dns names globtrie shape.

Lemma label_byte_inner c : label_byte c = true -> inner_byte c = true.
Proof.
  unfold label_byte, plain_byte, inner_byte.
  destruct (is_ascii c), (Ascii.eqb c backslash), (Ascii.eqb c dot);
    cbn; congruence.
Qed.

Lemma label_byte_plain c : label_byte c = true -> plain_byte c = true.
Proof.
  unfold label_byte.
  destruct (plain_byte c); cbn; congruence.
Qed.

Lemma label_byte_no_dot c :
  label_byte c = true -> negb (Ascii.eqb c dot) = true.
Proof.
  unfold label_byte.
  destruct (plain_byte c), (Ascii.eqb c dot); cbn; congruence.
Qed.

Lemma dot_split_label l r :
  all_bytes (fun c => negb (Ascii.eqb c dot)) l = true ->
  dot_split (l ++ String dot r) = l :: dot_split r.
Proof.
  induction l as [|c l IH]; intros H.
  - rewrite append_nil_l, dot_split_cons. reflexivity.
  - cbn [all_bytes] in H. apply andb_prop in H as [Hc Hl].
    apply negb_true_iff in Hc.
    rewrite append_cons, dot_split_cons, Hc, (IH Hl). reflexivity.
Qed.

Lemma ends_with_dot_append l r :
  r <> "" -> ends_with_dot (l ++ r) = ends_with_dot r.
Proof.
  intros Hr. induction l as [|c l IH]; [reflexivity|].
  rewrite append_cons. destruct (l ++ r) as [|d t] eqn:Hlr.
  - destruct l; [now rewrite append_nil_l in Hlr | discriminate].
  - now rewrite ends_with_dot_cons.
Qed.

(** The labels of [l.tail] are [l] and the labels of [tail], for a
    [tail] that does not end with a dot. *)
Lemma labels_label l tail :
  all_bytes label_byte l = true ->
  tail <> "" ->
  ends_with_dot tail = false ->
  labels (l ++ String dot tail) = l :: labels tail.
Proof.
  intros Hl Hne Ht. unfold labels.
  rewrite ends_with_dot_append by discriminate.
  assert (He : ends_with_dot (String dot tail) = false).
  { destruct tail; [congruence | exact Ht]. }
  rewrite He, Ht. apply dot_split_label.
  revert Hl. apply all_bytes_weaken, label_byte_no_dot.
Qed.

Lemma label_no_reserved l c :
  label_byte c = false -> all_bytes label_byte l = true ->
  ContainsByte l c = false.
Proof. apply ContainsByte_none. Qed.

(** What [Contains] checks before the walk, for a name without escapes
    and without reserved characters whose labels are [ls]. *)
Lemma Contains_plain lm s :
  plain s = true ->
  ContainsByte s "!" = false -> ContainsByte s "*" = false ->
  well_formed (labels s) = true ->
  2 <= Z.of_nat (List.length (labels s)) ->
  Contains lm s
  = match Contains_walk (map ToLower (labels s)) (root lm) with
    | Some b => b
    | None => false
    end.
Proof.
  intros Hp Hbang Hstar Hwf Hlen.
  assert (Hne : s <> "") by (intros ->; cbn in Hlen; lia).
  assert (Hroot : s <> ".") by (intros ->; cbn in Hlen; lia).
  destruct (validation_plain s Hp Hne Hroot) as [Hd Hs].
  unfold Contains. rewrite Hd, Hwf, Hs, ContainsAny_reserved.
  rewrite ContainsByte_bang_ToLower, ContainsByte_star_ToLower, Hbang, Hstar.
  rewrite length_map. cbn [negb orb].
  now replace (Z.of_nat (List.length (labels s)) <? 2) with false
    by (symmetry; apply Z.ltb_ge; lia).
Qed.

Lemma legal_label_facts l :
  legal_label l = true ->
  all_bytes label_byte l = true
  /\ plain l = true
  /\ ContainsByte l "!" = false /\ ContainsByte l "*" = false
  /\ 1 <= Z.of_nat (String.length l) <= 63.
Proof.
  unfold legal_label, length_ok. intros H.
  apply andb_prop in H as [Hb Hl]. apply andb_prop in Hl as [H1 H63].
  apply Z.leb_le in H1, H63. repeat split; try assumption.
  - revert Hb. apply all_bytes_weaken, label_byte_plain.
  - now apply (label_no_reserved l "!").
  - now apply (label_no_reserved l "*").
Qed.

(** The nodes on a stored path. *)
Lemma find_cons label rest n :
  find (label :: rest) n
  = match children n !! label with Some c => find rest c | None => None end.
Proof. reflexivity. Qed.

Lemma stored_wildcard lm :
  stored ["com"; "example"; "*"] lm = true ->
  exists n1 n2 n3,
    children (root lm) !! "com" = Some n1
    /\ children n1 !! "example" = Some n2
    /\ children n2 !! "*" = Some n3
    /\ has_key n3 "!" = true.
Proof.
  unfold stored, has_key. cbn [app find].
  destruct (children (root lm) !! "com") as [n1|] eqn:H1; [|discriminate].
  destruct (children n1 !! "example") as [n2|] eqn:H2; [|discriminate].
  destruct (children n2 !! "*") as [n3|] eqn:H3; [|discriminate].
  intros H. exists n1, n2, n3. repeat split; try assumption.
  now destruct (children n3 !! "!").
Qed.

Lemma stored_below_wildcard lm :
  stored ["com"; "example"; "*"; "sub2"] lm = true ->
  exists n1 n2 n3 n4,
    children (root lm) !! "com" = Some n1
    /\ children n1 !! "example" = Some n2
    /\ children n2 !! "*" = Some n3
    /\ children n3 !! "sub2" = Some n4
    /\ has_key n4 "!" = true.
Proof.
  unfold stored, has_key. cbn [app find].
  destruct (children (root lm) !! "com") as [n1|] eqn:H1; [|discriminate].
  destruct (children n1 !! "example") as [n2|] eqn:H2; [|discriminate].
  destruct (children n2 !! "*") as [n3|] eqn:H3; [|discriminate].
  destruct (children n3 !! "sub2") as [n4|] eqn:H4; [|discriminate].
  intros H. exists n1, n2, n3, n4. repeat split; try assumption.
  now destruct (children n4 !! "!").
Qed.

(** The two patterns of the claims are stored in every trie they have
    been inserted into, whatever else was inserted with them. *)
Lemma inserted_patterns_are_stored lm patterns :
  (In "*.example.com." patterns ->
   stored ["com"; "example"; "*"] (populate lm patterns) = true)
  /\ (In "sub2.*.example.com." patterns ->
      stored ["com"; "example"; "*"; "sub2"] (populate lm patterns) = true).
Proof.
  split; intros Hin.
  - apply (stored_after_populate "*.example.com." patterns lm Hin).
    vm_compute. reflexivity.
  - apply (stored_after_populate "sub2.*.example.com." patterns lm Hin).
    vm_compute. reflexivity.
Qed.

(** The walk for [x.example.com] when [*.example.com] is stored: the
    exact child for [x] wins if there is one, else the wildcard child
    is taken. *)
Lemma walk_wildcard lm x :
  stored ["com"; "example"; "*"] lm = true ->
  Contains_walk [x; "example"; "com"] (root lm)
  = Some match find ["com"; "example"; x] (root lm) with
         | None => true
         | Some n => has_key n "!"
         end.
Proof.
  intros Hst. destruct (stored_wildcard lm Hst) as (n1 & n2 & n3 & H1 & H2 & H3 & H4).
  unfold Contains_walk. cbn [rev app List.length Nat.mul Nat.add find].
  cbn [Contains_loop]. unfold Contains_turn. rewrite H1.
  cbn [Contains_loop]. rewrite H2. cbn [Contains_loop].
  destruct (children n2 !! x) as [n|]; [reflexivity|].
  rewrite H3. cbn [Contains_loop]. now rewrite H4.
Qed.

Lemma walk_example_com lm :
  stored ["com"; "example"; "*"] lm = true ->
  Contains_walk ["example"; "com"] (root lm)
  = Some (stored ["com"; "example"] lm).
Proof.
  intros Hst. destruct (stored_wildcard lm Hst) as (n1 & n2 & n3 & H1 & H2 & H3 & H4).
  unfold Contains_walk, stored, has_key.
  cbn [rev app List.length Nat.mul Nat.add find].
  cbn [Contains_loop]. unfold Contains_turn. rewrite H1.
  cbn [Contains_loop]. rewrite H2. cbn [Contains_loop]. unfold has_key.
  now destruct (children n2 !! "!").
Qed.

(** The walk for [sub2.x.example.com] when [sub2.*.example.com] is
    stored and nothing else goes on below [x.example.com] with [sub2]
    or a wildcard: after the exact match of [x], [sub2] fails, the walk
    goes to the wildcard child of the previous node and looks at
    [sub2] again. *)
Lemma walk_fallback lm x :
  stored ["com"; "example"; "*"; "sub2"] lm = true ->
  free_below ["com"; "example"; x] ["sub2"; "*"] lm = true ->
  Contains_walk ["sub2"; x; "example"; "com"] (root lm) = Some true.
Proof.
  intros Hst Hfree.
  destruct (stored_below_wildcard lm Hst)
    as (n1 & n2 & n3 & n4 & H1 & H2 & H3 & H4 & H5).
  unfold free_below in Hfree. cbn [find] in Hfree. rewrite H1, H2 in Hfree.
  unfold Contains_walk. cbn [rev app List.length Nat.mul Nat.add].
  cbn [Contains_loop]. unfold Contains_turn. rewrite H1.
  cbn [Contains_loop]. rewrite H2. cbn [Contains_loop].
  destruct (children n2 !! x) as [n|].
  - cbn [forallb] in Hfree. unfold has_key in Hfree.
    destruct (children n !! "sub2"); [discriminate|].
    destruct (children n !! "*"); [discriminate|].
    cbn [Contains_loop]. rewrite H3. cbn [Contains_loop]. rewrite H4.
    cbn [Contains_loop]. now rewrite H5.
  - rewrite H3. cbn [Contains_loop]. rewrite H4. cbn [Contains_loop].
    now rewrite H5.
Qed.

(** The checks of [Contains] pass for [l.tail] when [l] is a legal
    label and [tail] is a short, lowercase, well-formed name. *)
Lemma Contains_label_tail lm l tail :
  legal_label l = true ->
  tail <> "" -> ends_with_dot tail = false ->
  plain tail = true ->
  ContainsByte tail "!" = false -> ContainsByte tail "*" = false ->
  forallb length_ok (labels tail) = true ->
  wire_length (labels tail) <= 100 ->
  labels tail <> [] ->
  Contains lm (l ++ String dot tail)
  = match Contains_walk (ToLower l :: map ToLower (labels tail)) (root lm) with
    | Some b => b
    | None => false
    end.
Proof.
  intros Hl Hne He Hp Hbang Hstar Hok Hw Hls.
  destruct (legal_label_facts l Hl) as (Hb & Hpl & Hlb & Hls' & Hlen).
  pose proof (labels_label l tail Hb Hne He) as Hlabels.
  rewrite Contains_plain; rewrite ?Hlabels.
  - reflexivity.
  - unfold plain in *. rewrite all_bytes_append, Hpl. cbn [all_bytes].
    now rewrite Hp.
  - rewrite ContainsByte_append, Hlb. cbn [ContainsByte orb].
    exact Hbang.
  - rewrite ContainsByte_append, Hls'. cbn [ContainsByte orb].
    exact Hstar.
  - unfold well_formed. cbn [forallb wire_length]. rewrite Hok.
    unfold length_ok, lenmsg. rewrite andb_true_r.
    apply andb_true_intro. split; [|apply Z.leb_le; lia].
    apply andb_true_intro. split; apply Z.leb_le; lia.
  - cbn [List.length]. destruct (labels tail); [congruence|].
    cbn [List.length]. lia.
Qed.

(** The failing input of C6: with [*.example.com] and the longer
    pattern [x.sub1.example.com] stored, and [example.com] itself not
    stored, the single legal label [sub1] gives a name that is not
    matched. *)
Lemma wildcard_shadowed_by_longer_pattern :
  let lm := populate New ["*.example.com."; "x.sub1.example.com."] in
  stored ["com"; "example"; "*"] lm = true
  /\ stored ["com"; "example"] lm = false
  /\ legal_label "sub1" = true
  /\ Contains lm "sub1.example.com" = false.
Proof. cbv zeta. repeat split; vm_compute; reflexivity. Qed.

(** The same through [Load]: the line [*.example.com] alone blocks
    [sub1.example.com.], and one more line, [*.sub1.example.com],
    takes the name off the blocklist. *)
Example added_line_unblocks_a_name :
  let one :=
    fst (fst (blocklist.Load
                {| blocklist.lines := ["*.example.com"];
                   blocklist.Err := None |})) in
  let two :=
    fst (fst (blocklist.Load
                {| blocklist.lines := ["*.example.com"; "*.sub1.example.com"];
                   blocklist.Err := None |})) in
  blocklist.Contains one "sub1.example.com." = true
  /\ blocklist.Contains two "sub1.example.com." = false
  /\ blocklist.Contains two "www.example.com." = true
  /\ blocklist.Contains two "x.sub1.example.com." = true.
Proof. cbv zeta. repeat split; vm_compute; reflexivity. Qed.

(** With [*.example.com] stored, what [Contains] says of [L.example.com]
    for a legal label [L], and of [example.com]. *)
Lemma Contains_under_wildcard lm L :
  stored ["com"; "example"; "*"] lm = true ->
  legal_label L = true ->
  Contains lm (L ++ ".example.com")
  = match find ["com"; "example"; ToLower L] (root lm) with
    | None => true
    | Some n => has_key n "!"
    end
  /\ Contains lm "example.com" = stored ["com"; "example"] lm.
Proof.
  intros Hst HL. split.
  - change (L ++ ".example.com") with (L ++ String dot "example.com").
    rewrite (Contains_label_tail lm L "example.com" HL);
      try (vm_compute; congruence).
    change (map ToLower (labels "example.com")) with ["example"; "com"].
    now rewrite (walk_wildcard lm (ToLower L) Hst).
  - rewrite (Contains_plain lm "example.com");
      try (vm_compute; congruence).
    change (map ToLower (labels "example.com")) with ["example"; "com"].
    now rewrite (walk_example_com lm Hst).
Qed.

(** C6, on the code as it is: the walk takes the exact child before
    the wildcard child and never comes back.  In a trie that stores
    [*.example.com] and not [example.com], a legal single label [L]
    whose node below [example.com] exists without the terminal marker
    (a longer pattern ending in [L.example.com] is stored, and
    [L.example.com] itself is not) gives a name that [Contains] does
    not match, although the wildcard pattern covers it. *)
Theorem wildcard_hidden_by_longer_pattern lm L :
  stored ["com"; "example"; "*"] lm = true ->
  stored ["com"; "example"] lm = false ->
  legal_label L = true ->
  unshadowed ["com"; "example"; ToLower L] lm = false ->
  Contains lm (L ++ ".example.com") = false
  /\ Contains lm "example.com" = false.
Proof.
  intros Hst Hno HL Hun.
  destruct (Contains_under_wildcard lm L Hst HL) as [H1 H2].
  rewrite H1, H2. split; [exact Hun | exact Hno].
Qed.

Lemma wildcard_hidden_by_longer_pattern_witness :
  Contains (populate New ["*.example.com."; "x.sub1.example.com."])
    ("sub1" ++ ".example.com") = false
  /\ Contains (populate New ["*.example.com."; "x.sub1.example.com."])
       "example.com" = false.
Proof.
  apply (wildcard_hidden_by_longer_pattern
           (populate New ["*.example.com."; "x.sub1.example.com."]) "sub1").
  - vm_compute. reflexivity.
  - vm_compute. reflexivity.
  - vm_compute. reflexivity.
  - vm_compute. reflexivity.
Defined.

(** Where the code does what the wildcard pattern says: in a trie
    that stores [*.example.com] and not [example.com], [Contains] of
    [L.example.com] is true for every legal single label [L] such that
    the node of [L.example.com], if the trie has one, carries the
    terminal marker, and [Contains] of [example.com] is false. *)
Lemma wildcard_matches_one_label_unless_shadowed lm L :
  stored ["com"; "example"; "*"] lm = true ->
  stored ["com"; "example"] lm = false ->
  legal_label L = true ->
  unshadowed ["com"; "example"; ToLower L] lm = true ->
  Contains lm (L ++ ".example.com") = true
  /\ Contains lm "example.com" = false.
Proof.
  intros Hst Hno HL Hun.
  destruct (Contains_under_wildcard lm L Hst HL) as [H1 H2].
  rewrite H1, H2. split; [exact Hun | exact Hno].
Qed.

(** The two names of the specification on the trie of the test:
    matched, and [example.com] not matched. *)
Example wildcard_on_test_trie :
  Contains test_trie "jubilee.example.com" = true
  /\ Contains test_trie "sub4.example.com" = true
  /\ Contains test_trie "example.com" = false.
Proof. repeat split; vm_compute; reflexivity. Qed.

(** The failing input of C5: with the three patterns of the claim
    stored and the longer pattern [x.sub2.sub1.example.com] beside
    them, the exact walk does not fail at [sub2] and ends on a node
    without marker. *)
Lemma fallback_shadowed_by_longer_pattern :
  let lm := populate New ["sub1.example.com."; "*.example.com.";
                          "sub2.*.example.com."; "x.sub2.sub1.example.com."] in
  stored ["com"; "example"; "*"; "sub2"] lm = true
  /\ stored ["com"; "example"; "*"] lm = true
  /\ stored ["com"; "example"; "sub1"] lm = true
  /\ Contains lm "sub2.sub1.example.com" = false.
Proof. cbv zeta. repeat split; vm_compute; reflexivity. Qed.

(** The walk for [sub2.x.example.com] when the trie has a node for
    every label: the exact child is taken four times and the answer
    is the marker of the last node. *)
Lemma walk_exact lm x :
  Contains_walk ["sub2"; x; "example"; "com"] (root lm)
  = match find ["com"; "example"; x; "sub2"] (root lm) with
    | Some n => Some (has_key n "!")
    | None => Contains_walk ["sub2"; x; "example"; "com"] (root lm)
    end.
Proof.
  unfold Contains_walk. cbn [rev app List.length Nat.mul Nat.add find].
  destruct (children (root lm) !! "com") as [n1|] eqn:H1; [|reflexivity].
  destruct (children n1 !! "example") as [n2|] eqn:H2; [|reflexivity].
  destruct (children n2 !! x) as [n3|] eqn:H3; [|reflexivity].
  destruct (children n3 !! "sub2") as [n4|] eqn:H4; [|reflexivity].
  cbn [Contains_loop]. unfold Contains_turn. rewrite H1.
  cbn [Contains_loop]. rewrite H2. cbn [Contains_loop]. rewrite H3.
  cbn [Contains_loop]. now rewrite H4.
Qed.

(** What the checks of [Contains] leave of [sub2.X.example.com]. *)
Lemma Contains_sub2_label lm X :
  legal_label X = true ->
  Contains lm ("sub2." ++ X ++ ".example.com")
  = match Contains_walk ["sub2"; ToLower X; "example"; "com"] (root lm) with
    | Some b => b
    | None => false
    end.
Proof.
  intros HX.
  destruct (legal_label_facts X HX) as (Hb & Hp & Hbang & Hstar & Hlen).
  change ("sub2." ++ X ++ ".example.com")
    with ("sub2" ++ String dot (X ++ String dot "example.com")).
  pose proof (labels_label X "example.com" Hb) as HlX.
  assert (Hl : labels (X ++ String dot "example.com") = [X; "example"; "com"])
    by (rewrite HlX; [reflexivity | discriminate | reflexivity]).
  rewrite (Contains_label_tail lm "sub2"); rewrite ?Hl.
  - reflexivity.
  - reflexivity.
  - destruct X; discriminate.
  - now rewrite ends_with_dot_append by discriminate.
  - unfold plain in *. rewrite all_bytes_append, Hp. reflexivity.
  - rewrite ContainsByte_append, Hbang. reflexivity.
  - rewrite ContainsByte_append, Hstar. reflexivity.
  - cbn [forallb]. unfold length_ok at 1.
    replace (1 <=? Z.of_nat (String.length X)) with true
      by (symmetry; apply Z.leb_le; lia).
    replace (Z.of_nat (String.length X) <=? 63) with true
      by (symmetry; apply Z.leb_le; lia).
    reflexivity.
  - cbn [wire_length String.length]. lia.
  - discriminate.
Qed.

(** The fallback for any middle label. *)
Lemma fallback_any_label lm X :
  stored ["com"; "example"; "*"; "sub2"] lm = true ->
  legal_label X = true ->
  free_below ["com"; "example"; ToLower X] ["sub2"; "*"] lm = true ->
  Contains lm ("sub2." ++ X ++ ".example.com") = true.
Proof.
  intros Hst HX Hfree.
  destruct (legal_label_facts X HX) as (Hb & Hp & Hbang & Hstar & Hlen).
  change ("sub2." ++ X ++ ".example.com")
    with ("sub2" ++ String dot (X ++ String dot "example.com")).
  pose proof (labels_label X "example.com" Hb) as HlX.
  assert (Hl : labels (X ++ String dot "example.com") = [X; "example"; "com"])
    by (rewrite HlX; [reflexivity | discriminate | reflexivity]).
  rewrite (Contains_label_tail lm "sub2"); rewrite ?Hl.
  - change (ToLower "sub2") with "sub2". cbn [map].
    change (ToLower "example") with "example".
    change (ToLower "com") with "com".
    now rewrite (walk_fallback lm (ToLower X) Hst Hfree).
  - reflexivity.
  - destruct X; discriminate.
  - now rewrite ends_with_dot_append by discriminate.
  - unfold plain in *. rewrite all_bytes_append, Hp. reflexivity.
  - rewrite ContainsByte_append, Hbang. reflexivity.
  - rewrite ContainsByte_append, Hstar. reflexivity.
  - cbn [forallb]. unfold length_ok at 1.
    replace (1 <=? Z.of_nat (String.length X)) with true
      by (symmetry; apply Z.leb_le; lia).
    replace (Z.of_nat (String.length X) <=? 63) with true
      by (symmetry; apply Z.leb_le; lia).
    reflexivity.
  - cbn [wire_length String.length]. lia.
  - discriminate.
Qed.

(** C5, on the code as it is: the fallback to the wildcard child of
    the previous node is taken only when the lookup of a label fails,
    and the walk never comes back from an exact child.  In a trie
    that stores [sub2.*.example.com], for a legal middle label [X]
    (such as [sub1] or [ss]) whose path [com, example, X, sub2] exists
    without the terminal marker (a longer pattern ending in
    [sub2.X.example.com] is stored, and that name itself is not),
    [Contains] of [sub2.X.example.com] is false, although the stored
    pattern covers the name. *)
Theorem fallback_hidden_by_longer_pattern lm X :
  stored ["com"; "example"; "*"; "sub2"] lm = true ->
  legal_label X = true ->
  unshadowed ["com"; "example"; ToLower X; "sub2"] lm = false ->
  Contains lm ("sub2." ++ X ++ ".example.com") = false.
Proof.
  intros _ HX Hun. rewrite (Contains_sub2_label lm X HX), walk_exact.
  unfold unshadowed in Hun.
  destruct (find ["com"; "example"; ToLower X; "sub2"] (root lm)) as [n|];
    [exact Hun | discriminate].
Qed.

Lemma fallback_hidden_by_longer_pattern_witness :
  Contains
    (populate New ["sub1.example.com."; "*.example.com.";
                   "sub2.*.example.com."; "x.sub2.sub1.example.com."])
    ("sub2." ++ "sub1" ++ ".example.com") = false.
Proof.
  apply (fallback_hidden_by_longer_pattern
           (populate New ["sub1.example.com."; "*.example.com.";
                          "sub2.*.example.com."; "x.sub2.sub1.example.com."])
           "sub1").
  - vm_compute. reflexivity.
  - vm_compute. reflexivity.
  - vm_compute. reflexivity.
Defined.

(** Where the code does what the stored pattern says: in a trie that
    stores [sub2.*.example.com], [Contains] of [sub2.sub1.example.com]
    and of [sub2.ss.example.com] is true when the node of
    [sub1.example.com], and that of [ss.example.com], if the trie has
    one, has neither a [sub2] child nor a wildcard child: then the
    exact walk fails at [sub2], goes to the wildcard child of the
    previous node and finds [sub2] there. *)
Lemma fallback_to_previous_wildcard lm :
  stored ["com"; "example"; "*"; "sub2"] lm = true ->
  free_below ["com"; "example"; "sub1"] ["sub2"; "*"] lm = true ->
  free_below ["com"; "example"; "ss"] ["sub2"; "*"] lm = true ->
  Contains lm "sub2.sub1.example.com" = true
  /\ Contains lm "sub2.ss.example.com" = true.
Proof.
  intros Hst H1 Hs. split.
  - apply (fallback_any_label lm "sub1" Hst); [reflexivity | exact H1].
  - apply (fallback_any_label lm "ss" Hst); [reflexivity | exact Hs].
Qed.

(** The two names of the claim on the trie of the repository's
    test. *)
Example fallback_on_test_trie :
  Contains test_trie "sub2.sub1.example.com" = true
  /\ Contains test_trie "sub2.ss.example.com" = true.
Proof. repeat split; vm_compute; reflexivity. Qed.

End Wildcards.

(** * Further properties of the code *)

(** ** The trie: what it holds and what it matches *)

Section TrieLookup.

Import Strings Dns names globtrie shape matching.

(** [Contains] is true only after its checks have passed. *)
Lemma Contains_true_checks lm s :
  Contains lm s = true ->
  snd (IsDomainName (ToLower s)) = true
  /\ ContainsAny (ToLower s) "!*" = false
  /\ 2 <= Z.of_nat (List.length (labels_of s))
  /\ Contains_walk (labels_of s) (root lm) = Some true.
Proof.
  unfold Contains, labels_of.
  destruct (snd (IsDomainName (ToLower s))); cbn [negb]; [|discriminate].
  destruct (ContainsAny (ToLower s) "!*"); [discriminate|].
  destruct (Z.ltb_spec (Z.of_nat (List.length (SplitDomainName (ToLower s)))) 2);
    [discriminate|].
  destruct (Contains_walk _ _) as [[|]|]; try discriminate.
  intros _. repeat split. assumption.
Qed.

Lemma Contains_loop_empty fuel label rest :
  Contains_loop (S fuel) (label :: rest) (Node ∅) None = Some false.
Proof.
  cbn [Contains_loop]. unfold Contains_turn. cbn [children].
  now rewrite !lookup_empty.
Qed.

(** The empty trie contains no name. *)
Lemma Contains_New s : Contains New s = false.
Proof.
  destruct (Contains New s) eqn:H; [|reflexivity].
  apply Contains_true_checks in H as (_ & _ & Hlen & Hwalk).
  unfold Contains_walk in Hwalk. cbn [New root] in Hwalk.
  assert (Hr : (2 <= List.length (rev (labels_of s)))%nat)
    by (rewrite length_rev; lia).
  destruct (rev (labels_of s)) as [|label rest] eqn:Hrev;
    [cbn in Hr; lia|].
  destruct (labels_of s) as [|l ls]; [discriminate Hrev|].
  cbn [List.length Nat.mul Nat.add] in Hwalk.
  rewrite Contains_loop_empty in Hwalk. discriminate.
Qed.

(** The walk along a path that exists and ends with the marker: the
    exact child is taken at every label. *)
Lemma Contains_loop_exact path : forall fuel n prevNode,
  (List.length path <= fuel)%nat ->
  is_Some (find (path ++ ["!"]) n) ->
  Contains_loop fuel path n prevNode = Some true.
Proof.
  induction path as [|label rest IH]; intros fuel n prevNode Hf Hp.
  - destruct fuel; cbn [Contains_loop app find] in *; unfold has_key;
      destruct (children n !! "!"); try reflexivity; now destruct Hp.
  - destruct fuel as [|fuel]; [cbn in Hf; lia|].
    cbn [app find] in Hp. cbn [Contains_loop]. unfold Contains_turn.
    destruct (children n !! label) as [c|]; [|now destruct Hp].
    apply IH; [cbn in Hf; lia | exact Hp].
Qed.

(** X1: a pattern without wildcard that [Insert] has accepted is
    contained, in the trie [Insert] returns and in every trie obtained
    from it by further insertions. *)
Theorem Insert_then_Contains lm s patterns :
  snd (Insert lm s) = None ->
  ContainsByte s "*" = false ->
  Contains (populate (fst (Insert lm s)) patterns) s = true.
Proof.
  intros Hok Hstar.
  pose proof (stored_populate_mono _ patterns _ (stored_Insert lm s Hok)) as Hst.
  apply stored_is_Some in Hst.
  destruct (Insert_cases lm s) as [(_ & _ & H) | ((H1 & H2 & H3) & _)];
    [congruence|]. cbv zeta in *.
  unfold Contains.
  rewrite H1, ContainsAny_reserved, H2, ContainsByte_star_ToLower, Hstar.
  cbn [negb orb].
  replace (Z.of_nat (List.length (SplitDomainName (ToLower s))) <? 2)
    with false by (symmetry; apply Z.ltb_ge; lia).
  unfold Contains_walk. rewrite Contains_loop_exact; [reflexivity | | exact Hst].
  rewrite length_rev. lia.
Qed.

Lemma Insert_then_Contains_witness :
  Contains
    (populate (fst (Insert test_trie "www.example.org."))
       ["*.example.org."; "x.www.example.org."])
    "www.example.org." = true.
Proof.
  apply (Insert_then_Contains test_trie "www.example.org."
           ["*.example.org."; "x.www.example.org."]).
  - vm_compute. reflexivity.
  - vm_compute. reflexivity.
Defined.

(** X2: a name that holds a wildcard or the marker character is never
    contained, whatever the trie holds; a stored wildcard pattern is
    not matched by its own text. *)
Theorem reserved_characters_never_match lm s :
  ContainsByte s "*" = true \/ ContainsByte s "!" = true ->
  Contains lm s = false.
Proof.
  intros H. unfold Contains.
  destruct (snd (IsDomainName (ToLower s))); cbn [negb]; [|reflexivity].
  rewrite ContainsAny_reserved, ContainsByte_bang_ToLower,
    ContainsByte_star_ToLower.
  destruct H as [-> | ->]; [now rewrite orb_true_r | reflexivity].
Qed.

Lemma reserved_characters_never_match_witness :
  Contains test_trie "*.example.com." = false.
Proof.
  apply (reserved_characters_never_match test_trie "*.example.com.").
  left. vm_compute. reflexivity.
Defined.

(** More fuel than a walk needs does not change its answer. *)
Lemma Contains_loop_more_fuel fuel : forall fuel' labels currNode prevNode b,
  Contains_loop fuel labels currNode prevNode = Some b ->
  (fuel <= fuel')%nat ->
  Contains_loop fuel' labels currNode prevNode = Some b.
Proof.
  induction fuel as [|fuel IH]; intros fuel' labels currNode prevNode b H Hle.
  - destruct labels; [|discriminate]. now destruct fuel'.
  - destruct labels as [|label rest]; [now destruct fuel'|].
    destruct fuel' as [|fuel']; [lia|].
    cbn [Contains_loop] in *.
    destruct (Contains_turn label rest currNode prevNode); [|exact H].
    apply (IH fuel'); [exact H | lia].
Qed.

(** X3: the loop of [Contains] ends, although one of its branches
    steps the index back: from any state it gives its answer within two
    turns per label left, plus one when a previous node is remembered,
    and running it longer gives the same answer. *)
Theorem Contains_loop_ends labels currNode prevNode fuel :
  (walk_measure labels prevNode <= fuel)%nat ->
  exists b,
    Contains_loop (walk_measure labels prevNode) labels currNode prevNode
    = Some b
    /\ Contains_loop fuel labels currNode prevNode = Some b.
Proof.
  intros Hle.
  destruct (Contains_loop_fuel (walk_measure labels prevNode) labels
              currNode prevNode (Nat.le_refl _)) as [b Hb].
  exists b. split; [exact Hb|].
  now apply (Contains_loop_more_fuel (walk_measure labels prevNode)).
Qed.

Lemma Contains_loop_ends_witness :
  exists b,
    Contains_loop (walk_measure ["com"; "example"; "sub1"; "sub2"] None)
      ["com"; "example"; "sub1"; "sub2"] (root test_trie) None = Some b
    /\ Contains_loop 100 ["com"; "example"; "sub1"; "sub2"]
         (root test_trie) None = Some b.
Proof.
  apply (Contains_loop_ends ["com"; "example"; "sub1"; "sub2"]
           (root test_trie) None 100).
  vm_compute. lia.
Defined.

End TrieLookup.

(** ** The trie: order of insertion, case and final dot *)

Section TrieForms.

Import Strings Dns names globtrie shape matching.

Lemma insert_path_comm p : forall q n,
  insert_path p (insert_path q n) = insert_path q (insert_path p n).
Proof.
  induction p as [|l p IH]; intros q n; [reflexivity|].
  destruct q as [|m q]; [reflexivity|].
  cbn [insert_path]. rewrite !children_Node.
  destruct (decide (l = m)) as [->|Hne].
  - rewrite !lookup_insert_eq, !insert_insert_eq. now rewrite IH.
  - rewrite (lookup_insert_ne _ m l) by congruence.
    rewrite (lookup_insert_ne _ l m) by congruence.
    now rewrite insert_insert_ne by congruence.
Qed.

(** What [Insert] returns as the trie. *)
Lemma Insert_fst lm s :
  fst (Insert lm s)
  = if accepted s
    then {| root := insert_path (rev ("!" :: labels_of s)) (root lm) |}
    else lm.
Proof.
  unfold accepted, labels_of, Insert.
  destruct (negb (snd (IsDomainName (ToLower s)))); [reflexivity|].
  destruct (ContainsByte (ToLower s) "!"); [reflexivity|].
  destruct (Z.of_nat (List.length (SplitDomainName (ToLower s))) <? 2);
    reflexivity.
Qed.

Lemma Insert_comm lm a b :
  fst (Insert (fst (Insert lm a)) b) = fst (Insert (fst (Insert lm b)) a).
Proof.
  rewrite !Insert_fst.
  destruct (accepted a), (accepted b); try reflexivity.
  cbn [root]. f_equal. apply insert_path_comm.
Qed.

(** The trie built does not depend on the order of the insertions. *)
Lemma populate_perm lm (ps qs : list string) :
  ps ≡ₚ qs -> populate lm ps = populate lm qs.
Proof.
  intros Hp. revert lm.
  induction Hp as [|p ps qs _ IH|p q ps|ps qs rs _ IH1 _ IH2]; intros lm.
  - reflexivity.
  - cbn [populate fold_left]. apply IH.
  - cbn [populate fold_left]. now rewrite Insert_comm.
  - now rewrite IH1.
Qed.

Lemma dot_split_add_dot s : dot_split (s ++ ".") = (dot_split s ++ [""])%list.
Proof.
  induction s as [|c s IH]; [reflexivity|].
  rewrite append_cons, !dot_split_cons, IH.
  destruct (Ascii.eqb c dot); [reflexivity|].
  pose proof (dot_split_nonempty s) as Hne.
  destruct (dot_split s); [congruence | reflexivity].
Qed.

(** The final dot adds no label. *)
Lemma labels_add_dot s :
  ends_with_dot s = false -> labels (s ++ ".") = labels s.
Proof.
  intros He. unfold labels. rewrite He.
  destruct (String.eqb_spec s "") as [->|Hne]; [reflexivity|].
  rewrite ends_with_dot_append by discriminate.
  cbn [ends_with_dot Ascii.eqb]. change (Ascii.eqb "." dot) with true.
  cbv iota. now rewrite dot_split_add_dot, removelast_last.
Qed.

Lemma Fqdn_plain_cases s :
  plain s = true -> Fqdn s = if ends_with_dot s then s else s ++ ".".
Proof.
  intros Hp. unfold Fqdn, IsFqdn.
  now rewrite (IsFqdn_from_plain s (plain_no_backslash s Hp)).
Qed.

(** The checks and the labels of [Insert] and [Contains] are the same
    for a name and for the name followed by a dot. *)
Lemma checks_add_dot s :
  plain s = true -> ends_with_dot s = false -> s <> "" ->
  snd (IsDomainName (ToLower (s ++ "."))) = snd (IsDomainName (ToLower s))
  /\ SplitDomainName (ToLower (s ++ ".")) = SplitDomainName (ToLower s)
  /\ ContainsByte (ToLower (s ++ ".")) "!" = ContainsByte (ToLower s) "!"
  /\ ContainsAny (ToLower (s ++ ".")) "!*" = ContainsAny (ToLower s) "!*".
Proof.
  intros Hp He Hne.
  assert (Hroot : s <> ".") by (intros ->; discriminate He).
  assert (Hp' : plain (s ++ ".") = true).
  { unfold plain in *. now rewrite all_bytes_append, Hp. }
  assert (Hne' : s ++ "." <> "") by (destruct s; discriminate).
  assert (Hroot' : s ++ "." <> ".").
  { destruct s as [|c s]; [congruence|]. rewrite append_cons.
    destruct s; discriminate. }
  destruct (validation_plain s Hp Hne Hroot) as [H1 H2].
  destruct (validation_plain _ Hp' Hne' Hroot') as [H1' H2'].
  rewrite H1, H2, H1', H2', (labels_add_dot s He).
  rewrite !ContainsAny_reserved, !ContainsByte_bang_ToLower,
    !ContainsByte_star_ToLower, !ContainsByte_append.
  cbn [ContainsByte Ascii.eqb]. rewrite !orb_false_r.
  repeat split.
Qed.

(** X4: for an ASCII name without escapes, [Insert] and [Contains]
    treat the name and its canonical form (lower case, final dot) alike:
    the answer of [Contains] is the same, and so is the result of
    [Insert], trie and error, for every name but the empty one (whose
    two forms are turned down with different messages). *)
Theorem canonical_form_is_the_same_name lm s :
  plain s = true ->
  (s <> "" -> Insert lm (CanonicalName s) = Insert lm s)
  /\ fst (Insert lm (CanonicalName s)) = fst (Insert lm s)
  /\ Contains lm (CanonicalName s) = Contains lm s.
Proof.
  intros Hp. unfold CanonicalName.
  assert (Hi : forall t, Insert lm (ToLower t) = Insert lm t)
    by (intros t; unfold Insert; now rewrite ToLower_idempotent).
  rewrite Hi, globtrie_Contains_ToLower, (Fqdn_plain_cases s Hp).
  destruct (ends_with_dot s) eqn:He; [repeat split; reflexivity|].
  destruct (String.eqb_spec s "") as [->|Hne];
    [repeat split; try reflexivity; congruence|].
  destruct (checks_add_dot s Hp He Hne) as (H1 & H2 & H3 & H4).
  unfold Insert, Contains. now rewrite H1, H2, H3, H4.
Qed.

Lemma canonical_form_is_the_same_name_witness :
  ("Sub9.Example.COM" <> "" ->
   Insert test_trie (CanonicalName "Sub9.Example.COM")
   = Insert test_trie "Sub9.Example.COM")
  /\ fst (Insert test_trie (CanonicalName "Sub9.Example.COM"))
     = fst (Insert test_trie "Sub9.Example.COM")
  /\ Contains test_trie (CanonicalName "Sub9.Example.COM")
     = Contains test_trie "Sub9.Example.COM".
Proof.
  apply (canonical_form_is_the_same_name test_trie "Sub9.Example.COM").
  vm_compute. reflexivity.
Defined.

End TrieForms.

(** ** The trie: every match comes from a stored pattern *)

Section TrieSoundness.

Import Strings Dns names globtrie shape matching.

Lemma find_app p q n :
  find (p ++ q) n
  = match find p n with Some m => find q m | None => None end.
Proof.
  revert n. induction p as [|l p IH]; intros n; [reflexivity|].
  cbn [app find]. destruct (children n !! l); [apply IH | reflexivity].
Qed.

Lemma find_snoc p l n m c :
  find p n = Some m -> children m !! l = Some c -> find (p ++ [l]) n = Some c.
Proof. intros Hp Hl. rewrite find_app, Hp. cbn [find]. now rewrite Hl. Qed.

Lemma pattern_matches_snoc pat done p l :
  pattern_matches pat done -> label_matches p l ->
  pattern_matches (pat ++ [p]) (done ++ [l]).
Proof.
  intros H Hl. apply Forall2_app; [exact H|]. constructor; [exact Hl|constructor].
Qed.

Lemma Contains_loop_sound rootNode fuel : forall rest consumed currNode prevNode,
  walk_invariant rootNode consumed currNode prevNode ->
  Contains_loop fuel rest currNode prevNode = Some true ->
  exists pat m,
    pattern_matches pat (consumed ++ rest)
    /\ find pat rootNode = Some m /\ has_key m "!" = true.
Proof.
  induction fuel as [|fuel IH]; intros rest consumed currNode prevNode Hinv Hw.
  - destruct rest; [|discriminate]. cbn in Hw. injection Hw as Hw.
    destruct Hinv as [(pat & Hm & Hf) _]. exists pat, currNode.
    now rewrite app_nil_r.
  - destruct rest as [|label rest].
    { cbn in Hw. injection Hw as Hw.
      destruct Hinv as [(pat & Hm & Hf) _]. exists pat, currNode.
      now rewrite app_nil_r. }
    cbn [Contains_loop] in Hw. unfold Contains_turn in Hw.
    destruct Hinv as [(pat & Hm & Hf) Hprev].
    replace (consumed ++ label :: rest)%list
      with ((consumed ++ [label]) ++ rest)%list
      by (now rewrite <- app_assoc).
    destruct (children currNode !! label) as [nextNode|] eqn:Hl.
    { apply (IH rest (consumed ++ [label])%list nextNode (Some currNode));
        [|exact Hw]. split.
      - exists (pat ++ [label])%list. split.
        + apply pattern_matches_snoc; [exact Hm | now left].
        + now apply (find_snoc _ _ _ currNode).
      - exists pat, consumed, label. repeat split; assumption. }
    destruct (children currNode !! "*") as [glob|] eqn:Hg.
    { apply (IH rest (consumed ++ [label])%list glob None); [|exact Hw].
      split; [|exact I].
      exists (pat ++ ["*"])%list. split.
      - apply pattern_matches_snoc; [exact Hm | now right].
      - now apply (find_snoc _ _ _ currNode). }
    destruct prevNode as [prev|]; [|discriminate].
    destruct (children prev !! "*") as [glob|] eqn:Hpg; [|discriminate].
    destruct Hprev as (pat' & before & l & -> & Hm' & Hf').
    rewrite <- app_assoc. cbn [app].
    apply (IH (label :: rest) (before ++ [l])%list glob None); [|exact Hw].
    split; [|exact I].
    exists (pat' ++ ["*"])%list. split.
    + apply pattern_matches_snoc; [exact Hm' | now right].
    + now apply (find_snoc _ _ _ prev).
Qed.

(** A name that [Contains] accepts is matched, label by label from the
    last to the first, by a pattern stored in the trie. *)
Lemma Contains_stored_pattern lm s :
  Contains lm s = true ->
  exists pat,
    stored pat lm = true /\ pattern_matches pat (rev (labels_of s)).
Proof.
  intros H. apply Contains_true_checks in H as (_ & _ & _ & Hw).
  unfold Contains_walk in Hw.
  assert (Hinv : walk_invariant (root lm) [] (root lm) None).
  { split; [|exact I]. exists []. split; [constructor | reflexivity]. }
  destruct (Contains_loop_sound _ _ _ _ _ _ Hinv Hw)
    as (pat & m & Hm & Hf & Hk).
  exists pat. split; [|exact Hm]. unfold stored.
  rewrite find_app, Hf. cbn [find]. unfold has_key in Hk.
  now destruct (children m !! "!").
Qed.

(** A path found after an insertion was there before, or runs along
    the path inserted. *)
Lemma find_insert_path_inv path : forall q n,
  is_Some (find path (insert_path q n)) ->
  is_Some (find path n) \/ path `prefix_of` q.
Proof.
  induction path as [|l path IH]; intros q n H; [left; now eexists|].
  destruct q as [|m q]; [now left|].
  cbn [insert_path find] in H. rewrite children_Node in H.
  destruct (decide (m = l)) as [->|Hne].
  - rewrite lookup_insert_eq in H. apply IH in H as [H|H].
    + cbn [find]. destruct (children n !! l) as [c|]; [now left|].
      right. destruct path as [|l' path].
      * apply prefix_cons, prefix_nil.
      * cbn [find children] in H. rewrite lookup_empty in H. now destruct H.
    + right. now apply prefix_cons.
  - rewrite lookup_insert_ne in H by exact Hne. now left.
Qed.

Lemma snoc_prefix_snoc (pat q : list string) (x : string) :
  x ∉ q -> (pat ++ [x])%list `prefix_of` (q ++ [x])%list -> pat = q.
Proof.
  intros Hx [k Hk]. destruct k as [|y k _] using rev_ind.
  - rewrite app_nil_r in Hk. now apply app_inj_tail in Hk as [-> _].
  - rewrite !app_assoc in Hk. apply app_inj_tail in Hk as [-> _].
    exfalso. apply Hx. rewrite !elem_of_app. left. right. now left.
Qed.

(** The labels are pieces of the name: a byte of a label is a byte of
    the name. *)
Lemma split_from_bytes c s : forall odd l,
  In l (split_from s odd) -> ContainsByte l c = true ->
  ContainsByte s c = true.
Proof.
  induction s as [|x s IH]; intros odd l Hin Hc.
  - destruct Hin as [<-|[]]. discriminate.
  - cbn [split_from] in Hin. cbn [ContainsByte].
    destruct (Ascii.eqb x c) eqn:Hx; [reflexivity|].
    destruct (Ascii.eqb x dot && negb odd).
    + destruct s as [|y s]; [destruct Hin as [<-|[]]; discriminate|].
      destruct Hin as [<-|Hin]; [discriminate|]. now apply (IH false l).
    + set (odd' := if Ascii.eqb x backslash then negb odd else false) in *.
      destruct (split_from s odd') as [|l0 ls] eqn:Hs.
      * destruct Hin as [<-|[]]. cbn in Hc. now rewrite Hx in Hc.
      * destruct Hin as [<-|Hin].
        -- cbn [ContainsByte] in Hc. rewrite Hx in Hc.
           apply (IH odd' l0); [|exact Hc]. rewrite Hs. now left.
        -- apply (IH odd' l); [|exact Hc]. rewrite Hs. now right.
Qed.

Lemma accepted_labels_no_marker p :
  accepted p = true -> "!" ∉ rev (labels_of p).
Proof.
  intros Ha Hin. unfold accepted in Ha.
  destruct (Insert_cases New p) as [(_ & _ & H) | ((_ & H2 & _) & _)];
    [destruct (snd (Insert New p)); congruence|].
  cbv zeta in H2.
  apply list_elem_of_In, in_rev in Hin. rewrite ?rev_involutive in Hin.
  unfold labels_of, SplitDomainName in Hin.
  destruct (String.eqb (ToLower p) ""); [destruct Hin|].
  destruct (String.eqb (ToLower p) "."); [destruct Hin|].
  rewrite (split_from_bytes "!" _ _ _ Hin eq_refl) in H2. discriminate.
Qed.

(** A pattern stored after an insertion was stored before, or is the
    pattern inserted. *)
Lemma stored_Insert_inv pat lm p :
  stored pat (fst (Insert lm p)) = true ->
  stored pat lm = true \/ (accepted p = true /\ rev (labels_of p) = pat).
Proof.
  rewrite Insert_fst. destruct (accepted p) eqn:Ha; [|now left].
  intros H. apply stored_is_Some in H. cbn [root rev] in H.
  apply find_insert_path_inv in H as [H|H].
  - left. now apply stored_is_Some.
  - right. split; [reflexivity|]. symmetry.
    apply (snoc_prefix_snoc _ _ "!"); [|exact H].
    now apply accepted_labels_no_marker.
Qed.

Lemma stored_New pat : stored pat New = false.
Proof.
  unfold stored. rewrite find_app. cbn [New root].
  destruct pat as [|l pat]; cbn [find children]; now rewrite lookup_empty.
Qed.

Lemma stored_populate_inv pat ps : forall lm,
  stored pat (populate lm ps) = true ->
  stored pat lm = true
  \/ exists p, In p ps /\ accepted p = true /\ rev (labels_of p) = pat.
Proof.
  induction ps as [|q ps IH]; intros lm H; [now left|].
  cbn [populate fold_left] in H. apply IH in H as [H|(p & Hin & Ha & Hp)].
  - apply stored_Insert_inv in H as [H|[Ha Hp]]; [now left|].
    right. exists q. repeat split; [now left | exact Ha | exact Hp].
  - right. exists p. repeat split; [now right | exact Ha | exact Hp].
Qed.

Lemma pattern_matches_rev pat name :
  pattern_matches (rev pat) (rev name) -> pattern_matches pat name.
Proof.
  intros H. rewrite <- (rev_involutive pat), <- (rev_involutive name).
  unfold pattern_matches in *.
  induction H as [|p l ps ls Hpl _ IH]; [constructor|].
  cbn [rev]. apply Forall2_app; [exact IH|].
  constructor; [exact Hpl | constructor].
Qed.

(** X5: [Contains] never answers true for a name that no inserted
    pattern matches: in a trie filled by [Insert] calls, a name that is
    contained has as many labels as some accepted pattern of the calls,
    and each label of that pattern is the wildcard or the label of the
    name (in lower case) at the same place. *)
Theorem Contains_only_what_a_pattern_matches (ps : list string) (s : string) :
  Contains (populate New ps) s = true ->
  exists p,
    In p ps /\ accepted p = true
    /\ pattern_matches (labels_of p) (labels_of s).
Proof.
  intros H. apply Contains_stored_pattern in H as (pat & Hst & Hm).
  apply stored_populate_inv in Hst as [Hst|(p & Hin & Ha & Hp)].
  - now rewrite stored_New in Hst.
  - exists p. repeat split; try assumption.
    apply pattern_matches_rev. now rewrite Hp.
Qed.

Lemma Contains_only_what_a_pattern_matches_witness :
  exists p,
    In p ["sub1.example.com."; "*.example.com."; "sub2.*.example.com."]
    /\ accepted p = true
    /\ pattern_matches (labels_of p) (labels_of "Sub2.www.example.com").
Proof.
  apply (Contains_only_what_a_pattern_matches
           ["sub1.example.com."; "*.example.com."; "sub2.*.example.com."]
           "Sub2.www.example.com").
  vm_compute. reflexivity.
Defined.

End TrieSoundness.

(** ** The blocklist: what [Load] puts in and what [Contains] finds *)

Section BlocklistLookup.

Import Strings Dns names globtrie shape matching loader blocklist.

(** [Load] in one equation: the blocklist holds the entries of the
    lines, the count is their number, the error is the scanner's. *)
Lemma Load_holding (r : Scanner) :
  Load r
  = (holding (omap classify (lines r)),
     Z.of_nat (List.length (omap classify (lines r))),
     match Err r with
     | Some err => Some ("loading blocklist: " ++ err)
     | None => None
     end).
Proof.
  unfold Load, Load_loop.
  pose proof (Load_loop_from (lines r) {| bl := Empty; cnt := 0; logged := [] |})
    as H.
  cbv zeta in H. cbn [bl cnt Empty exact glob] in H.
  destruct H as (He & Hg & Hc).
  set (st := fold_left Load_line (lines r) _) in *.
  assert (Hbl : bl st = holding (omap classify (lines r))).
  { destruct (bl st) as [x g]. cbn in He, Hg. unfold holding. f_equal.
    - rewrite He. unfold stringset.New. set_solver.
    - exact Hg. }
  rewrite Hbl, Hc. now destruct (Err r).
Qed.

Lemma elem_of_exact_names n es :
  n ∈ exact_names es <-> ExactName n ∈ es.
Proof.
  induction es as [|e es IH]; [cbn; now rewrite !elem_of_nil|].
  cbn [exact_names flat_map]. fold (exact_names es).
  destruct e as [m|p]; cbn [app]; rewrite !elem_of_cons, ?IH; naive_solver.
Qed.

Lemma elem_of_glob_patterns p es :
  p ∈ glob_patterns es <-> GlobPattern p ∈ es.
Proof.
  induction es as [|e es IH]; [cbn; now rewrite !elem_of_nil|].
  cbn [glob_patterns flat_map]. fold (glob_patterns es).
  destruct e as [m|q]; cbn [app]; rewrite !elem_of_cons, ?IH; naive_solver.
Qed.

(** What [classify] says of a line. *)
Lemma classify_exact l n :
  classify l = Some (ExactName n)
  <-> snd (IsDomainName l) = true
      /\ ContainsByte (CanonicalName l) "*" = false
      /\ n = CanonicalName l.
Proof.
  unfold classify. destruct (snd (IsDomainName l)).
  - destruct (ContainsByte (CanonicalName l) "*").
    + destruct (trie_accepts (CanonicalName l)); split;
        try discriminate; intros (_ & ? & _); discriminate.
    + split; [intros [= <-]; now repeat split | now intros (_ & _ & ->)].
  - split; [discriminate | intros (? & _); discriminate].
Qed.

Lemma classify_glob l p :
  classify l = Some (GlobPattern p)
  <-> snd (IsDomainName l) = true
      /\ ContainsByte (CanonicalName l) "*" = true
      /\ trie_accepts p = true
      /\ p = CanonicalName l.
Proof.
  unfold classify. destruct (snd (IsDomainName l)).
  - destruct (ContainsByte (CanonicalName l) "*").
    + destruct (trie_accepts (CanonicalName l)) eqn:Ha.
      * split; [intros [= <-]; now repeat split | now intros (_ & _ & _ & ->)].
      * split; [discriminate | intros (_ & _ & H & ->); congruence].
    + split; [discriminate | intros (_ & ? & _); discriminate].
  - split; [discriminate | intros (? & _); discriminate].
Qed.

(** A legal line without wildcard is in the exact-name set under its
    canonical name. *)
Lemma Load_exact_member (ls : list string) (e : option error) (l : string) :
  In l ls ->
  snd (IsDomainName l) = true ->
  ContainsByte (CanonicalName l) "*" = false ->
  stringset.Contains
    (exact (fst (fst (Load {| lines := ls; Err := e |})))) (CanonicalName l)
  = true.
Proof.
  intros Hin Hd Hstar. rewrite Load_holding. cbn [fst lines].
  unfold holding. cbn [exact]. unfold stringset.Contains.
  apply bool_decide_eq_true. rewrite elem_of_list_to_set.
  apply elem_of_exact_names, list_elem_of_omap.
  exists l. split; [now apply list_elem_of_In|].
  now apply classify_exact.
Qed.

(** X6: every line that is a legal domain name without a wildcard is
    blocked under its canonical name, whatever the other lines are and
    whether the reading ended with an error or not. *)
Theorem Load_blocks_every_exact_line (ls : list string) (e : option error)
        (l : string) :
  In l ls ->
  snd (IsDomainName l) = true ->
  ContainsByte (CanonicalName l) "*" = false ->
  Contains (fst (fst (Load {| lines := ls; Err := e |}))) (CanonicalName l)
  = true.
Proof.
  intros Hin Hd Hstar. unfold Contains.
  now rewrite (Load_exact_member ls e l Hin Hd Hstar).
Qed.

Lemma Load_blocks_every_exact_line_witness :
  Contains
    (fst (fst (Load {| lines := ["*.example.org"; "not..legal"; "Example.COM"];
                       Err := Some "unexpected EOF" |})))
    (CanonicalName "Example.COM") = true.
Proof.
  apply (Load_blocks_every_exact_line
           ["*.example.org"; "not..legal"; "Example.COM"]
           (Some "unexpected EOF") "Example.COM").
  - vm_compute. tauto.
  - vm_compute. reflexivity.
  - vm_compute. reflexivity.
Defined.

Lemma omap_classify_cons l (ls : list string) :
  omap classify (l :: ls)
  = match classify l with
    | Some e => e :: omap classify ls
    | None => omap classify ls
    end.
Proof. reflexivity. Qed.

Lemma omap_classify_filter (ls : list string) :
  omap classify (filter (fun l => is_Some (classify l)) ls) = omap classify ls.
Proof.
  induction ls as [|l ls IH]; [reflexivity|].
  rewrite filter_cons, (omap_classify_cons l ls).
  destruct (decide (is_Some (classify l))) as [Hs|Hn].
  - rewrite omap_classify_cons. destruct (classify l); [|now destruct Hs].
    now rewrite IH.
  - destruct (classify l); [|exact IH]. exfalso. apply Hn. now eexists.
Qed.

Lemma omap_classify_length (ls : list string) :
  (List.length (omap classify ls) <= List.length ls)%nat.
Proof.
  induction ls as [|l ls IH]; [reflexivity|].
  rewrite omap_classify_cons.
  destruct (classify l); cbn [List.length]; lia.
Qed.

Lemma omap_classify_kept_length (ls : list string) :
  List.length (omap classify ls)
  = List.length (filter (fun l => is_Some (classify l)) ls).
Proof.
  induction ls as [|l ls IH]; [reflexivity|].
  rewrite filter_cons, omap_classify_cons.
  destruct (decide (is_Some (classify l))) as [Hs|Hn].
  - destruct (classify l); [|now destruct Hs]. cbn [List.length]. now rewrite IH.
  - destruct (classify l); [|exact IH]. exfalso. apply Hn. now eexists.
Qed.

(** X7: the lines [Load] skips (not a legal domain name, or a wildcard
    pattern the trie turns down) have no effect: without them the
    source gives the same blocklist, count and error.  The count is the
    number of the lines kept, at most the number of lines. *)
Theorem Load_skipped_lines_have_no_effect (ls : list string) (e : option error) :
  Load {| lines := filter (fun l => is_Some (classify l)) ls; Err := e |}
  = Load {| lines := ls; Err := e |}
  /\ snd (fst (Load {| lines := ls; Err := e |}))
     = Z.of_nat (List.length (filter (fun l => is_Some (classify l)) ls))
  /\ 0 <= snd (fst (Load {| lines := ls; Err := e |}))
       <= Z.of_nat (List.length ls).
Proof.
  rewrite !Load_holding. cbn [lines Err fst snd].
  rewrite omap_classify_filter. split; [reflexivity|]. split.
  - now rewrite omap_classify_kept_length.
  - pose proof (omap_classify_length ls). lia.
Qed.

Lemma Permutation_exact_names es es' :
  es ≡ₚ es' -> exact_names es ≡ₚ exact_names es'.
Proof.
  induction 1 as [|x l l' _ IH|x y l|l l' l'' _ IH1 _ IH2].
  - reflexivity.
  - cbn [exact_names flat_map]. now apply Permutation_app_head.
  - cbn [exact_names flat_map]. rewrite !app_assoc.
    apply Permutation_app_tail, Permutation_app_comm.
  - now rewrite IH1.
Qed.

Lemma Permutation_glob_patterns es es' :
  es ≡ₚ es' -> glob_patterns es ≡ₚ glob_patterns es'.
Proof.
  induction 1 as [|x l l' _ IH|x y l|l l' l'' _ IH1 _ IH2].
  - reflexivity.
  - cbn [glob_patterns flat_map]. now apply Permutation_app_head.
  - cbn [glob_patterns flat_map]. rewrite !app_assoc.
    apply Permutation_app_tail, Permutation_app_comm.
  - now rewrite IH1.
Qed.

(** X8: the order of insertion does not matter: the trie built from a
    list of patterns, and the blocklist, count and error that [Load]
    returns for a list of lines, are the same for every order of the
    list. *)
Theorem insertion_order_is_irrelevant (lm : GlobTrie) (ps qs : list string)
        (e : option error) :
  ps ≡ₚ qs ->
  populate lm ps = populate lm qs
  /\ Load {| lines := ps; Err := e |} = Load {| lines := qs; Err := e |}.
Proof.
  intros Hp. split; [now apply populate_perm|].
  rewrite !Load_holding. cbn [lines Err].
  assert (He : omap classify ps ≡ₚ omap classify qs) by now rewrite Hp.
  assert (Hh : holding (omap classify ps) = holding (omap classify qs)).
  { unfold holding. f_equal.
    - apply list_to_set_perm_L, Permutation_exact_names, He.
    - apply populate_perm, Permutation_glob_patterns, He. }
  now rewrite Hh, (Permutation_length He).
Qed.

Lemma insertion_order_is_irrelevant_witness :
  populate test_trie ["x.sub1.example.com."; "*.example.org."]
  = populate test_trie ["*.example.org."; "x.sub1.example.com."]
  /\ Load {| lines := ["x.sub1.example.com."; "*.example.org."];
             Err := None |}
     = Load {| lines := ["*.example.org."; "x.sub1.example.com."];
               Err := None |}.
Proof.
  apply (insertion_order_is_irrelevant test_trie
           ["x.sub1.example.com."; "*.example.org."]
           ["*.example.org."; "x.sub1.example.com."] None).
  apply perm_swap.
Defined.

(** X9: [Contains] never blocks a name that no line of the source
    stands for: a name the loaded blocklist contains is the canonical
    form of a legal line without wildcard, or is matched label by label
    (in lower case) by the canonical form of a legal line with a
    wildcard. *)
Theorem Load_blocks_only_what_a_line_matches (ls : list string)
        (e : option error) (n : string) :
  Contains (fst (fst (Load {| lines := ls; Err := e |}))) n = true ->
  exists l,
    In l ls /\ snd (IsDomainName l) = true
    /\ (ContainsByte (CanonicalName l) "*" = false
           /\ n = CanonicalName l
        \/ ContainsByte (CanonicalName l) "*" = true
           /\ pattern_matches (labels_of (CanonicalName l)) (labels_of n)).
Proof.
  rewrite Load_holding. cbn [fst lines]. unfold Contains, holding.
  cbn [exact glob]. intros H. apply orb_prop in H as [H|H].
  - unfold stringset.Contains in H. apply bool_decide_eq_true in H.
    rewrite elem_of_list_to_set in H.
    apply elem_of_exact_names, list_elem_of_omap in H as (l & Hin & Hc).
    apply classify_exact in Hc as (Hd & Hs & ->).
    exists l. repeat split; [now apply list_elem_of_In | exact Hd | now left].
  - apply Contains_stored_pattern in H as (pat & Hst & Hm).
    apply stored_populate_inv in Hst as [Hst|(p & Hin & Ha & Hp)];
      [now rewrite stored_New in Hst|].
    apply list_elem_of_In, elem_of_glob_patterns, list_elem_of_omap in Hin
      as (l & Hin & Hc).
    apply classify_glob in Hc as (Hd & Hs & _ & ->).
    exists l. repeat split; [now apply list_elem_of_In | exact Hd |].
    right. split; [exact Hs|]. apply pattern_matches_rev. now rewrite Hp.
Qed.

Lemma Load_blocks_only_what_a_line_matches_witness :
  exists l,
    In l ["sub1.example.com"; "*.Example.com"; "not..legal"]
    /\ snd (IsDomainName l) = true
    /\ (ContainsByte (CanonicalName l) "*" = false
           /\ "WWW.example.com." = CanonicalName l
        \/ ContainsByte (CanonicalName l) "*" = true
           /\ pattern_matches (labels_of (CanonicalName l))
                (labels_of "WWW.example.com.")).
Proof.
  apply (Load_blocks_only_what_a_line_matches
           ["sub1.example.com"; "*.Example.com"; "not..legal"] None
           "WWW.example.com.").
  vm_compute. reflexivity.
Defined.

(** X10: nothing is contained before anything is inserted: the empty
    string set, the empty trie and the empty blocklist contain no
    name. *)
Theorem empty_contains_nothing (s : string) :
  stringset.Contains stringset.New s = false
  /\ globtrie.Contains globtrie.New s = false
  /\ Contains Empty s = false.
Proof.
  assert (Hs : stringset.Contains stringset.New s = false).
  { unfold stringset.Contains, stringset.New.
    apply bool_decide_eq_false. set_solver. }
  split; [exact Hs|]. split; [apply Contains_New|].
  unfold Contains, Empty. cbn [exact glob]. now rewrite Hs, Contains_New.
Qed.

(** *** What [Load] returns, line by line *)

Lemma trie_accepts_checks p :
  trie_accepts p
  = snd (IsDomainName (ToLower p))
    && negb (ContainsByte (ToLower p) "!")
    && (2 <=? Z.of_nat (List.length (SplitDomainName (ToLower p)))).
Proof.
  unfold trie_accepts, Insert.
  destruct (snd (IsDomainName (ToLower p))); cbn [negb andb]; [|reflexivity].
  destruct (ContainsByte (ToLower p) "!"); cbn [negb andb]; [reflexivity|].
  rewrite Z.leb_antisym.
  destruct (Z.of_nat (List.length (SplitDomainName (ToLower p))) <? 2);
    reflexivity.
Qed.

Lemma classify_exact_line l n :
  classify l = Some (ExactName n)
  <-> kept.exact_line l = true /\ n = CanonicalName l.
Proof.
  rewrite classify_exact. unfold kept.exact_line.
  rewrite andb_true_iff, negb_true_iff. tauto.
Qed.

Lemma classify_pattern_line l p :
  classify l = Some (GlobPattern p)
  <-> kept.pattern_line l = true /\ p = CanonicalName l.
Proof.
  rewrite classify_glob. unfold kept.pattern_line. cbv zeta.
  rewrite <- trie_accepts_checks, !andb_true_iff.
  split.
  - intros (Hd & Hs & Ha & ->). now repeat split.
  - intros (((Hd & Hs) & Ha) & ->). now repeat split.
Qed.

Lemma classify_kept l :
  match classify l with Some _ => true | None => false end
  = kept.exact_line l || kept.pattern_line l.
Proof.
  unfold classify, kept.exact_line, kept.pattern_line. cbv zeta.
  rewrite <- trie_accepts_checks.
  destruct (snd (IsDomainName l)); cbn [andb orb negb]; [|reflexivity].
  destruct (ContainsByte (CanonicalName l) "*"); cbn [andb orb negb];
    [|reflexivity].
  now destruct (trie_accepts (CanonicalName l)).
Qed.

Lemma omap_classify_kept (ls : list string) :
  List.length (omap classify ls)
  = List.length
      (List.filter (fun l => kept.exact_line l || kept.pattern_line l) ls).
Proof.
  induction ls as [|l ls IH]; [reflexivity|].
  rewrite omap_classify_cons. cbn [List.filter].
  rewrite <- classify_kept.
  destruct (classify l); cbn [List.length]; now rewrite IH.
Qed.

(** C10: when the scanner stops on a read error, [Load] returns that
    error together with what the lines read before it give, which is
    what the same lines give without a read error, where the error is
    [nil] whatever the lines are.  The blocklist returned holds
    exactly the lines that passed the checks: its set of exact names
    holds the canonical names of the valid lines without wildcard and
    nothing else, the patterns stored in its trie (a path of labels
    that ends in the terminal marker) are those of the valid wildcard
    lines that [Insert] takes and no others, and the count is the
    number of all these lines.  Every exact line read is blocked. *)
Theorem Load_keeps_what_was_read (ls : list string) (e : error) :
  let r := Load {| lines := ls; Err := Some e |} in
  let b := fst (fst r) in
  snd r = Some ("loading blocklist: " ++ e)
  /\ Load {| lines := ls; Err := None |} = (b, snd (fst r), None)
  /\ snd (fst r)
     = Z.of_nat
         (List.length
            (List.filter
               (fun l => kept.exact_line l || kept.pattern_line l) ls))
  /\ (forall n,
        stringset.Contains (exact b) n = true
        <-> exists l,
              In l ls /\ kept.exact_line l = true /\ n = CanonicalName l)
  /\ (forall path,
        stored path (glob b) = true
        <-> exists l,
              In l ls /\ kept.pattern_line l = true
              /\ path = kept.path_of l)
  /\ (forall l,
        In l ls -> kept.exact_line l = true ->
        Contains b (CanonicalName l) = true).
Proof.
  cbv zeta. rewrite !Load_holding. cbn [lines Err fst snd].
  split; [reflexivity|]. split; [reflexivity|].
  split; [now rewrite omap_classify_kept|].
  unfold holding. cbn [exact glob]. split; [|split].
  - intros n. unfold stringset.Contains.
    rewrite bool_decide_eq_true, elem_of_list_to_set, elem_of_exact_names,
      list_elem_of_omap.
    split.
    + intros (l & Hin & Hc). apply classify_exact_line in Hc as [Hk ->].
      exists l. repeat split; [now apply list_elem_of_In | exact Hk].
    + intros (l & Hin & Hk & ->). exists l.
      split; [now apply list_elem_of_In|].
      now apply classify_exact_line.
  - intros path. split.
    + intros H.
      apply stored_populate_inv in H as [H|(p & Hin & _ & Hp)];
        [now rewrite stored_New in H|].
      apply list_elem_of_In, elem_of_glob_patterns, list_elem_of_omap in Hin
        as (l & Hin & Hc).
      apply classify_pattern_line in Hc as [Hk ->].
      exists l. repeat split; [now apply list_elem_of_In | exact Hk |].
      now rewrite <- Hp.
    + intros (l & Hin & Hk & ->). unfold kept.path_of.
      apply stored_after_populate.
      * apply list_elem_of_In, elem_of_glob_patterns, list_elem_of_omap.
        exists l. split; [now apply list_elem_of_In|].
        now apply classify_pattern_line.
      * assert (Hc : classify l = Some (GlobPattern (CanonicalName l)))
          by now apply classify_pattern_line.
        apply classify_glob in Hc as (_ & _ & Ha & _).
        unfold trie_accepts in Ha.
        now destruct (snd (Insert New (CanonicalName l))).
  - intros l Hin Hk. unfold kept.exact_line in Hk.
    apply andb_true_iff in Hk as [Hd Hs]. apply negb_true_iff in Hs.
    pose proof (Load_exact_member ls (Some e) l Hin Hd Hs) as H.
    rewrite Load_holding in H. cbn [lines fst] in H.
    unfold holding in H. cbn [exact] in H.
    unfold Contains. cbn [exact glob]. now rewrite H.
Qed.

End BlocklistLookup.

(** ** The dispatcher: replies, upstream exchanges and the selector *)

Section DispatcherFlow.

Import Dns dnsqueryhandler dispatch sample2.

Lemma written_logs {X} (l : list X) level msg :
  written (map (fun _ => Log level msg) l) = [].
Proof. induction l as [|x l IH]; [reflexivity | exact IH]. Qed.

Lemma exchanges_logs {X} (l : list X) level msg :
  exchanges (map (fun _ => Log level msg) l) = [].
Proof. induction l as [|x l IH]; [reflexivity | exact IH]. Qed.

Lemma error_reply_is_reply r : is_reply_to r (error_reply r).
Proof.
  unfold is_reply_to, error_reply, SetRcode, SetReply. cbn.
  repeat split; now destruct (Questions r).
Qed.

Lemma answer_is_reply r ans : is_reply_to r (SetReply (Msg_with_answer ans) r).
Proof.
  unfold is_reply_to, SetReply. cbn. repeat split; now destruct (Questions r).
Qed.

Ltac reply_facts Hw He reply :=
  rewrite ?written_app, ?exchanges_app, ?Hw, ?He,
    ?written_logs, ?exchanges_logs;
  split; [reflexivity|]; split; [apply reply|].

Ltac no_upstream Hw He reply :=
  left; eexists _, _; split; [reflexivity|];
  reply_facts Hw He reply; split; [reflexivity|].

Ltac upstream Hw He reply :=
  eexists _, _; do 4 (split; [reflexivity|]);
  reply_facts Hw He reply; reflexivity.

(** The cases of [HandleAandAAAA], told by what decides them. *)
Lemma HandleAandAAAA_cases s env r :
  (* no upstream: the request identifier failed, the query is turned
     down, or the name is blocked *)
  (exists evs m,
      HandleAandAAAA s env r = Returned (evs, nameservers s)
      /\ written evs = [m] /\ is_reply_to r m /\ exchanges evs = []
      /\ ((exists e, rand env = inr e) \/ forwarded s r = false))
  \/ (* forwarded, and the selector panics *)
  (exists hex msg,
      rand env = inl hex /\ forwarded s r = true
      /\ roundrobin.Next (nameservers s) = Panicked msg
      /\ HandleAandAAAA s env r = Panicked msg)
  \/ (* forwarded to the address the selector gives *)
  (exists hex nameserver ns' evs m,
      rand env = inl hex /\ forwarded s r = true
      /\ roundrobin.Next (nameservers s) = Returned (nameserver, ns')
      /\ HandleAandAAAA s env r = Returned (evs, ns')
      /\ written evs = [m] /\ is_reply_to r m
      /\ exchanges evs = [(upstream_query env r, nameserver)]).
Proof.
  destruct (addr_events_silent (remote_is_ip env)) as [Hw He].
  unfold HandleAandAAAA, forwarded, upstream_query.
  destruct (rand env) as [hex|e]; cbn [generateRequestID].
  2:{ no_upstream Hw He error_reply_is_reply. left. now eexists. }
  destruct (Questions r) as [|q qs] eqn:Hq.
  { no_upstream Hw He error_reply_is_reply. now right. }
  destruct (Qclass q =? ClassINET); cbn [negb andb].
  2:{ no_upstream Hw He error_reply_is_reply. now right. }
  destruct (isValidQtype (Qtype q)); cbn [negb andb].
  2:{ no_upstream Hw He error_reply_is_reply. now right. }
  destruct (blocklist.Contains (blocklist s) (Fqdn (Name q))); cbn [negb].
  { no_upstream Hw He answer_is_reply. now right. }
  right.
  destruct (roundrobin.Next (nameservers s)) as [[nameserver ns']|msg].
  2:{ left. exists hex, msg. now repeat split. }
  right. exists hex, nameserver, ns'.
  match goal with
  | |- context [exchanger s ?u nameserver] =>
      destruct (exchanger s u nameserver) as [ures|err]
  end.
  2:{ upstream Hw He error_reply_is_reply. }
  cbn [Id]. destruct (negb (fresh_id env =? Id ures)).
  { upstream Hw He error_reply_is_reply. }
  destruct (Z.of_nat (List.length (Answer ures)) <? 1).
  { upstream Hw He error_reply_is_reply. }
  upstream Hw He answer_is_reply.
Qed.

(** X11: whenever [HandleAandAAAA] returns, it has written exactly one
    message to the client, a reply to the request (its identifier and
    opcode, the response bit, its first question), and has made at most
    one upstream exchange. *)
Theorem every_request_gets_one_reply s env r evs ns :
  HandleAandAAAA s env r = Returned (evs, ns) ->
  exists m,
    written evs = [m] /\ is_reply_to r m
    /\ (List.length (exchanges evs) <= 1)%nat.
Proof.
  intros H.
  destruct (HandleAandAAAA_cases s env r)
    as [(evs' & m & H' & Hw & Hr & He & _)
       |[(hex & msg & _ & _ & _ & H')
        |(hex & a & ns' & evs' & m & _ & _ & _ & H' & Hw & Hr & He)]];
    rewrite H in H'; try discriminate; injection H' as <- _;
    exists m; rewrite He;
    (split; [exact Hw|]); (split; [exact Hr|]); cbn; lia.
Qed.

Lemma every_request_gets_one_reply_witness :
  exists m,
    written
      [Log "info" "refusing to answer because there are no questions";
       writeErr sample.no_question RcodeRefused] = [m]
    /\ is_reply_to sample.no_question m
    /\ (List.length
          (exchanges
             [Log "info" "refusing to answer because there are no questions";
              writeErr sample.no_question RcodeRefused]) <= 1)%nat.
Proof.
  apply (every_request_gets_one_reply sample.handler sample.env
           sample.no_question _ (nameservers sample.handler)).
  reflexivity.
Defined.

(** X12: a query goes upstream exactly when the request identifier was
    drawn and the first question is served and not blocked; the
    exchange then goes to the address [Next] returned, with a query
    that has the fresh identifier, the recursion-desired bit and the
    question of the request, and the selector is left advanced by that
    one call.  In every other case the selector is left untouched.
    [HandleAandAAAA] panics only when that call of [Next] does. *)
Theorem upstream_exactly_when_forwarded s env r :
  match HandleAandAAAA s env r with
  | Panicked msg =>
      (exists hex, rand env = inl hex) /\ forwarded s r = true
      /\ roundrobin.Next (nameservers s) = Panicked msg
  | Returned (evs, ns) =>
      (exchanges evs = [] /\ ns = nameservers s
       /\ ((exists e, rand env = inr e) \/ forwarded s r = false))
      \/ (exists hex nameserver,
             rand env = inl hex /\ forwarded s r = true
             /\ roundrobin.Next (nameservers s) = Returned (nameserver, ns)
             /\ exchanges evs = [(upstream_query env r, nameserver)])
  end.
Proof.
  destruct (HandleAandAAAA_cases s env r)
    as [(evs & m & H & _ & _ & He & Hc)
       |[(hex & msg & Hr & Hf & Hn & H)
        |(hex & a & ns' & evs & m & Hr & Hf & Hn & H & _ & _ & He)]];
    rewrite H.
  - left. now repeat split.
  - split; [now exists hex|]. now split.
  - right. exists hex, a. now repeat split.
Qed.

(** X13: when the upstream answers under the identifier of the
    outbound query with at least one record, the client gets a reply
    with the success code that carries the records of the upstream
    answer, all of them and in their order. *)
Theorem upstream_answers_are_relayed s env r hex nameserver ns' ures :
  rand env = inl hex ->
  forwarded s r = true ->
  roundrobin.Next (nameservers s) = Returned (nameserver, ns') ->
  exchanger s (upstream_query env r) nameserver = inl ures ->
  Id ures = fresh_id env ->
  Answer ures <> [] ->
  exists evs m,
    HandleAandAAAA s env r = Returned (evs, ns')
    /\ written evs = [m]
    /\ is_reply_to r m
    /\ Rcode m = RcodeSuccess
    /\ Answer m = Answer ures.
Proof.
  intros Hrand Hfwd Hnext Hex Hid Hans.
  destruct (forwarded_question s r Hfwd) as (q & qs & Hq & Hc & Ht & Hb).
  unfold HandleAandAAAA, upstream_query in *.
  rewrite Hrand. cbn [generateRequestID]. rewrite Hq in *.
  rewrite Hc, Ht, Hb, Hnext, Hex. cbn [negb Id].
  rewrite Hid, Z.eqb_refl. cbn [negb].
  destruct (Answer ures) as [|a ans] eqn:Ha; [congruence|].
  replace (Z.of_nat (List.length (a :: ans)) <? 1) with false
    by (symmetry; apply Z.ltb_ge; cbn [List.length]; lia).
  destruct (addr_events_silent (remote_is_ip env)) as [Hw He].
  eexists _, _. split; [reflexivity|].
  rewrite !written_app, Hw, written_logs.
  split; [reflexivity|]. split; [apply answer_is_reply|]. split; reflexivity.
Qed.

Lemma upstream_answers_are_relayed_witness :
  exists evs m,
    HandleAandAAAA answering_handler sample.env
      (sample.query "example.com" TypeA ClassINET)
    = Returned (evs, {| roundrobin.list := ["192.0.2.1:53"; "192.0.2.2:53"];
                        roundrobin.idx := 1 |})
    /\ written evs = [m]
    /\ is_reply_to (sample.query "example.com" TypeA ClassINET) m
    /\ Rcode m = RcodeSuccess
    /\ Answer m
       = Answer {| Id := 4242; Response := true; Opcode := OpcodeQuery;
                   RecursionDesired := true; CheckingDisabled := false;
                   Rcode := RcodeSuccess;
                   Questions := [{| Name := "example.com."; Qtype := TypeA;
                                    Qclass := ClassINET |}];
                   Answer := [example_com_address] |}.
Proof.
  apply (upstream_answers_are_relayed answering_handler sample.env
           (sample.query "example.com" TypeA ClassINET)
           "00112233445566778899aabbccddeeff" "192.0.2.1:53").
  - reflexivity.
  - vm_compute. reflexivity.
  - reflexivity.
  - reflexivity.
  - reflexivity.
  - discriminate.
Defined.

(** The questions after the first change nothing. *)
Lemma only_the_first_question_counts s env r q qs :
  HandleAandAAAA s env (with_questions r (q :: qs))
  = HandleAandAAAA s env (with_questions r [q]).
Proof. reflexivity. Qed.

Lemma written_Exchange u a evs : written (Exchange u a :: evs) = written evs.
Proof. reflexivity. Qed.

Lemma exchanges_Exchange u a evs :
  exchanges (Exchange u a :: evs) = (u, a) :: exchanges evs.
Proof. reflexivity. Qed.

Ltac no_records H Hin Hans Hw :=
  injection H as <- <-;
  rewrite ?written_app, ?Hw, ?written_logs in Hin; cbn in Hin;
  destruct Hin as [<-|[]]; exfalso; apply Hans; reflexivity.

(** X14: the records of a reply come from one of two places only.  A
    message written to the client that carries records is either the
    local answer for a blocked name, written without any upstream
    exchange, or it carries the records of the response that the one
    upstream exchange of this request returned under the identifier
    of the outbound query.  A response under another identifier is
    never relayed. *)
Theorem records_are_local_or_from_the_matching_response
        s env r evs ns m :
  HandleAandAAAA s env r = Returned (evs, ns) ->
  In m (written evs) ->
  Answer m <> [] ->
  (exists q qs,
      Questions r = q :: qs
      /\ blocklist.Contains (blocklist s) (Fqdn (Name q)) = true
      /\ exchanges evs = []
      /\ Answer m
         = [generateBlockedAnswer (Fqdn (Name q)) (Qtype q) (Qclass q)])
  \/ (exists nameserver ures,
        exchanges evs = [(upstream_query env r, nameserver)]
        /\ exchanger s (upstream_query env r) nameserver = inl ures
        /\ Id ures = fresh_id env
        /\ Answer m = Answer ures).
Proof.
  destruct (addr_events_silent (remote_is_ip env)) as [Hw He].
  unfold HandleAandAAAA, upstream_query.
  destruct (rand env) as [hex|e]; cbn [generateRequestID]; intros H Hin Hans.
  2:{ no_records H Hin Hans Hw. }
  destruct (Questions r) as [|q qs] eqn:Hq.
  { no_records H Hin Hans Hw. }
  destruct (negb (Qclass q =? ClassINET)).
  { no_records H Hin Hans Hw. }
  destruct (negb (isValidQtype (Qtype q))).
  { no_records H Hin Hans Hw. }
  destruct (blocklist.Contains (blocklist s) (Fqdn (Name q))) eqn:Hb.
  { left. exists q, qs. injection H as <- <-.
    rewrite written_app, Hw in Hin. cbn in Hin. destruct Hin as [<-|[]].
    rewrite exchanges_app, He. now repeat split. }
  destruct (roundrobin.Next (nameservers s)) as [[nameserver ns']|msg];
    [|discriminate].
  match type of H with
  | context [exchanger s ?u nameserver] =>
      destruct (exchanger s u nameserver) as [ures|err] eqn:Hex
  end.
  2:{ no_records H Hin Hans Hw. }
  cbn [Id] in H. destruct (fresh_id env =? Id ures) eqn:Hid; cbn [negb] in H.
  2:{ no_records H Hin Hans Hw. }
  destruct (Z.of_nat (List.length (Answer ures)) <? 1).
  { no_records H Hin Hans Hw. }
  right. exists nameserver, ures. cbv zeta in H. injection H as <- <-.
  rewrite !written_app, Hw, written_Exchange, written_app, written_logs
    in Hin.
  cbn in Hin.
  destruct Hin as [<-|[]].
  rewrite !exchanges_app, He, exchanges_Exchange, exchanges_app,
    exchanges_logs.
  apply Z.eqb_eq in Hid. now repeat split.
Qed.

Lemma records_are_local_or_from_the_matching_response_witness :
  (exists q qs,
      Questions (sample.query "example.com" TypeA ClassINET) = q :: qs
      /\ blocklist.Contains (blocklist answering_handler) (Fqdn (Name q))
         = true
      /\ exchanges
           (events_of
              (HandleAandAAAA answering_handler sample.env
                 (sample.query "example.com" TypeA ClassINET))) = []
      /\ Answer
           (SetReply (Msg_with_answer [example_com_address])
              (sample.query "example.com" TypeA ClassINET))
         = [generateBlockedAnswer (Fqdn (Name q)) (Qtype q) (Qclass q)])
  \/ (exists nameserver ures,
        exchanges
          (events_of
             (HandleAandAAAA answering_handler sample.env
                (sample.query "example.com" TypeA ClassINET)))
        = [(upstream_query sample.env
              (sample.query "example.com" TypeA ClassINET), nameserver)]
        /\ exchanger answering_handler
             (upstream_query sample.env
                (sample.query "example.com" TypeA ClassINET)) nameserver
           = inl ures
        /\ Id ures = fresh_id sample.env
        /\ Answer
             (SetReply (Msg_with_answer [example_com_address])
                (sample.query "example.com" TypeA ClassINET))
           = Answer ures).
Proof.
  apply (records_are_local_or_from_the_matching_response
           answering_handler sample.env
           (sample.query "example.com" TypeA ClassINET)
           (events_of
              (HandleAandAAAA answering_handler sample.env
                 (sample.query "example.com" TypeA ClassINET)))
           {| roundrobin.list := ["192.0.2.1:53"; "192.0.2.2:53"];
              roundrobin.idx := 1 |}).
  - vm_compute. reflexivity.
  - vm_compute. left. reflexivity.
  - discriminate.
Defined.

(** X15: the loader and the dispatcher together: after [Load], a query
    of type A and class INET whose fully qualified name is the
    canonical form of a legal line without wildcard is answered with
    the IPv4 zero address for that name, without upstream exchange and
    without a call of the selector. *)
Theorem loaded_name_is_answered_locally s env r hex q qs
        (ls : list string) (e : option error) (l : string) :
  rand env = inl hex ->
  Questions r = q :: qs ->
  Qclass q = ClassINET ->
  Qtype q = TypeA ->
  blocklist s = fst (fst (blocklist.Load {| blocklist.lines := ls;
                                            blocklist.Err := e |})) ->
  In l ls ->
  snd (IsDomainName l) = true ->
  Strings.ContainsByte (CanonicalName l) "*" = false ->
  Fqdn (Name q) = CanonicalName l ->
  exists evs,
    HandleAandAAAA s env r = Returned (evs, nameservers s)
    /\ exchanges evs = []
    /\ written evs
       = [SetReply
            (Msg_with_answer
               [A {| HdrName := CanonicalName l; Rrtype := TypeA;
                     Class := ClassINET; Ttl := 0 |} IPv4zero]) r].
Proof.
  intros Hrand Hq Hc Ht Hbl Hin Hd Hstar Hn.
  rewrite <- Hn. apply (blocked_A_gets_A_record s env r hex q qs);
    try assumption.
  rewrite Hbl, Hn. unfold blocklist.Contains.
  now rewrite (Load_exact_member ls e l Hin Hd Hstar).
Qed.

Lemma loaded_name_is_answered_locally_witness :
  exists evs,
    HandleAandAAAA sample.handler sample.env
      (sample.query "sub1.example.com" TypeA ClassINET)
    = Returned (evs, nameservers sample.handler)
    /\ exchanges evs = []
    /\ written evs
       = [SetReply
            (Msg_with_answer
               [A {| HdrName := CanonicalName "sub1.example.com.";
                     Rrtype := TypeA; Class := ClassINET; Ttl := 0 |}
                  IPv4zero])
            (sample.query "sub1.example.com" TypeA ClassINET)].
Proof.
  apply (loaded_name_is_answered_locally sample.handler sample.env
           (sample.query "sub1.example.com" TypeA ClassINET)
           "00112233445566778899aabbccddeeff"
           {| Name := "sub1.example.com"; Qtype := TypeA; Qclass := ClassINET |}
           [] ["sub1.example.com."; "*.example.com."] None
           "sub1.example.com.").
  - reflexivity.
  - reflexivity.
  - reflexivity.
  - reflexivity.
  - reflexivity.
  - vm_compute. tauto.
  - vm_compute. reflexivity.
  - vm_compute. reflexivity.
  - vm_compute. reflexivity.
Defined.

End DispatcherFlow.

(** ** The selector over many calls *)

Section RoundRobinCycle.

Import roundrobin.

(** The elements met from the cursor [i] in [n] calls, when the cycle
    is not closed before: a part of the list. *)
Lemma cycle_values (ss : Datatypes.list string) (i n : nat) :
  (i + n <= List.length ss)%nat ->
  map (fun k => nth ((i + k) mod List.length ss) ss "") (seq 0 n)
  = take n (drop i ss).
Proof.
  revert i. induction n as [|n IH]; intros i Hle; [reflexivity|].
  cbn [seq map]. rewrite <- seq_shift, map_map.
  destruct (lookup_lt_is_Some_2 ss i ltac:(lia)) as [s Hs].
  rewrite (drop_S _ _ _ Hs). cbn [take]. f_equal.
  - rewrite Nat.add_0_r, Nat.mod_small by lia.
    now apply nth_lookup_Some with (d := "").
  - rewrite <- (IH (S i)) by lia. apply map_ext. intros k.
    do 2 f_equal. lia.
Qed.

Lemma seq_from (a n : nat) :
  map (fun k => a + k)%nat (seq 0 n) = seq a n.
Proof.
  revert a. induction n as [|n IH]; intros a; [reflexivity|].
  cbn [seq map]. rewrite Nat.add_0_r. f_equal.
  rewrite <- seq_shift, map_map, <- (IH (S a)).
  apply map_ext. intros k. lia.
Qed.

Lemma cycle_values_split (ss : Datatypes.list string) (i : nat) :
  (i < List.length ss)%nat ->
  map (fun k => nth ((i + k) mod List.length ss) ss "")
      (seq 0 (List.length ss))
  = (drop i ss ++ take i ss)%list.
Proof.
  intros Hi.
  assert (E : seq 0 (List.length ss)
              = (seq 0 (List.length ss - i)
                 ++ seq (List.length ss - i) i)%list).
  { rewrite <- seq_app. f_equal. lia. }
  rewrite E, map_app. clear E. f_equal.
  - rewrite cycle_values by lia.
    apply take_ge. rewrite length_drop. lia.
  - transitivity (take i (drop 0 ss)); [|reflexivity].
    rewrite <- (cycle_values ss 0 i) by lia.
    replace (seq (List.length ss - i) i)
      with (map (fun k => (List.length ss - i) + k)%nat (seq 0 i)).
    + rewrite map_map. apply map_ext_in.
      intros k Hk. apply in_seq in Hk. f_equal.
      replace (i + (List.length ss - i + k))%nat
        with (k + 1 * List.length ss)%nat by lia.
      now rewrite Nat.Div0.mod_add.
    + apply seq_from.
Qed.

(** X16: from any cursor inside the list, as many calls of [Next] as
    the list has entries return every entry once, those from the
    cursor to the end and then those before the cursor, and leave the
    selector as it was.  On a new selector this is the list itself. *)
Theorem full_cycle_returns_every_entry_once
        (ss : Datatypes.list string) (i : nat) :
  (i < List.length ss)%nat ->
  Next_n (List.length ss) {| list := ss; idx := Z.of_nat i |}
  = Returned ((drop i ss ++ take i ss)%list,
              {| list := ss; idx := Z.of_nat i |})
  /\ Next_n (List.length ss) (New ss) = Returned (ss, New ss).
Proof.
  intros Hi.
  assert (Hne : ss <> []) by (destruct ss; cbn in Hi; [lia|congruence]).
  assert (Hi0 : (0 < List.length ss)%nat) by lia.
  split.
  - rewrite (Next_n_from ss (List.length ss) i Hne Hi).
    rewrite cycle_values_split by assumption. do 3 f_equal.
    replace (i + List.length ss)%nat with (i + 1 * List.length ss)%nat by lia.
    rewrite Nat.Div0.mod_add. now rewrite Nat.mod_small.
  - unfold New. change 0 with (Z.of_nat 0).
    rewrite (Next_n_from ss (List.length ss) 0 Hne Hi0).
    rewrite cycle_values_split by assumption.
    rewrite drop_0, take_0, app_nil_r. do 3 f_equal.
    cbn [Nat.add]. now rewrite Nat.Div0.mod_same.
Qed.

Lemma full_cycle_returns_every_entry_once_witness :
  Next_n 3 {| list := ["A"; "B"; "C"]; idx := 1 |}
  = Returned (["B"; "C"; "A"], {| list := ["A"; "B"; "C"]; idx := 1 |})
  /\ Next_n 3 (New ["A"; "B"; "C"]) = Returned (["A"; "B"; "C"], New ["A"; "B"; "C"]).
Proof.
  apply (full_cycle_returns_every_entry_once ["A"; "B"; "C"] 1).
  cbn. lia.
Defined.

(** What one successful call shows and leaves. *)
Lemma Next_Returned (r r' : RoundRobin) (s : string) :
  Next r = Returned (s, r') ->
  exists i : nat,
    idx r = Z.of_nat i /\ list r !! i = Some s
    /\ r' = {| list := list r;
               idx := Z.of_nat ((i + 1) mod List.length (list r)) |}.
Proof.
  intros H. pose proof H as E0. unfold Next in H.
  destruct ((idx r <? 0) || (Z.of_nat (List.length (list r)) <=? idx r))
    eqn:Hb; [discriminate|].
  apply orb_false_iff in Hb. destruct Hb as [H0 _].
  apply Z.ltb_ge in H0.
  exists (Z.to_nat (idx r)). rewrite Z2Nat.id by assumption.
  split; [reflexivity|].
  destruct (list r !! Z.to_nat (idx r)) as [s'|] eqn:Hs; [|discriminate].
  assert (E : Next {| list := list r; idx := Z.of_nat (Z.to_nat (idx r)) |}
              = Returned (s, r')).
  { rewrite Z2Nat.id by assumption. destruct r. exact E0. }
  rewrite (Next_in_range _ _ _ Hs) in E. injection E as <- <-.
  split; reflexivity.
Qed.

(** X17: [Next] panics exactly when the cursor is outside the list,
    which covers the empty list; when it returns, the string is the
    entry under the cursor, the list is the same and the new cursor is
    inside it.  So after one call that returned, every further run of
    calls returns too, with entries of the list only and the list
    unchanged. *)
Theorem Next_keeps_the_cursor_inside (r : RoundRobin) :
  ((exists m, Next r = Panicked m)
   <-> ~ (0 <= idx r < Z.of_nat (List.length (list r))))
  /\ (forall s r',
        Next r = Returned (s, r') ->
        list r !! Z.to_nat (idx r) = Some s
        /\ list r' = list r
        /\ 0 <= idx r' < Z.of_nat (List.length (list r'))
        /\ forall n, exists ss r'',
             Next_n n r' = Returned (ss, r'')
             /\ list r'' = list r
             /\ Forall (fun a => In a (list r)) ss).
Proof.
  split.
  - split.
    + intros [m Hm] Hr.
      destruct (lookup_lt_is_Some_2 (list r) (Z.to_nat (idx r)) ltac:(lia))
        as [s Hs].
      pose proof (Next_in_range _ _ _ Hs) as E.
      rewrite Z2Nat.id in E by lia. destruct r. cbn [list idx] in *.
      rewrite Hm in E. discriminate.
    + intros Hr. destruct (Next r) as [[s r']|m] eqn:E; [|now exists m].
      destruct (Next_Returned _ _ _ E) as (i & Hi & Hs & _).
      apply lookup_lt_Some in Hs. lia.
  - intros s r' E.
    destruct (Next_Returned _ _ _ E) as (i & Hi & Hs & ->).
    pose proof (lookup_lt_Some _ _ _ Hs) as Hlt.
    assert (Hm : ((i + 1) mod List.length (list r)
                  < List.length (list r))%nat)
      by (apply Nat.mod_upper_bound; lia).
    rewrite Hi, Nat2Z.id. cbn [list idx].
    split; [exact Hs|]. split; [reflexivity|]. split; [lia|].
    intros n.
    assert (Hne : list r <> []) by (destruct (list r); [discriminate|congruence]).
    rewrite (Next_n_from (list r) n _ Hne Hm).
    eexists _, _. split; [reflexivity|]. split; [reflexivity|].
    apply Forall_forall. intros a Ha.
    apply list_elem_of_In, in_map_iff in Ha.
    destruct Ha as (k & <- & _). apply nth_In.
    apply Nat.mod_upper_bound. lia.
Qed.

End RoundRobinCycle.

(** ** The list of upstream addresses: [iplist] and its use in [main] *)

Section IPList.

Import Strings iplist flags.

Lemma Uniq_loop_acc (vs : list string) : forall seen uniq,
  Uniq_loop vs seen uniq = (uniq ++ Uniq_loop vs seen [])%list.
Proof.
  induction vs as [|v vs IH]; intros seen uniq; cbn [Uniq_loop].
  - now rewrite app_nil_r.
  - destruct (bool_decide (v ∈ seen)); [apply IH|].
    rewrite (IH _ (uniq ++ [v])%list), (IH _ ([] ++ [v])%list).
    now rewrite <- !app_assoc.
Qed.

Lemma Uniq_loop_cons_new (v : string) vs seen :
  v ∉ seen ->
  Uniq_loop (v :: vs) seen [] = v :: Uniq_loop vs ({[ v ]} ∪ seen) [].
Proof.
  intros Hv. cbn [Uniq_loop]. rewrite bool_decide_eq_false_2 by assumption.
  now rewrite Uniq_loop_acc.
Qed.

Lemma Uniq_loop_cons_seen (v : string) vs seen :
  v ∈ seen -> Uniq_loop (v :: vs) seen [] = Uniq_loop vs seen [].
Proof.
  intros Hv. cbn [Uniq_loop]. now rewrite bool_decide_eq_true_2.
Qed.

Lemma Uniq_loop_elem (vs : list string) : forall seen x,
  x ∈ Uniq_loop vs seen [] <-> x ∈ vs /\ x ∉ seen.
Proof.
  induction vs as [|v vs IH]; intros seen x.
  - cbn. rewrite elem_of_nil. tauto.
  - destruct (decide (v ∈ seen)) as [Hv|Hv].
    + rewrite Uniq_loop_cons_seen, IH, elem_of_cons by assumption.
      split; [tauto|]. intros [[->|H] Hx]; tauto.
    + rewrite Uniq_loop_cons_new, !elem_of_cons, IH by assumption.
      split.
      * intros [->|[H Hx]]; [tauto|]. split; [tauto|]. set_solver.
      * intros [[->|H] Hx]; [tauto|].
        destruct (decide (x = v)) as [->|Hne]; [tauto|]. right.
        split; [assumption|]. set_solver.
Qed.

Lemma Uniq_loop_NoDup (vs : list string) : forall seen,
  NoDup (Uniq_loop vs seen []).
Proof.
  induction vs as [|v vs IH]; intros seen.
  - constructor.
  - destruct (decide (v ∈ seen)) as [Hv|Hv].
    + rewrite Uniq_loop_cons_seen by assumption. apply IH.
    + rewrite Uniq_loop_cons_new by assumption. constructor; [|apply IH].
      rewrite Uniq_loop_elem. set_solver.
Qed.

Lemma Uniq_loop_sublist (vs : list string) : forall seen,
  sublist (Uniq_loop vs seen []) vs.
Proof.
  induction vs as [|v vs IH]; intros seen.
  - constructor.
  - destruct (decide (v ∈ seen)) as [Hv|Hv].
    + rewrite Uniq_loop_cons_seen by assumption.
      apply sublist_cons, IH.
    + rewrite Uniq_loop_cons_new by assumption.
      apply sublist_skip, IH.
Qed.

Lemma Uniq_loop_filter (v : string) (vs : list string) : forall seen,
  Uniq_loop vs ({[ v ]} ∪ seen) []
  = Uniq_loop (filter (fun x => x <> v) vs) seen [].
Proof.
  induction vs as [|x vs IH]; intros seen; [reflexivity|].
  destruct (decide (x = v)) as [->|Hne].
  - rewrite filter_cons_False by tauto.
    rewrite Uniq_loop_cons_seen by set_solver. apply IH.
  - rewrite filter_cons_True by assumption.
    destruct (decide (x ∈ seen)) as [Hx|Hx].
    + rewrite !Uniq_loop_cons_seen by set_solver. apply IH.
    + rewrite !Uniq_loop_cons_new by set_solver. f_equal.
      rewrite <- IH. f_equal. set_solver.
Qed.

Lemma Uniq_cons (v : string) (vs : list string) :
  Uniq {| values := v :: vs |}
  = v :: Uniq {| values := filter (fun x => x <> v) vs |}.
Proof.
  unfold Uniq. cbn [values].
  rewrite Uniq_loop_cons_new by set_solver.
  now rewrite Uniq_loop_filter.
Qed.

(** X18: [Uniq] returns the values without repetition: the result has
    no duplicates, has the same members as the list, keeps their
    order, and of equal values keeps the first: the head of the list
    comes first, followed by what [Uniq] gives for the rest without
    the head's other occurrences. *)
Theorem Uniq_keeps_first_occurrences (l : IPList) :
  NoDup (Uniq l)
  /\ (forall v, v ∈ Uniq l <-> v ∈ values l)
  /\ sublist (Uniq l) (values l)
  /\ match values l with
     | [] => Uniq l = []
     | v :: vs =>
         Uniq l = v :: Uniq {| values := filter (fun x => x <> v) vs |}
     end.
Proof.
  split; [apply Uniq_loop_NoDup|]. split; [|split].
  - intros v. unfold Uniq. rewrite Uniq_loop_elem. set_solver.
  - apply Uniq_loop_sublist.
  - destruct l as [[|v vs]]; [reflexivity | apply Uniq_cons].
Qed.

Lemma Uniq_NoDup_id (vs : list string) :
  NoDup vs -> Uniq {| values := vs |} = vs.
Proof.
  induction 1 as [|v vs Hv Hnd IH]; [reflexivity|].
  rewrite Uniq_cons. f_equal.
  replace (filter (fun x => x <> v) vs) with vs; [exact IH|].
  symmetry. clear -Hv. induction vs as [|x vs IH]; [reflexivity|].
  rewrite filter_cons_True by set_solver. f_equal. apply IH. set_solver.
Qed.

(** X19: [Uniq] returns the list itself exactly when the list has no
    duplicates, and applying it to its own result changes nothing. *)
Theorem Uniq_is_the_identity_without_duplicates (l : IPList) :
  (Uniq l = values l <-> NoDup (values l))
  /\ Uniq {| values := Uniq l |} = Uniq l.
Proof.
  split.
  - split.
    + intros <-. apply Uniq_loop_NoDup.
    + destruct l as [vs]. apply Uniq_NoDup_id.
  - apply Uniq_NoDup_id, Uniq_loop_NoDup.
Qed.

Section WithParser.

Variable ParseIP_String : string -> option string.
Variable Quote : string -> string.

Lemma Set_loop_parsed_prefix (ss : list string) : forall seen vs,
  Set_loop ParseIP_String Quote ss seen vs
  = ({| values :=
          (vs ++ Uniq_loop (fst (parsed_prefix ParseIP_String ss)) seen [])%list |},
     option_map (fun ipStr => "invalid nameserver IP: " ++ Quote ipStr)
                (snd (parsed_prefix ParseIP_String ss))).
Proof.
  induction ss as [|ipStr ss IH]; intros seen vs;
    cbn [Set_loop parsed_prefix].
  - cbn. now rewrite app_nil_r.
  - destruct (ParseIP_String ipStr) as [addr|]; cbn [fst snd].
    + destruct (decide (addr ∈ seen)) as [Ha|Ha].
      * rewrite bool_decide_eq_true_2, Uniq_loop_cons_seen by assumption.
        apply IH.
      * rewrite bool_decide_eq_false_2, Uniq_loop_cons_new by assumption.
        rewrite IH. now rewrite <- app_assoc.
    + cbn. now rewrite app_nil_r.
Qed.

Lemma parsed_prefix_all (ss : list string) :
  snd (parsed_prefix ParseIP_String ss) = None
  <-> Forall (fun ipStr => ParseIP_String ipStr <> None) ss.
Proof.
  induction ss as [|ipStr ss IH]; cbn [parsed_prefix].
  - split; [constructor | reflexivity].
  - destruct (ParseIP_String ipStr) as [addr|] eqn:E; cbn [snd].
    + rewrite IH. split.
      * intros H. constructor; [congruence | exact H].
      * intros H. now inversion H.
    + split; [discriminate|]. intros H. inversion H. congruence.
Qed.

(** X20: [Set] cuts its argument at the commas and parses the
    pieces in order up to the first one that [ParseIP] refuses; to
    the values the list had it appends the addresses parsed so far,
    each once, in the order of their first appearance.  It returns
    an error that quotes the refused piece, and no error exactly
    when every piece parses.  Addresses the list already had are
    appended again. *)
Theorem Set_appends_the_addresses_parsed (l : IPList) (s : string) :
  IPList_Set ParseIP_String Quote l s
  = ({| values :=
          (values l
           ++ Uniq {| values :=
                        fst (parsed_prefix ParseIP_String (Split s ",")) |})%list |},
     option_map (fun ipStr => "invalid nameserver IP: " ++ Quote ipStr)
                (snd (parsed_prefix ParseIP_String (Split s ","))))
  /\ (snd (IPList_Set ParseIP_String Quote l s) = None
      <-> Forall (fun ipStr => ParseIP_String ipStr <> None) (Split s ",")).
Proof.
  assert (E := Set_loop_parsed_prefix (Split s ",") ∅ (values l)).
  split; [exact E|].
  unfold IPList_Set. rewrite E. cbn [snd].
  rewrite <- parsed_prefix_all.
  destruct (snd (parsed_prefix ParseIP_String (Split s ",")));
    cbn [option_map]; split; intros H; try discriminate H; reflexivity.
Qed.

Lemma Uniq_loop_seen_twice (x : string) (vs : list string) seen :
  x ∈ seen ->
  Uniq_loop vs ({[ x ]} ∪ seen) [] = Uniq_loop vs seen [].
Proof. intros Hx. f_equal. set_solver. Qed.

Lemma Uniq_loop_app (a b : list string) : forall seen,
  Uniq_loop (a ++ b) seen []
  = (Uniq_loop a seen [] ++ Uniq_loop b (list_to_set a ∪ seen) [])%list.
Proof.
  induction a as [|x a IH]; intros seen.
  - cbn [app list_to_set Uniq_loop]. f_equal. set_solver.
  - rewrite <- app_comm_cons. destruct (decide (x ∈ seen)) as [Hx|Hx].
    + rewrite !Uniq_loop_cons_seen, IH by assumption.
      do 2 f_equal. set_solver.
    + rewrite !Uniq_loop_cons_new, IH by assumption.
      rewrite <- app_comm_cons. do 3 f_equal. set_solver.
Qed.

Lemma Uniq_loop_twice (b : list string) : forall s1 s2,
  Uniq_loop (Uniq_loop b s1 []) s2 [] = Uniq_loop b (s1 ∪ s2) [].
Proof.
  induction b as [|x b IH]; intros s1 s2; [reflexivity|].
  destruct (decide (x ∈ s1)) as [H1|H1].
  - rewrite (Uniq_loop_cons_seen x b s1) by assumption.
    rewrite (Uniq_loop_cons_seen x b (s1 ∪ s2)) by set_solver.
    apply IH.
  - rewrite (Uniq_loop_cons_new x b s1) by assumption.
    destruct (decide (x ∈ s2)) as [H2|H2].
    + rewrite !Uniq_loop_cons_seen by set_solver.
      rewrite IH. f_equal. set_solver.
    + rewrite !Uniq_loop_cons_new by set_solver.
      rewrite IH. do 2 f_equal. set_solver.
Qed.

Lemma Uniq_app_Uniq (a b : list string) :
  Uniq {| values := (a ++ Uniq {| values := b |})%list |}
  = Uniq {| values := (a ++ b)%list |}.
Proof.
  unfold Uniq. cbn [values]. rewrite !Uniq_loop_app. f_equal.
  rewrite Uniq_loop_twice. f_equal. set_solver.
Qed.

Lemma Uniq_loop_all_seen (b : list string) seen :
  (forall x, x ∈ b -> x ∈ seen) -> Uniq_loop b seen [] = [].
Proof.
  induction b as [|x b IH]; intros H; [reflexivity|].
  rewrite Uniq_loop_cons_seen by set_solver. apply IH. set_solver.
Qed.

(** X21: [Uniq] after [Set] gives the distinct values among those
    the list had and the addresses parsed, in the order of their
    first appearance; so the same argument set a second time leaves
    what [Uniq] returns unchanged, although it makes the list
    longer. *)
Theorem Uniq_after_Set (l : IPList) (s : string) :
  Uniq (fst (IPList_Set ParseIP_String Quote l s))
  = Uniq {| values :=
              (values l
               ++ fst (parsed_prefix ParseIP_String (Split s ",")))%list |}
  /\ Uniq (fst (IPList_Set ParseIP_String Quote
                  (fst (IPList_Set ParseIP_String Quote l s)) s))
     = Uniq (fst (IPList_Set ParseIP_String Quote l s)).
Proof.
  unfold IPList_Set. rewrite !Set_loop_parsed_prefix. cbn [fst values].
  set (p := fst (parsed_prefix ParseIP_String (Split s ","))).
  change (Uniq_loop p ∅ []) with (Uniq {| values := p |}).
  split; [apply Uniq_app_Uniq|].
  rewrite (Uniq_app_Uniq (values l ++ Uniq {| values := p |}) p).
  unfold Uniq at 1. cbn [values].
  rewrite (Uniq_loop_app (values l ++ Uniq {| values := p |}) p).
  rewrite (Uniq_loop_all_seen p); [apply app_nil_r|].
  intros x Hx. rewrite elem_of_union, elem_of_list_to_set, elem_of_app.
  left. right. unfold Uniq. apply Uniq_loop_elem. cbn [values].
  split; [exact Hx | set_solver].
Qed.

End WithParser.

(** *** [String] and [strings.Split] *)

Lemma String_fold (vs : list string) : forall s idx,
  0 < idx ->
  fst (fold_left String_turn vs (s, idx)) = s ++ after_commas vs.
Proof.
  induction vs as [|v vs IH]; intros s idx Hidx; cbn [fold_left after_commas].
  - cbn. now rewrite append_nil_r.
  - unfold String_turn at 2.
    replace (0 <? idx) with true by (symmetry; apply Z.ltb_lt; lia).
    rewrite IH by lia. now rewrite !append_assoc.
Qed.

Lemma IPList_String_cons (v : string) (vs : list string) :
  IPList_String {| values := v :: vs |} = v ++ after_commas vs.
Proof.
  unfold IPList_String. cbn [values fold_left]. unfold String_turn at 2.
  cbn [Z.ltb Z.compare]. rewrite append_nil_l. apply String_fold. lia.
Qed.

Lemma Split_nonempty (s : string) (sep : ascii) : Split s sep <> [].
Proof.
  destruct s as [|c s]; cbn [Split]; [discriminate|].
  destruct (Ascii.eqb c sep); [discriminate|].
  destruct (Split s sep); discriminate.
Qed.

Lemma Split_no_sep (a : string) (sep : ascii) :
  ContainsByte a sep = false -> Split a sep = [a].
Proof.
  induction a as [|c a IH]; cbn [Split ContainsByte]; [reflexivity|].
  destruct (Ascii.eqb c sep); [discriminate|]. intros H.
  now rewrite IH.
Qed.

Lemma Split_append (a b : string) (sep : ascii) :
  ContainsByte a sep = false ->
  Split (a ++ String sep b) sep = a :: Split b sep.
Proof.
  induction a as [|c a IH]; cbn [ContainsByte]; intros H.
  - rewrite append_nil_l. cbn [Split]. now rewrite Ascii.eqb_refl.
  - rewrite append_cons. cbn [Split].
    destruct (Ascii.eqb c sep); [discriminate|]. now rewrite IH.
Qed.

(** X22: [String] puts back together what [strings.Split] cut at the
    commas: for every string, the list of its pieces, empty pieces
    included, is printed as the string itself. *)
Theorem String_joins_what_Split_cuts (s : string) :
  IPList_String {| values := Split s "," |} = s.
Proof.
  assert (G : forall s, exists v vs,
               Split s "," = v :: vs /\ v ++ after_commas vs = s).
  { clear s. induction s as [|c s (v & vs & E & Hs)]; cbn [Split].
    - exists "", []. split; reflexivity.
    - destruct (Ascii.eqb_spec c ",") as [->|Hc].
      + exists "", (v :: vs). rewrite E. split; [reflexivity|].
        cbn [after_commas]. rewrite append_nil_l, Hs. reflexivity.
      + rewrite E. exists (String c v), vs. split; [reflexivity|].
        now rewrite append_cons, Hs. }
  destruct (G s) as (v & vs & E & Hs).
  now rewrite E, IPList_String_cons.
Qed.

Lemma Split_after_commas (v : string) (vs : list string) :
  ContainsByte v "," = false ->
  Forall (fun v => ContainsByte v "," = false) vs ->
  Split (v ++ after_commas vs) "," = v :: vs.
Proof.
  intros Hv H. revert v Hv.
  induction H as [|w vs Hw H IH]; intros v Hv; cbn [after_commas].
  - rewrite append_nil_r. now apply Split_no_sep.
  - change ("," ++ w ++ after_commas vs)
      with (String "," (w ++ after_commas vs)).
    rewrite Split_append by assumption. f_equal. now apply IH.
Qed.

(** X23: a list that is not empty and whose values contain no comma
    is read back from what [String] prints: cutting the text at the
    commas gives the values, while the empty list, printed as the
    empty string, is read back as one empty piece. *)
Theorem Split_reads_back_what_String_prints (l : IPList) :
  values l <> [] ->
  Forall (fun v => ContainsByte v "," = false) (values l) ->
  Split (IPList_String l) "," = values l
  /\ IPList_String New = ""
  /\ Split (IPList_String New) "," = [""].
Proof.
  destruct l as [[|v vs]]; cbn [values]; [congruence|].
  intros _ H. split; [|split; reflexivity].
  rewrite IPList_String_cons. inversion H; subst.
  now apply Split_after_commas.
Qed.

Lemma Split_reads_back_what_String_prints_witness :
  Split (IPList_String {| values := ["192.0.2.1"; "2001:db8::1"] |}) ","
  = values {| values := ["192.0.2.1"; "2001:db8::1"] |}
  /\ IPList_String New = ""
  /\ Split (IPList_String New) "," = [""].
Proof.
  apply (Split_reads_back_what_String_prints
           {| values := ["192.0.2.1"; "2001:db8::1"] |}).
  - discriminate.
  - repeat constructor.
Defined.

(** *** The list handed to the selector *)

Lemma append_inj_r (p a b : string) : a ++ p = b ++ p -> a = b.
Proof.
  revert a b. induction p as [|c p IH]; intros a b.
  - now rewrite !append_nil_r.
  - change (String c p) with (String c "" ++ p).
    rewrite <- !append_assoc. intros H.
    apply IH in H. now apply append_byte_inj in H.
Qed.

(** The nameservers part of [main]: the check of the list and the
    selector built. *)
Lemma nameservers_of_Uniq (l : IPList) (flagTLSServerName : string) :
  match main.nameservers (Uniq l) flagTLSServerName with
  | main.Fatal msg =>
      values l = [] /\ msg = "at least one nameserver required!"
  | main.Started r =>
      values l <> []
      /\ roundrobin.idx r = 0
      /\ roundrobin.list r <> []
      /\ NoDup (roundrobin.list r)
      /\ roundrobin.list r
         = map (fun v => v ++ main.upstreamPort flagTLSServerName) (Uniq l)
      /\ (forall a, a ∈ roundrobin.list r
                    <-> exists v, v ∈ values l
                                  /\ a = v ++ main.upstreamPort flagTLSServerName)
      /\ (main.upstreamPort flagTLSServerName
          = if decide (flagTLSServerName = "") then ":53" else ":853")
  end.
Proof.
  unfold main.nameservers.
  destruct l as [[|v vs]].
  - cbn. split; reflexivity.
  - rewrite Uniq_cons.
    set (u := Uniq {| values := filter (fun x => x <> v) vs |}).
    replace (Z.of_nat (List.length (v :: u)) <? 1) with false
      by (symmetry; apply Z.ltb_ge; cbn [List.length]; lia).
    cbn [roundrobin.New roundrobin.idx roundrobin.list values].
    split; [discriminate|]. split; [reflexivity|].
    split; [discriminate|]. split; [|split; [reflexivity|split]].
    + assert (Hinj : Inj eq eq
                (fun val => val ++ main.upstreamPort flagTLSServerName))
        by (intros a b; apply append_inj_r).
      apply (NoDup_fmap_2 _).
      unfold u. rewrite <- Uniq_cons. apply Uniq_loop_NoDup.
    + intros a. unfold u. rewrite <- Uniq_cons.
      change (map ?f ?x) with (f <$> x). rewrite list_elem_of_fmap.
      split.
      * intros (w & -> & Hw). exists w. split; [|reflexivity].
        unfold Uniq in Hw. apply Uniq_loop_elem in Hw. tauto.
      * intros (w & Hw & ->). exists w. split; [reflexivity|].
        unfold Uniq. apply Uniq_loop_elem. split; [exact Hw|set_solver].
    + unfold main.upstreamPort.
      destruct flagTLSServerName; reflexivity.
Qed.

(** X24: what [main] hands to the selector.  Without a TCP or UDP
    port the start-up ends with the fatal message about the ports,
    whatever the nameservers are; with a port and no value in the
    list it ends with the fatal message about the nameservers;
    otherwise, and only then, a selector is built: it starts at the
    first entry, its entries are the distinct values in the order of
    their first appearance, each with the port appended ([:853] when
    a TLS server name is set, [:53] otherwise), no entry occurs twice,
    and there is at least one. *)
Theorem main_hands_distinct_addresses_to_the_selector
        (flagTCP flagUDP : Z) (l : IPList) (flagTLSServerName : string) :
  match cmd_mydns.main flagTCP flagUDP l flagTLSServerName with
  | main.Fatal msg =>
      (flagTCP <= 0 /\ flagUDP <= 0
       /\ msg = "at least one port for TCP or UDP must be specified")
      \/ ((0 < flagTCP \/ 0 < flagUDP)
          /\ values l = []
          /\ msg = "at least one nameserver required!")
  | main.Started r =>
      (0 < flagTCP \/ 0 < flagUDP)
      /\ values l <> []
      /\ roundrobin.idx r = 0
      /\ roundrobin.list r <> []
      /\ NoDup (roundrobin.list r)
      /\ roundrobin.list r
         = map (fun v => v ++ main.upstreamPort flagTLSServerName) (Uniq l)
      /\ (forall a, a ∈ roundrobin.list r
                    <-> exists v, v ∈ values l
                                  /\ a = v ++ main.upstreamPort flagTLSServerName)
      /\ (main.upstreamPort flagTLSServerName
          = if decide (flagTLSServerName = "") then ":53" else ":853")
  end.
Proof.
  unfold cmd_mydns.main.
  destruct ((flagTCP <=? 0) && (flagUDP <=? 0)) eqn:Hports.
  - apply andb_true_iff in Hports as [Ht Hu].
    apply Z.leb_le in Ht, Hu. left. now repeat split.
  - assert (Hport : 0 < flagTCP \/ 0 < flagUDP).
    { apply andb_false_iff in Hports as [H|H]; apply Z.leb_gt in H; lia. }
    pose proof (nameservers_of_Uniq l flagTLSServerName) as H.
    destruct (main.nameservers (Uniq l) flagTLSServerName) as [r|msg].
    + split; [exact Hport | exact H].
    + right. split; [exact Hport | exact H].
Qed.

End IPList.
